(** * schema-idb: schema diffing, version resolution and upgrade execution

    A shallow embedding of the TypeScript sources
    [createSchemaDB.ts] (collectMigrations, filterPendingMigrations,
    handleUpgrade, initializeDatabase), [schemaDetection.ts]
    (keyPathEquals, detectSchemaChanges, applySafeChanges,
    determineAutoVersion, ...) and [transaction.ts] (startTransaction),
    together with the properties the specification states about them. *)

From Stdlib Require Import List String Ascii Bool Arith NArith ZArith Lia.
From Stdlib Require Import Permutation Sorted DecimalString DecimalN.
Import ListNotations.
Local Open Scope string_scope.
Local Open Scope list_scope.

Set Implicit Arguments.

(* ================================================================== *)
(** ** JavaScript values used by the sources *)
(* ================================================================== *)

(** [string | string[] | null | undefined], the type of every keyPath
    that the sources handle. *)
Inductive KeyPath : Type :=
| KPNull
| KPUndefined
| KPString (s : string)
| KPArray (fields : list string).

(** An insertion-ordered [Map<string, V>]: iteration follows the order of
    first insertion, [set] on a present key overwrites in place. *)
Module JsMap.
Section Ops.
Variable V : Type.

Definition t := list (string * V).

Definition empty : t := [].

Fixpoint get (m : t) (k : string) : option V :=
    match m with
    | [] => None
    | (k', v) :: rest => if String.eqb k' k then Some v else get rest k
    end.

Definition has (m : t) (k : string) : bool :=
    match get m k with Some _ => true | None => false end.

Fixpoint set (m : t) (k : string) (v : V) : t :=
    match m with
    | [] => [(k, v)]
    | (k', v') :: rest =>
        if String.eqb k' k then (k', v) :: rest else (k', v') :: set rest k v
    end.

Fixpoint remove (m : t) (k : string) : t :=
    match m with
    | [] => []
    | (k', v') :: rest =>
        if String.eqb k' k then rest else (k', v') :: remove rest k
    end.

Definition keys (m : t) : list string := map fst m.

  (** The invariant every real [Map] has: no key occurs twice. *)
Definition wf (m : t) : Prop := NoDup (keys m).
End Ops.
Arguments empty {V}.
End JsMap.

(** A [Set<string>] is only ever queried with [has]. *)
Definition set_has (s : list string) (x : string) : bool :=
  existsb (String.eqb x) s.

(** [x ?? d] *)
Definition nullish (A : Type) (x : option A) (d : A) : A :=
  match x with Some a => a | None => d end.

(** String pieces that template literals need. *)
Definition dquote : string := String (ascii_of_nat 34) EmptyString.
Definition newline : string := String (ascii_of_nat 10) EmptyString.

(** A thrown value: a plain [new Error(message)] or an engine
    [DOMException] identified by its name. *)
Inductive JsError : Type :=
| Error (message : string)
| DOMException (name : string).

(** A call either returns or throws. *)
Inductive Result (A : Type) : Type :=
| Ok (a : A)
| Throw (e : JsError).
Arguments Ok {A} a.
Arguments Throw {A} e.

(** [Array.prototype.sort(compareFn)]: stable, and with a consistent
    comparator the result is the one of this insertion sort.  The
    comparator returns a number whose sign orders its two arguments. *)
Section JsSort.
Variable A : Type.
Variable compareFn : A -> A -> Z.

Fixpoint sort_insert (x : A) (l : list A) : list A :=
    match l with
    | [] => [x]
    | y :: rest =>
        if (0 <? compareFn x y)%Z then y :: sort_insert x rest
        else x :: y :: rest
    end.

Fixpoint js_sort (l : list A) : list A :=
    match l with
    | [] => []
    | x :: rest => sort_insert x (js_sort rest)
    end.
End JsSort.

(** The default order of [.sort()] on strings: by code units. *)
Definition codeUnitCompare (a b : string) : Z :=
  match String.compare a b with
  | Lt => (-1)%Z
  | Eq => 0%Z
  | Gt => 1%Z
  end.

(* ================================================================== *)
(** ** The IndexedDB engine: persisted data *)
(* ================================================================== *)

(** What the engine reports for an index. *)
Record IDBIndex : Type := {
  ix_keyPath : KeyPath;
  ix_unique : bool;
  ix_multiEntry : bool
}.

(** An object store: its keyPath, its indexes and its records.  A record
    is kept as its key together with an opaque payload; [put] replaces the
    record that has the same key.  Constraint checks of the engine on the
    contents of records are outside the model. *)
Record IDBObjectStore : Type := {
  os_keyPath : KeyPath;
  os_indexes : JsMap.t IDBIndex;
  os_records : JsMap.t string
}.

Definition Stores : Type := JsMap.t IDBObjectStore.

(** A database as it is persisted under one name.  The order of
    [db_stores] is the order in which the engine enumerates
    [objectStoreNames]. *)
Record IDBDatabase : Type := {
  db_version : N;
  db_stores : Stores
}.

Definition objectStoreNames (db : IDBDatabase) : list string :=
  JsMap.keys (db_stores db).

Definition indexNames (store : IDBObjectStore) : list string :=
  JsMap.keys (os_indexes store).

(* ================================================================== *)
(** ** types.ts and schema.ts: migrations and store definitions *)
(* ================================================================== *)

(** When the promise returned by an asynchronous migration settles,
    relative to the life of the upgrade transaction.  The engine finishes
    the transaction once the callback has returned and every queued request
    has settled; a promise that waits on anything else settles later. *)
Inductive PromiseFate : Type :=
| fulfils
| rejects_in_transaction (err : JsError)
| rejects_after_transaction (err : JsError).

(** What a call [migration.up(db, tx)] does besides changing stores:
    it returns (a plain value, or a promise) or it throws. *)
Inductive UpResult : Type :=
| up_returns (promise : option PromiseFate)
| up_throws (err : JsError).

(** Modelled from the spec: the declaration of [Migration] lives in
    types.ts, which is not part of the sources at hand.  The spec gives a
    migration a name and an executable body taking low-level
    store/transaction access; the body is a function of the stores it
    finds in the upgrade transaction. *)
Record Migration : Type := {
  mig_name : string;
  mig_up : Stores -> Stores * UpResult
}.

(* ================================================================== *)
(** ** schemaDetection.ts: types *)
(* ================================================================== *)

(** Modelled from the spec: the declaration of [IndexDefinition] lives in
    types.ts, which is not part of the sources at hand.  The spec gives it
    a name, a keyPath (single field or ordered field list) and the two
    flags; the sources read the flags through [?? false], so they are
    optional. *)
Record IndexDefinition : Type := {
  idx_name : string;
  idx_keyPath : KeyPath;
  idx_unique : option bool;
  idx_multiEntry : option bool
}.

(** The value type of [ExistingStoreSchema.indexes]. *)
Record ExistingIndex : Type := {
  ei_keyPath : KeyPath;
  ei_unique : bool;
  ei_multiEntry : bool
}.

Record ExistingStoreSchema : Type := {
  es_name : string;
  es_keyPath : KeyPath;
  es_indexes : JsMap.t ExistingIndex
}.

Record DesiredStoreSchema : Type := {
  ds_name : string;
  ds_keyPath : KeyPath;
  ds_indexes : list IndexDefinition
}.

Inductive SchemaChangeType : Type :=
| store_add (storeName : string)
| store_delete (storeName : string)
| store_rename (oldName newName : string)
| keypath_change (storeName : string) (oldKeyPath newKeyPath : KeyPath)
| index_add (storeName indexName : string) (index : IndexDefinition)
| index_delete (storeName indexName : string)
| index_modify (storeName indexName : string)
               (oldIndex : ExistingIndex) (newIndex : IndexDefinition).

Record SchemaChanges : Type := {
  safe : list SchemaChangeType;
  dangerous : list SchemaChangeType;
  hasChanges : bool
}.

(** Modelled from the spec: [SchemaStoreDefinition] is declared in
    schema.ts, which is not part of the sources at hand; these are the
    fields the sources read from a store definition. *)
Record SchemaStoreDefinition : Type := {
  store_name : string;
  store_keyPath : KeyPath;
  store_indexes : list IndexDefinition;
  store_migrations : list Migration
}.

(* ================================================================== *)
(** ** schemaDetection.ts: comparison *)
(* ================================================================== *)

Definition isInternalStore (storeName : string) : bool :=
  String.prefix "__" storeName.

Definition toDesiredSchema (stores : list SchemaStoreDefinition)
  : JsMap.t DesiredStoreSchema :=
  fold_left
    (fun schemas store =>
       JsMap.set schemas (store_name store)
         {| ds_name := store_name store;
            ds_keyPath := store_keyPath store;
            ds_indexes := store_indexes store |})
    stores JsMap.empty.

(** [a.every((v, i) => v === b[i])], from index [i] on. *)
Fixpoint every_same_at (a b : list string) (i : nat) : bool :=
  match a with
  | [] => true
  | v :: a' =>
      match nth_error b i with
      | Some w => String.eqb v w && every_same_at a' b (S i)
      | None => false
      end
  end.

(** [keyPathEquals]: strict equality on strings, [null] and [undefined]
    identified, arrays compared by length and then element by element. *)
Definition keyPathEquals (a b : KeyPath) : bool :=
  match a, b with
  | KPNull, KPNull | KPUndefined, KPUndefined => true
  | KPNull, KPUndefined | KPUndefined, KPNull => true
  | KPNull, _ | KPUndefined, _ | _, KPNull | _, KPUndefined => false
  | KPArray x, KPArray y =>
      if negb (Nat.eqb (List.length x) (List.length y)) then false
      else every_same_at x y 0
  | KPString s, KPString u => String.eqb s u
  | KPString _, KPArray _ | KPArray _, KPString _ => false
  end.

(** The body of the loop over [desiredStore.indexes]: what one desired
    index pushes on [safe]. *)
Definition indexChanges (storeName : string) (existingStore : ExistingStoreSchema)
           (desiredIndex : IndexDefinition) : list SchemaChangeType :=
  match JsMap.get (es_indexes existingStore) (idx_name desiredIndex) with
  | None =>
      [index_add storeName (idx_name desiredIndex) desiredIndex]
  | Some existingIndex =>
      let keyPathChanged :=
        negb (keyPathEquals (ei_keyPath existingIndex) (idx_keyPath desiredIndex)) in
      let uniqueChanged :=
        negb (Bool.eqb (ei_unique existingIndex)
                       (nullish (idx_unique desiredIndex) false)) in
      let multiEntryChanged :=
        negb (Bool.eqb (ei_multiEntry existingIndex)
                       (nullish (idx_multiEntry desiredIndex) false)) in
      if keyPathChanged || uniqueChanged || multiEntryChanged then
        [index_delete storeName (idx_name desiredIndex);
         index_add storeName (idx_name desiredIndex) desiredIndex]
      else []
  end.

(** The loop over [existingStore.indexes.keys()]. *)
Definition deletedIndexChanges (storeName : string)
           (existingStore : ExistingStoreSchema)
           (desiredStore : DesiredStoreSchema) : list SchemaChangeType :=
  let desiredIndexNames := map idx_name (ds_indexes desiredStore) in
  fold_left
    (fun safe existingIndexName =>
       if negb (set_has desiredIndexNames existingIndexName)
       then safe ++ [index_delete storeName existingIndexName]
       else safe)
    (JsMap.keys (es_indexes existingStore)) [].

(** One iteration of the loop over [desired]: the changes it pushes on
    [safe] and on [dangerous]. *)
Definition storeChanges (existing : JsMap.t ExistingStoreSchema)
           (entry : string * DesiredStoreSchema)
  : list SchemaChangeType * list SchemaChangeType :=
  let (storeName, desiredStore) := entry in
  match JsMap.get existing storeName with
  | None => ([store_add storeName], [])
  | Some existingStore =>
      if negb (keyPathEquals (es_keyPath existingStore) (ds_keyPath desiredStore))
      then ([], [keypath_change storeName (es_keyPath existingStore)
                                (ds_keyPath desiredStore)])
      else
        (fold_left (fun safe desiredIndex =>
                      safe ++ indexChanges storeName existingStore desiredIndex)
                   (ds_indexes desiredStore) []
           ++ deletedIndexChanges storeName existingStore desiredStore,
         [])
  end.

Definition detectSchemaChanges (existing : JsMap.t ExistingStoreSchema)
           (desired : JsMap.t DesiredStoreSchema) : SchemaChanges :=
  let '(safe1, dangerous1) :=
    fold_left
      (fun acc entry =>
         let '(safe0, dangerous0) := acc in
         let '(s, d) := storeChanges existing entry in
         (safe0 ++ s, dangerous0 ++ d))
      desired ([], []) in
  let dangerous2 :=
    fold_left
      (fun dangerous0 storeName =>
         if negb (JsMap.has desired storeName)
         then dangerous0 ++ [store_delete storeName]
         else dangerous0)
      (JsMap.keys existing) dangerous1 in
  {| safe := safe1;
     dangerous := dangerous2;
     hasChanges := (0 <? List.length safe1)%nat || (0 <? List.length dangerous2)%nat |}.

(** [readExistingSchema]: the canonical snapshot of the stores that are
    not internal.  The probing transaction is read-only and is discarded;
    the database is left as it is. *)
Definition readExistingSchema (db : IDBDatabase) : JsMap.t ExistingStoreSchema :=
  let storeNamesList :=
    filter (fun name => negb (isInternalStore name)) (objectStoreNames db) in
  fold_left
    (fun schemas storeName =>
       match JsMap.get (db_stores db) storeName with
       | None => schemas
       | Some store =>
           let indexes :=
             fold_left
               (fun indexes indexName =>
                  match JsMap.get (os_indexes store) indexName with
                  | None => indexes
                  | Some index =>
                      JsMap.set indexes indexName
                        {| ei_keyPath := ix_keyPath index;
                           ei_unique := ix_unique index;
                           ei_multiEntry := ix_multiEntry index |}
                  end)
               (indexNames store) JsMap.empty in
           JsMap.set schemas storeName
             {| es_name := storeName;
                es_keyPath := os_keyPath store;
                es_indexes := indexes |}
       end)
    storeNamesList JsMap.empty.

(* ================================================================== *)
(** ** The IndexedDB engine: the upgrade transaction *)
(* ================================================================== *)

(** Everything that can be observed from outside while the sources run. *)
Inductive Event : Type :=
| console_error (args : list string)
| console_warn (message : string)
| open_for_schema_read
| open_database (version : N)
| migration_up (name : string)
| ledger_put (name : string)
| tx_abort.

(** What [applySafeChanges] captures of a store that it renames. *)
Record RenameInfo : Type := {
  ri_keyPath : KeyPath;
  ri_indexes : list (string * IDBIndex);
  ri_newName : string
}.

(** A request whose [onsuccess] handler is still to run: the [getAll] of
    a renamed store, with the records it will deliver. *)
Inductive Deferred : Type :=
| rename_copy (storeInfo : RenameInfo) (records : JsMap.t string).

(** The state of one upgrade (versionchange) transaction. *)
Record Upgrade : Type := {
  up_stores : Stores;
  up_aborted : bool;
  up_requests : list Deferred;
  up_promises : list (string * PromiseFate);
  up_log : list Event
}.

Definition with_stores (u : Upgrade) (s : Stores) : Upgrade :=
  {| up_stores := s; up_aborted := up_aborted u; up_requests := up_requests u;
     up_promises := up_promises u; up_log := up_log u |}.

Definition with_event (u : Upgrade) (e : Event) : Upgrade :=
  {| up_stores := up_stores u; up_aborted := up_aborted u;
     up_requests := up_requests u; up_promises := up_promises u;
     up_log := up_log u ++ [e] |}.

(** Code that runs inside the upgrade callback: it reads and changes the
    transaction, and returns or throws. *)
Definition M (A : Type) : Type := Upgrade -> Result A * Upgrade.

Definition ret (A : Type) (a : A) : M A := fun u => (Ok a, u).

Definition bind (A B : Type) (c : M A) (k : A -> M B) : M B :=
  fun u =>
    match c u with
    | (Ok a, u') => k a u'
    | (Throw e, u') => (Throw e, u')
    end.

Definition throw (A : Type) (e : JsError) : M A := fun u => (Throw e, u).
Arguments throw {A} e.

Definition try_catch (A : Type) (c : M A) (handler : JsError -> M A) : M A :=
  fun u =>
    match c u with
    | (Ok a, u') => (Ok a, u')
    | (Throw e, u') => handler e u'
    end.

Notation "x <- c1 ;; c2" := (bind c1 (fun x => c2))
  (at level 61, c1 at next level, right associativity).
Notation "c1 ;; c2" := (bind c1 (fun _ => c2))
  (at level 61, right associativity).

Fixpoint for_each (A : Type) (l : list A) (body : A -> M unit) : M unit :=
  match l with
  | [] => ret tt
  | x :: rest => body x ;; for_each rest body
  end.

Definition emit (e : Event) : M unit := fun u => (Ok tt, with_event u e).

(** Every operation on a transaction that is no longer active throws. *)
Definition require_active : M unit :=
  fun u =>
    if up_aborted u then (Throw (DOMException "InvalidStateError"), u)
    else (Ok tt, u).

Definition db_contains (name : string) : M bool :=
  fun u => (Ok (JsMap.has (up_stores u) name), u).

Definition db_createObjectStore (name : string) (keyPath : KeyPath) : M unit :=
  require_active ;;
  fun u =>
    if JsMap.has (up_stores u) name
    then (Throw (DOMException "ConstraintError"), u)
    else (Ok tt,
          with_stores u
            (JsMap.set (up_stores u) name
               {| os_keyPath := keyPath;
                  os_indexes := JsMap.empty;
                  os_records := JsMap.empty |})).

Definition db_deleteObjectStore (name : string) : M unit :=
  require_active ;;
  fun u =>
    if JsMap.has (up_stores u) name
    then (Ok tt, with_stores u (JsMap.remove (up_stores u) name))
    else (Throw (DOMException "NotFoundError"), u).

(** [tx.objectStore(name)]: the store as it is now. *)
Definition tx_objectStore (name : string) : M IDBObjectStore :=
  require_active ;;
  fun u =>
    match JsMap.get (up_stores u) name with
    | Some store => (Ok store, u)
    | None => (Throw (DOMException "NotFoundError"), u)
    end.

Definition update_store (name : string) (f : IDBObjectStore -> Result IDBObjectStore)
  : M unit :=
  store <- tx_objectStore name ;;
  fun u =>
    match f store with
    | Ok store' => (Ok tt, with_stores u (JsMap.set (up_stores u) name store'))
    | Throw e => (Throw e, u)
    end.

Definition store_createIndex (storeName indexName : string) (keyPath : KeyPath)
           (unique multiEntry : bool) : M unit :=
  update_store storeName
    (fun store =>
       if JsMap.has (os_indexes store) indexName
       then Throw (DOMException "ConstraintError")
       else Ok {| os_keyPath := os_keyPath store;
                  os_indexes :=
                    JsMap.set (os_indexes store) indexName
                      {| ix_keyPath := keyPath; ix_unique := unique;
                         ix_multiEntry := multiEntry |};
                  os_records := os_records store |}).

Definition store_deleteIndex (storeName indexName : string) : M unit :=
  update_store storeName
    (fun store =>
       if JsMap.has (os_indexes store) indexName
       then Ok {| os_keyPath := os_keyPath store;
                  os_indexes := JsMap.remove (os_indexes store) indexName;
                  os_records := os_records store |}
       else Throw (DOMException "NotFoundError")).

Definition store_put (storeName key payload : string) : M unit :=
  update_store storeName
    (fun store =>
       Ok {| os_keyPath := os_keyPath store;
             os_indexes := os_indexes store;
             os_records := JsMap.set (os_records store) key payload |}).

(** [tx.abort()]: allowed once, while the transaction is active. *)
Definition tx_abort_ : M unit :=
  require_active ;;
  fun u =>
    (Ok tt,
     {| up_stores := up_stores u; up_aborted := true;
        up_requests := up_requests u; up_promises := up_promises u;
        up_log := up_log u ++ [tx_abort] |}).

Definition queue_request (d : Deferred) : M unit :=
  fun u =>
    (Ok tt,
     {| up_stores := up_stores u; up_aborted := up_aborted u;
        up_requests := up_requests u ++ [d]; up_promises := up_promises u;
        up_log := up_log u |}).

(** [result.catch(handler)] on the promise a migration returned. *)
Definition register_catch (name : string) (fate : PromiseFate) : M unit :=
  fun u =>
    (Ok tt,
     {| up_stores := up_stores u; up_aborted := up_aborted u;
        up_requests := up_requests u;
        up_promises := up_promises u ++ [(name, fate)];
        up_log := up_log u |}).

(* ================================================================== *)
(** ** migrationHistory.ts: the ledger *)
(* ================================================================== *)

Definition SCHEMA_HISTORY_STORE : string := "__schema_history__".

(** Modelled from the spec: migrationHistory.ts is not part of the sources
    at hand.  The ledger is one reserved store holding one record per
    applied migration name; the spec has the executor ensure that this
    store exists. *)
Definition ensureSchemaHistoryStore : M unit :=
  present <- db_contains SCHEMA_HISTORY_STORE ;;
  if present then ret tt
  else db_createObjectStore SCHEMA_HISTORY_STORE (KPString "name").

(** Modelled from the spec: migrationHistory.ts is not part of the sources
    at hand.  On first creation the ledger store is initialised; it holds
    no applied name yet. *)
Definition initializeSchemaHistory : M unit :=
  _ <- tx_objectStore SCHEMA_HISTORY_STORE ;; ret tt.

(** Modelled from the spec: migrationHistory.ts is not part of the sources
    at hand.  The migration name is appended to the ledger inside the
    upgrade transaction; [currentApplied] is what the caller passes along. *)
Definition recordMigrationApplied (migrationName : string)
           (currentApplied : list string) : M unit :=
  store_put SCHEMA_HISTORY_STORE migrationName migrationName ;;
  emit (ledger_put migrationName).

(** Modelled from the spec: migrationHistory.ts is not part of the sources
    at hand.  The applied names are read from the ledger of an established
    connection; a database without ledger store has none. *)
Definition getAppliedMigrations (db : IDBDatabase) : list string :=
  match JsMap.get (db_stores db) SCHEMA_HISTORY_STORE with
  | Some ledger => JsMap.keys (os_records ledger)
  | None => []
  end.

(* ================================================================== *)
(** ** schemaDetection.ts: applySafeChanges *)
(* ================================================================== *)

Definition is_store_rename (c : SchemaChangeType) : bool :=
  match c with store_rename _ _ => true | _ => false end.

(** The [onsuccess] handler of the [getAll] request of a renamed store. *)
Definition run_deferred (d : Deferred) : M unit :=
  match d with
  | rename_copy storeInfo records =>
      db_createObjectStore (ri_newName storeInfo) (ri_keyPath storeInfo) ;;
      for_each (ri_indexes storeInfo)
        (fun idx =>
           store_createIndex (ri_newName storeInfo) (fst idx)
             (ix_keyPath (snd idx)) (ix_unique (snd idx))
             (ix_multiEntry (snd idx))) ;;
      for_each records
        (fun record =>
           store_put (ri_newName storeInfo) (fst record) (snd record))
  end.

Definition createStoreFromDefinition (store : SchemaStoreDefinition) : M unit :=
  db_createObjectStore (store_name store) (store_keyPath store) ;;
  for_each (store_indexes store)
    (fun index =>
       store_createIndex (store_name store) (idx_name index) (idx_keyPath index)
         (nullish (idx_unique index) false)
         (nullish (idx_multiEntry index) false)).

Definition applySafeChanges (changes : list SchemaChangeType)
           (stores : list SchemaStoreDefinition) : M unit :=
  let renameChanges := filter is_store_rename changes in
  for_each renameChanges
    (fun change =>
       match change with
       | store_rename oldName newName =>
           oldStore <- tx_objectStore oldName ;;
           queue_request
             (rename_copy
                {| ri_keyPath := os_keyPath oldStore;
                   ri_indexes := os_indexes oldStore;
                   ri_newName := newName |}
                (os_records oldStore)) ;;
           db_deleteObjectStore oldName
       | _ => ret tt
       end) ;;
  for_each changes
    (fun change =>
       match change with
       | store_add storeName =>
           match find (fun s => String.eqb (store_name s) storeName) stores with
           | Some storeDefinition => createStoreFromDefinition storeDefinition
           | None => ret tt
           end
       | index_add storeName indexName index =>
           store_createIndex storeName indexName (idx_keyPath index)
             (nullish (idx_unique index) false)
             (nullish (idx_multiEntry index) false)
       | index_delete storeName indexName =>
           store_deleteIndex storeName indexName
       | _ => ret tt
       end).

(* ================================================================== *)
(** ** createSchemaDB.ts: handleUpgrade *)
(* ================================================================== *)

Definition getKeyPathString (keyPath : KeyPath) : KeyPath := keyPath.

Definition errorText (e : JsError) : string :=
  match e with
  | Error message => message
  | DOMException name => name
  end.

Definition migrationFailedMessage (name : string) : string :=
  String.concat EmptyString ["Migration "; dquote; name; dquote; " failed:"].

(** The call [migration.up(db, tx)]. *)
Definition call_up (migration : Migration) : M (option PromiseFate) :=
  fun u =>
    let (stores', outcome) := mig_up migration (up_stores u) in
    let u' := with_event (with_stores u stores') (migration_up (mig_name migration)) in
    match outcome with
    | up_returns promise => (Ok promise, u')
    | up_throws err => (Throw err, u')
    end.

(** The body of the loop over [pendingMigrations], [try] and [catch]. *)
Definition runMigration (migration : Migration) (currentApplied : list string)
  : M unit :=
  try_catch
    (result <- call_up migration ;;
     match result with
     | Some fate => register_catch (mig_name migration) fate
     | None => ret tt
     end ;;
     recordMigrationApplied (mig_name migration) currentApplied)
    (fun err =>
       emit (console_error
               [migrationFailedMessage (mig_name migration); errorText err]) ;;
       tx_abort_ ;;
       throw err).

Fixpoint runPendingMigrations (pendingMigrations : list Migration)
         (currentApplied : list string) : M unit :=
  match pendingMigrations with
  | [] => ret tt
  | migration :: rest =>
      runMigration migration currentApplied ;;
      runPendingMigrations rest
        (js_sort codeUnitCompare (currentApplied ++ [mig_name migration]))
  end.

(** The part of [handleUpgrade] that precedes the migrations. *)
Definition upgradeStructure (oldVersion : N) (stores : list SchemaStoreDefinition)
           (autoChanges : option SchemaChanges) : M unit :=
  ensureSchemaHistoryStore ;;
  if (oldVersion =? 0)%N then
    for_each stores
      (fun store =>
         db_createObjectStore (store_name store)
           (getKeyPathString (store_keyPath store)) ;;
         for_each (store_indexes store)
           (fun index =>
              store_createIndex (store_name store) (idx_name index)
                (idx_keyPath index)
                (nullish (idx_unique index) false)
                (nullish (idx_multiEntry index) false))) ;;
    initializeSchemaHistory
  else
    match autoChanges with
    | Some changes =>
        if (0 <? List.length (safe changes))%nat
        then applySafeChanges (safe changes) stores
        else ret tt
    | None => ret tt
    end.

Definition handleUpgrade (oldVersion : N) (stores : list SchemaStoreDefinition)
           (pendingMigrations : list Migration) (appliedMigrations : list string)
           (autoChanges : option SchemaChanges) : M unit :=
  upgradeStructure oldVersion stores autoChanges ;;
  runPendingMigrations pendingMigrations appliedMigrations.

(* ================================================================== *)
(** ** The IndexedDB engine: opening a database *)
(* ================================================================== *)

Definition begin_upgrade (before : option IDBDatabase) : Upgrade :=
  {| up_stores := match before with Some db => db_stores db | None => [] end;
     up_aborted := false;
     up_requests := [];
     up_promises := [];
     up_log := [] |}.

(** An exception that escapes a handler aborts the transaction. *)
Definition abort_by_engine (u : Upgrade) : Upgrade :=
  if up_aborted u then u else snd (tx_abort_ u).

(** The [catch] handler that [handleUpgrade] attaches to a promise. *)
Definition rejection_handler (name : string) (err : JsError) : M unit :=
  emit (console_error [migrationFailedMessage name; errorText err]) ;;
  tx_abort_.

(** Promises that reject while the transaction is active. *)
Definition settle_rejections (u : Upgrade) : Upgrade :=
  fold_left
    (fun u0 p =>
       match snd p with
       | rejects_in_transaction err => snd (rejection_handler (fst p) err u0)
       | _ => u0
       end)
    (up_promises u) u.

(** Queued requests deliver their results in order while the transaction
    is active. *)
Definition settle_requests (u : Upgrade) : Upgrade :=
  fold_left
    (fun u0 d =>
       if up_aborted u0 then u0
       else match run_deferred d u0 with
            | (Ok _, u1) => u1
            | (Throw _, u1) => abort_by_engine u1
            end)
    (up_requests u) u.

(** Promises that reject once the transaction has finished: the handler
    logs, and its [tx.abort()] throws on the finished transaction. *)
Definition late_rejections (u : Upgrade) : list Event :=
  flat_map
    (fun p =>
       match snd p with
       | rejects_after_transaction err =>
           [console_error [migrationFailedMessage (fst p); errorText err]]
       | _ => []
       end)
    (up_promises u).

(** One version-increasing open: the engine runs the upgrade callback in
    a fresh upgrade transaction and commits it, or rolls everything back
    when the transaction was aborted. *)
Definition run_upgrade (before : option IDBDatabase) (version : N)
           (onUpgrade : N -> M unit)
  : option IDBDatabase * Result IDBDatabase * list Event :=
  let oldVersion := match before with Some db => db_version db | None => 0%N end in
  let (r, u1) := onUpgrade oldVersion (begin_upgrade before) in
  let u2 := match r with
            | Throw _ => abort_by_engine u1
            | Ok _ => settle_requests (settle_rejections u1)
            end in
  let events := up_log u2 ++ late_rejections u2 in
  if up_aborted u2
  then (before, Throw (DOMException "AbortError"), events)
  else
    let db := {| db_version := version; db_stores := up_stores u2 |} in
    (Some db, Ok db, events).

(** Modelled from the spec: [openDatabase] lives in utils.ts, which is not
    part of the sources at hand.  The spec gives it as
    open(name, version, onUpgrade, onBlocked) -> connection|error over the
    engine, which grants the upgrade callback on a version increase only
    and refuses a version below the persisted one. *)
Definition openDatabase (before : option IDBDatabase) (version : N)
           (onUpgrade : N -> M unit)
  : option IDBDatabase * Result IDBDatabase * list Event :=
  if (version =? 0)%N then (before, Throw (Error "TypeError"), [])
  else
    match before with
    | None => run_upgrade before version onUpgrade
    | Some db =>
        if (version <? db_version db)%N
        then (before, Throw (DOMException "VersionError"), [])
        else if (version =? db_version db)%N
        then (before, Ok db, [])
        else run_upgrade before version onUpgrade
    end.

(** [openDatabaseForSchemaRead]: the database when one exists; a
    database that would have to be created is not. *)
Definition openDatabaseForSchemaRead (persisted : option IDBDatabase)
  : option IDBDatabase := persisted.

(* ================================================================== *)
(** ** schemaDetection.ts: removed stores and automatic versions *)
(* ================================================================== *)

Inductive RemovedStoreStrategy : Type := strategy_error | strategy_preserve.

Inductive VersionStrategy : Type := strategy_explicit | strategy_auto.

(** A version number in a template literal. *)
Definition versionText (v : N) : string := NilEmpty.string_of_uint (N.to_uint v).

Definition backupStoreName (storeName : string) (currentVersion : N) : string :=
  String.concat EmptyString
    ["__"; storeName; "_deleted_v"; versionText currentVersion; "__"].

(** The body of the loop over [changes.dangerous] that both
    [determineAutoVersion] and the explicit branch of [initializeDatabase]
    contain; it pushes on [changes.safe] or on [remainingDangerous]. *)
Definition processDangerousChange (removedStoreStrategy : RemovedStoreStrategy)
           (currentVersion : N)
           (acc : list SchemaChangeType * list SchemaChangeType)
           (change : SchemaChangeType)
  : list SchemaChangeType * list SchemaChangeType :=
  let '(safe0, remainingDangerous) := acc in
  match change with
  | store_delete storeName =>
      match removedStoreStrategy with
      | strategy_preserve =>
          (safe0 ++ [store_rename storeName
                       (backupStoreName storeName currentVersion)],
           remainingDangerous)
      | strategy_error => (safe0, remainingDangerous ++ [change])
      end
  | _ => (safe0, remainingDangerous ++ [change])
  end.

(** The whole loop: the new [safe] list and [remainingDangerous]. *)
Definition processDangerousChanges (removedStoreStrategy : RemovedStoreStrategy)
           (currentVersion : N) (changes : SchemaChanges)
  : list SchemaChangeType * list SchemaChangeType :=
  fold_left (processDangerousChange removedStoreStrategy currentVersion)
            (dangerous changes) (safe changes, []).

Definition keyPathText (k : KeyPath) : string :=
  match k with
  | KPNull => "null"
  | KPUndefined => "undefined"
  | KPString s => s
  | KPArray fields => String.concat "," fields
  end.

Definition describeDangerous (c : SchemaChangeType) : string :=
  match c with
  | store_delete storeName =>
      String.concat EmptyString
        ["Store "; dquote; storeName; dquote;
         " would be deleted. Use removedStoreStrategy: 'preserve' to backup, or add a migration to explicitly delete it."]
  | keypath_change storeName oldKeyPath newKeyPath =>
      String.concat EmptyString
        ["Store "; dquote; storeName; dquote; " keyPath changed from ";
         dquote; keyPathText oldKeyPath; dquote; " to ";
         dquote; keyPathText newKeyPath; dquote;
         ". This requires recreating the store with a manual migration."]
  | _ => "Unknown dangerous change"
  end.

Definition dangerousErrorMessage (remaining : list SchemaChangeType) : string :=
  String.concat EmptyString
    ["Dangerous schema changes detected:"; newline;
     String.concat newline (map describeDangerous remaining);
     newline; newline;
     "Add explicit migrations to handle these changes safely."].

Record AutoVersion : Type := {
  av_version : N;
  av_changes : option SchemaChanges;
  av_needsUpgrade : bool
}.

Definition determineAutoVersion (persisted : option IDBDatabase)
           (stores : list SchemaStoreDefinition)
           (removedStoreStrategy : RemovedStoreStrategy)
  : Result AutoVersion * list Event :=
  match openDatabaseForSchemaRead persisted with
  | None =>
      (Ok {| av_version := 1; av_changes := None; av_needsUpgrade := true |},
       [open_for_schema_read])
  | Some existingDb =>
      let currentVersion := db_version existingDb in
      let existingSchema := readExistingSchema existingDb in
      let desiredSchema := toDesiredSchema stores in
      let changes := detectSchemaChanges existingSchema desiredSchema in
      if negb (hasChanges changes) then
        (Ok {| av_version := currentVersion; av_changes := None;
               av_needsUpgrade := false |},
         [open_for_schema_read])
      else
        let '(safe', remainingDangerous) :=
          processDangerousChanges removedStoreStrategy currentVersion changes in
        if (0 <? List.length remainingDangerous)%nat then
          let errorMessage := dangerousErrorMessage remainingDangerous in
          (Throw (Error errorMessage),
           [open_for_schema_read; console_error ["[schema-idb]"; errorMessage]])
        else
          (Ok {| av_version := currentVersion + 1;
                 av_changes :=
                   Some {| safe := safe'; dangerous := remainingDangerous;
                           hasChanges := hasChanges changes |};
                 av_needsUpgrade := true |},
           [open_for_schema_read])
  end.

(* ================================================================== *)
(** ** createSchemaDB.ts: the registry and initializeDatabase *)
(* ================================================================== *)

Definition describeSafe (c : SchemaChangeType) : string :=
  match c with
  | store_add storeName =>
      String.concat EmptyString ["- Add store "; dquote; storeName; dquote]
  | store_rename oldName newName =>
      String.concat EmptyString
        ["- Rename store "; dquote; oldName; dquote; " to "; dquote; newName; dquote]
  | index_add storeName indexName _ =>
      String.concat EmptyString
        ["- Add index "; dquote; indexName; dquote; " on "; dquote; storeName; dquote]
  | index_delete storeName indexName =>
      String.concat EmptyString
        ["- Delete index "; dquote; indexName; dquote; " from ";
         dquote; storeName; dquote]
  | _ => "- Schema change"
  end.

Definition notBumpedWarning (safeChanges : list SchemaChangeType)
           (currentVersion version : N) : string :=
  String.concat EmptyString
    ["[schema-idb] Schema changes detected but version not bumped:"; newline;
     String.concat newline (map describeSafe safeChanges); newline;
     "Current DB version: "; versionText currentVersion;
     ", Provided version: "; versionText version; newline;
     "Bump the version to apply these changes."].

(** What the first half of [initializeDatabase] settles before it opens
    the database. *)
Record Resolution : Type := {
  res_version : N;
  res_autoChanges : option SchemaChanges;
  res_appliedMigrations : list string
}.

(** What [initializeDatabase] leaves behind: the persisted database, the
    connection ([state.idb]) or the error ([state.error]), and what was
    observable on the way. *)
Record Initialization : Type := {
  init_persisted : option IDBDatabase;
  init_state : Result IDBDatabase;
  init_log : list Event
}.

Section Registry.
  (** [String.prototype.localeCompare]: the collation of the host.  Only
      its sign is used. *)
Variable localeCompare : string -> string -> Z.

Definition byName (a b : Migration) : Z :=
    localeCompare (mig_name a) (mig_name b).

Definition duplicateMigrationMessage (name : string) : string :=
    String.concat EmptyString
      ["Duplicate migration name "; dquote; name; dquote; " found across stores"].

  (** The inner loop of [collectMigrations], over [store.migrations]. *)
Fixpoint collectFromStore (migrations : list Migration)
           (acc : list Migration * list string)
    : Result (list Migration * list string) :=
    match migrations with
    | [] => Ok acc
    | migration :: rest =>
        let '(allMigrations, seenNames) := acc in
        if set_has seenNames (mig_name migration)
        then Throw (Error (duplicateMigrationMessage (mig_name migration)))
        else collectFromStore rest
               (allMigrations ++ [migration], seenNames ++ [mig_name migration])
    end.

  (** The outer loop, over [stores]. *)
Fixpoint collectFromStores (stores : list SchemaStoreDefinition)
           (acc : list Migration * list string)
    : Result (list Migration * list string) :=
    match stores with
    | [] => Ok acc
    | store :: rest =>
        match collectFromStore (store_migrations store) acc with
        | Ok acc' => collectFromStores rest acc'
        | Throw e => Throw e
        end
    end.

Definition collectMigrations (stores : list SchemaStoreDefinition)
    : Result (list Migration) :=
    match collectFromStores stores ([], []) with
    | Ok (allMigrations, _) => Ok (js_sort byName allMigrations)
    | Throw e => Throw e
    end.

Definition filterPendingMigrations (allMigrations : list Migration)
             (appliedMigrations : list string) : list Migration :=
    let appliedSet := appliedMigrations in
    js_sort byName
      (filter (fun m => negb (set_has appliedSet (mig_name m))) allMigrations).

  (** [initializeDatabase], auto branch: up to the forced version bump. *)
Definition resolveAuto (persisted : option IDBDatabase)
             (removedStoreStrategy : RemovedStoreStrategy)
             (stores : list SchemaStoreDefinition)
             (allMigrations : list Migration)
    : Result Resolution * list Event :=
    match determineAutoVersion persisted stores removedStoreStrategy with
    | (Throw e, log) => (Throw e, log)
    | (Ok autoResult, log) =>
        let version := av_version autoResult in
        let autoChanges := av_changes autoResult in
        let '(appliedMigrations, log1) :=
          if (1 <? av_version autoResult)%N then
            match openDatabaseForSchemaRead persisted with
            | Some existingDb =>
                (getAppliedMigrations existingDb, log ++ [open_for_schema_read])
            | None => ([], log ++ [open_for_schema_read])
            end
          else ([], log) in
        let pendingCheck := filterPendingMigrations allMigrations appliedMigrations in
        let version' :=
          if (0 <? List.length pendingCheck)%nat && negb (av_needsUpgrade autoResult)
          then (av_version autoResult + 1)%N
          else version in
        (Ok {| res_version := version';
               res_autoChanges := autoChanges;
               res_appliedMigrations := appliedMigrations |},
         log1)
    end.

  (** [initializeDatabase], explicit branch. *)
Definition resolveExplicit (persisted : option IDBDatabase)
             (explicitVersion : option N)
             (removedStoreStrategy : RemovedStoreStrategy)
             (stores : list SchemaStoreDefinition)
    : Result Resolution * list Event :=
    match explicitVersion with
    | None =>
        (Throw (Error (String.concat EmptyString
                         ["Version is required when versionStrategy is ";
                          dquote; "explicit"; dquote])), [])
    | Some version =>
        match openDatabaseForSchemaRead persisted with
        | None =>
            (Ok {| res_version := version; res_autoChanges := None;
                   res_appliedMigrations := [] |},
             [open_for_schema_read])
        | Some existingDb =>
            let currentVersion := db_version existingDb in
            let appliedMigrations := getAppliedMigrations existingDb in
            let existingSchema := readExistingSchema existingDb in
            let desiredSchema := toDesiredSchema stores in
            let changes := detectSchemaChanges existingSchema desiredSchema in
            if hasChanges changes then
              let '(safe', remainingDangerous) :=
                processDangerousChanges removedStoreStrategy currentVersion changes in
              if (0 <? List.length remainingDangerous)%nat then
                let errorMessage := dangerousErrorMessage remainingDangerous in
                (Throw (Error errorMessage),
                 [open_for_schema_read;
                  console_error ["[schema-idb]"; errorMessage]])
              else
                let changes' :=
                  {| safe := safe'; dangerous := remainingDangerous;
                     hasChanges := hasChanges changes |} in
                (Ok {| res_version := version;
                       res_autoChanges := Some changes';
                       res_appliedMigrations := appliedMigrations |},
                 [open_for_schema_read] ++
                 (if (version <=? currentVersion)%N
                  then [console_warn (notBumpedWarning safe' currentVersion version)]
                  else []))
            else
              (Ok {| res_version := version; res_autoChanges := None;
                     res_appliedMigrations := appliedMigrations |},
               [open_for_schema_read])
        end
    end.

Definition resolve (persisted : option IDBDatabase)
             (explicitVersion : option N) (versionStrategy : VersionStrategy)
             (removedStoreStrategy : RemovedStoreStrategy)
             (stores : list SchemaStoreDefinition)
             (allMigrations : list Migration)
    : Result Resolution * list Event :=
    match versionStrategy with
    | strategy_auto => resolveAuto persisted removedStoreStrategy stores allMigrations
    | strategy_explicit =>
        resolveExplicit persisted explicitVersion removedStoreStrategy stores
    end.

Definition initializeDatabase (persisted : option IDBDatabase)
             (explicitVersion : option N) (versionStrategy : VersionStrategy)
             (removedStoreStrategy : RemovedStoreStrategy)
             (stores : list SchemaStoreDefinition)
             (allMigrations : list Migration) : Initialization :=
    match resolve persisted explicitVersion versionStrategy removedStoreStrategy
                  stores allMigrations with
    | (Throw error, log) =>
        {| init_persisted := persisted; init_state := Throw error; init_log := log |}
    | (Ok r, log) =>
        let pendingMigrations :=
          filterPendingMigrations allMigrations (res_appliedMigrations r) in
        let '(persisted', idb, events) :=
          openDatabase persisted (res_version r)
            (fun oldVersion =>
               handleUpgrade oldVersion stores pendingMigrations
                 (res_appliedMigrations r) (res_autoChanges r)) in
        {| init_persisted := persisted';
           init_state := idb;
           init_log := log ++ [open_database (res_version r)] ++ events |}
    end.

  (** [openDB]: the synchronous checks, then the initialization. *)
Fixpoint checkStoreNames (stores : list SchemaStoreDefinition)
           (storeNames : list string) : Result unit :=
    match stores with
    | [] => Ok tt
    | store :: rest =>
        if set_has storeNames (store_name store)
        then Throw (Error (String.concat EmptyString
                             ["Duplicate store name: "; dquote;
                              store_name store; dquote]))
        else checkStoreNames rest (storeNames ++ [store_name store])
    end.

Definition openDB (persisted : option IDBDatabase)
             (explicitVersion : option N) (versionStrategy : VersionStrategy)
             (removedStoreStrategy : RemovedStoreStrategy)
             (stores : list SchemaStoreDefinition) : Result Initialization :=
    match checkStoreNames stores [] with
    | Throw e => Throw e
    | Ok _ =>
        match collectMigrations stores with
        | Throw e => Throw e
        | Ok allMigrations =>
            Ok (initializeDatabase persisted explicitVersion versionStrategy
                  removedStoreStrategy stores allMigrations)
        end
    end.
End Registry.

(* ================================================================== *)
(** ** transaction.ts: startTransaction *)
(* ================================================================== *)

Inductive IDBTransactionMode : Type := readonly | readwrite | versionchange.

(** [TransactionOptions]; at run time [mode] may hold any string. *)
Record TransactionOptions : Type := {
  opt_mode : option string;
  opt_durability : option string
}.

Definition defaultOptions : TransactionOptions :=
  {| opt_mode := None; opt_durability := None |}.

(** The [IDBTransaction] that [db.transaction] hands out. *)
Record IDBTransaction : Type := {
  txn_storeNames : list string;
  txn_mode : IDBTransactionMode;
  txn_durability : string
}.

(** The transaction object returned to the caller: one accessor per
    store name, and the raw transaction. *)
Record Transaction : Type := {
  tr_accessors : list string;
  tr_raw : IDBTransaction
}.

(** [db.transaction(storeNames, mode, { durability })] of the engine. *)
Definition db_transaction (db : IDBDatabase) (storeNames : list string)
           (mode : IDBTransactionMode) (durability : string)
  : Result IDBTransaction :=
  match storeNames with
  | [] => Throw (DOMException "InvalidAccessError")
  | _ =>
      if forallb (JsMap.has (db_stores db)) storeNames
      then Ok {| txn_storeNames := storeNames; txn_mode := mode;
                 txn_durability := durability |}
      else Throw (DOMException "NotFoundError")
  end.

(** [const idbMode = mode === 'write' ? 'readwrite' : 'readwrite'] *)
Definition idbMode (mode : option string) : IDBTransactionMode :=
  match mode with
  | Some m => if String.eqb m "write" then readwrite else readwrite
  | None => readwrite
  end.

Definition startTransaction (db : IDBDatabase)
           (storeNamesInput : string + list string)
           (options : option TransactionOptions) : Result Transaction :=
  let options := nullish options defaultOptions in
  let storeNames :=
    match storeNamesInput with
    | inl single => [single]
    | inr names => names
    end in
  let mode := opt_mode options in
  let durability := nullish (opt_durability options) "default" in
  match db_transaction db storeNames (idbMode mode) durability with
  | Throw e => Throw e
  | Ok tx => Ok {| tr_accessors := storeNames; tr_raw := tx |}
  end.

(* ================================================================== *)
(** ** Notions used to state the properties *)
(* ================================================================== *)

(** [c] is an index change (add, delete or modify) on store [storeName]. *)
Definition index_change_on (storeName : string) (c : SchemaChangeType) : bool :=
  match c with
  | index_add s _ _ | index_delete s _ | index_modify s _ _ _ =>
      String.eqb s storeName
  | _ => false
  end.

(** The definition of a desired index differs from the existing one: in
    its keyPath, its unique flag or its multiEntry flag, an omitted flag
    being [false]. *)
Definition index_differs (existingIndex : ExistingIndex)
           (desiredIndex : IndexDefinition) : Prop :=
  keyPathEquals (ei_keyPath existingIndex) (idx_keyPath desiredIndex) = false
  \/ ei_unique existingIndex <> nullish (idx_unique desiredIndex) false
  \/ ei_multiEntry existingIndex <> nullish (idx_multiEntry desiredIndex) false.

(** Two keyPaths are the same value: the same string, the same ordered
    list of fields, or both missing. *)
Definition same_keyPath (a b : KeyPath) : Prop :=
  match a, b with
  | KPString s, KPString u => s = u
  | KPArray x, KPArray y => x = y
  | (KPNull | KPUndefined), (KPNull | KPUndefined) => True
  | _, _ => False
  end.

(** Sample declarations used to exercise the properties. *)
Module Sample.
Definition emailIndex (unique : option bool) : IndexDefinition :=
    {| idx_name := "email"; idx_keyPath := KPString "email";
       idx_unique := unique; idx_multiEntry := None |}.

Definition usersStore (migrations : list Migration) : SchemaStoreDefinition :=
    {| store_name := "users"; store_keyPath := KPString "id";
       store_indexes := [emailIndex (Some true)];
       store_migrations := migrations |}.

Definition postsStore (keyPath : KeyPath) (migrations : list Migration)
    : SchemaStoreDefinition :=
    {| store_name := "posts"; store_keyPath := keyPath;
       store_indexes := []; store_migrations := migrations |}.

  (** A persisted [users] store whose [email] index is not unique. *)
Definition existingUsers : ExistingStoreSchema :=
    {| es_name := "users"; es_keyPath := KPString "id";
       es_indexes :=
         [("email", {| ei_keyPath := KPString "email"; ei_unique := false;
                       ei_multiEntry := false |})] |}.

Definition existingPosts : ExistingStoreSchema :=
    {| es_name := "posts"; es_keyPath := KPString "id"; es_indexes := [] |}.

Definition existingSchema : JsMap.t ExistingStoreSchema :=
    [("users", existingUsers); ("posts", existingPosts)].
End Sample.

(** [piece] occurs in [text]. *)
Definition occurs_in (piece text : string) : Prop :=
  exists before after, text = (before ++ piece ++ after)%string.

Module SampleDb.
Definition plainStore (keyPath : KeyPath) (indexes : JsMap.t IDBIndex)
    : IDBObjectStore :=
    {| os_keyPath := keyPath; os_indexes := indexes; os_records := [] |}.

Definition ledgerStore (applied : list string) : IDBObjectStore :=
    {| os_keyPath := KPString "name"; os_indexes := [];
       os_records := map (fun n => (n, n)) applied |}.

Definition uniqueEmail : JsMap.t IDBIndex :=
    [("email", {| ix_keyPath := KPString "email"; ix_unique := true;
                  ix_multiEntry := false |})].

  (** A database with [users] and [posts], as the sample declarations
      create it, at some version and with some applied migrations. *)
Definition usersAndPosts (version : N) (applied : list string) : IDBDatabase :=
    {| db_version := version;
       db_stores :=
         [(SCHEMA_HISTORY_STORE, ledgerStore applied);
          ("users", plainStore (KPString "id") uniqueEmail);
          ("posts", plainStore (KPString "id") [])] |}.

  (** The same with [users] only. *)
Definition usersOnly (version : N) (applied : list string) : IDBDatabase :=
    {| db_version := version;
       db_stores :=
         [(SCHEMA_HISTORY_STORE, ledgerStore applied);
          ("users", plainStore (KPString "id") uniqueEmail)] |}.
End SampleDb.

Module SampleMigration.
  (** A migration that returns without touching a store. *)
Definition plain (name : string) : Migration :=
    {| mig_name := name; mig_up := fun stores => (stores, up_returns None) |}.

  (** A migration whose body throws. *)
Definition throwing (name : string) : Migration :=
    {| mig_name := name;
       mig_up := fun stores => (stores, up_throws (Error "boom")) |}.

  (** An asynchronous migration with a given fate. *)
Definition async (name : string) (fate : PromiseFate) : Migration :=
    {| mig_name := name;
       mig_up := fun stores => (stores, up_returns (Some fate)) |}.
End SampleMigration.

(** The kinds of change that the not-bumped warning describes by name. *)
Definition described_by_name (c : SchemaChangeType) : bool :=
  match c with
  | store_add _ | store_rename _ _ | index_add _ _ _ | index_delete _ _ => true
  | _ => false
  end.

(** What the removed-store policy makes of one dangerous change under
    [preserve]: the rename it pushes on [safe], and what it keeps as
    dangerous. *)
Definition renamed_by_policy (v : N) (c : SchemaChangeType)
  : list SchemaChangeType :=
  match c with
  | store_delete n => [store_rename n (backupStoreName n v)]
  | _ => []
  end.

Definition kept_by_policy (c : SchemaChangeType) : list SchemaChangeType :=
  match c with
  | store_delete _ => []
  | _ => [c]
  end.


(** The order on names that a comparator induces. *)
Definition name_le (compareFn : string -> string -> Z) (a b : string) : Prop :=
  (compareFn a b <= 0)%Z.

(** The names of all migrations declared by the stores, in declaration
    order. *)
Definition declared_names (stores : list SchemaStoreDefinition) : list string :=
  map mig_name (flat_map store_migrations stores).

Definition is_migration_event (e : Event) : bool :=
  match e with
  | migration_up _ | ledger_put _ => true
  | _ => false
  end.

(** The calls of migration bodies and the ledger writes, in the order in
    which they happened. *)
Definition migration_events (log : list Event) : list Event :=
  filter is_migration_event log.

(** What a complete run over [names] leaves: each body called, then its
    name written to the ledger, one migration after the other. *)
Definition complete_run (names : list string) : list Event :=
  flat_map (fun n => [migration_up n; ledger_put n]) names.

(** What any run over [names] leaves: complete rounds in order, after
    which it stopped either before calling the next body or with the next
    body called and nothing written. *)
Inductive run_trace : list string -> list Event -> Prop :=
| run_stopped : forall names, run_trace names []
| run_failed : forall n names, run_trace (n :: names) [migration_up n]
| run_round : forall n names events,
    run_trace names events ->
    run_trace (n :: names) (migration_up n :: ledger_put n :: events).

(** Some pending migration that the loop of [handleUpgrade] reaches, from
    state [u] on, fails while the upgrade transaction is there to be
    aborted: its body throws, or the promise it returns rejects within
    the transaction. *)
Inductive MigrationFails : list Migration -> list string -> Upgrade -> Prop :=
| fails_throwing : forall m rest applied u stores' err,
    mig_up m (up_stores u) = (stores', up_throws err) ->
    MigrationFails (m :: rest) applied u
| fails_rejecting : forall m rest applied u stores' err,
    mig_up m (up_stores u)
      = (stores', up_returns (Some (rejects_in_transaction err))) ->
    MigrationFails (m :: rest) applied u
| fails_later : forall m rest applied u u',
    runMigration m applied u = (Ok tt, u') ->
    MigrationFails rest
      (js_sort codeUnitCompare (applied ++ [mig_name m])) u' ->
    MigrationFails (m :: rest) applied u.

(** The engine grants an upgrade: the database is new or the requested
    version is above the persisted one. *)
Definition upgrade_granted (persisted : option IDBDatabase) (version : N) : Prop :=
  version <> 0%N
  /\ match persisted with
     | None => True
     | Some db => (db_version db < version)%N
     end.

Definition old_version (persisted : option IDBDatabase) : N :=
  match persisted with Some db => db_version db | None => 0%N end.

(** The applied names that can be read back from what is persisted. *)
Definition ledger (persisted : option IDBDatabase) : list string :=
  match persisted with Some db => getAppliedMigrations db | None => [] end.

(** A computation neither logs nor registers a promise handler. *)
Definition quiet (A : Type) (c : M A) : Prop :=
  forall u, up_log (snd (c u)) = up_log u
            /\ up_promises (snd (c u)) = up_promises u.

Module SampleRegistry.
  (** Two stores that declare their migrations out of name order. *)
Definition stores : list SchemaStoreDefinition :=
    [Sample.usersStore [SampleMigration.plain "b-x"];
     Sample.postsStore (KPString "id") [SampleMigration.plain "a-y"]].

Definition registry : list Migration :=
    [SampleMigration.plain "a-y"; SampleMigration.plain "b-x"].
End SampleRegistry.

(** The scenarios of the test suite of [openDB] with
    [removedStoreStrategy], replayed on the model. *)
Module Scenario.
Definition users : SchemaStoreDefinition :=
  {| store_name := "users"; store_keyPath := KPString "id";
     store_indexes := []; store_migrations := [] |}.

Definition posts : SchemaStoreDefinition :=
  {| store_name := "posts"; store_keyPath := KPString "id";
     store_indexes := []; store_migrations := [] |}.

(** A [put] through the store accessor, between two opens. *)
Definition put (persisted : option IDBDatabase) (storeName key payload : string)
  : option IDBDatabase :=
  match persisted with
  | None => None
  | Some db =>
      match JsMap.get (db_stores db) storeName with
      | None => Some db
      | Some store =>
          Some {| db_version := db_version db;
                  db_stores :=
                    JsMap.set (db_stores db) storeName
                      {| os_keyPath := os_keyPath store;
                         os_indexes := os_indexes store;
                         os_records := JsMap.set (os_records store) key payload |} |}
      end
  end.

Definition open_auto (persisted : option IDBDatabase)
           (strategy : RemovedStoreStrategy)
           (stores : list SchemaStoreDefinition) : Initialization :=
  initializeDatabase codeUnitCompare persisted None strategy_auto strategy
                     stores [].

Definition open_explicit (persisted : option IDBDatabase) (version : N)
           (strategy : RemovedStoreStrategy)
           (stores : list SchemaStoreDefinition) : Initialization :=
  initializeDatabase codeUnitCompare persisted (Some version) strategy_explicit
                     strategy stores [].

Definition store_names (i : Initialization) : list string :=
  match init_persisted i with
  | Some db => objectStoreNames db
  | None => []
  end.

Definition records_of (i : Initialization) (storeName : string)
  : option (JsMap.t string) :=
  match init_persisted i with
  | Some db => option_map (@os_records) (JsMap.get (db_stores db) storeName)
  | None => None
  end.

Definition version_of (i : Initialization) : option N :=
  option_map db_version (init_persisted i).

(** Versions 1 to 4 of the collision test: create, delete [posts],
    recreate it, delete it again. *)
Definition db1 : Initialization := open_auto None strategy_error [users; posts].
Definition db2 : Initialization :=
  open_auto (put (init_persisted db1) "posts" "p1" "Post v1")
            strategy_preserve [users].
Definition db3 : Initialization :=
  open_auto (init_persisted db2) strategy_error [users; posts].
Definition db4 : Initialization :=
  open_auto (put (init_persisted db3) "posts" "p2" "Post v3")
            strategy_preserve [users].
End Scenario.

(** A database and a declaration that differ in every way the diff knows:
    [users] has an index to modify, one to add and one to drop, [posts] is
    to be created, and [legacy] is no longer declared. *)
Module SampleEvolution.
Definition db : IDBDatabase :=
  {| db_version := 3;
     db_stores :=
       [("users",
         {| os_keyPath := KPString "id";
            os_indexes :=
              [("email", {| ix_keyPath := KPString "email"; ix_unique := false;
                            ix_multiEntry := false |});
               ("nick", {| ix_keyPath := KPString "nick"; ix_unique := false;
                           ix_multiEntry := false |})];
            os_records := [("u1", "Kim"); ("u2", "Lee")] |});
        ("legacy",
         {| os_keyPath := KPString "id"; os_indexes := [];
            os_records := [("l1", "old")] |})] |}.

Definition stores : list SchemaStoreDefinition :=
  [{| store_name := "users"; store_keyPath := KPString "id";
      store_indexes :=
        [{| idx_name := "email"; idx_keyPath := KPString "email";
            idx_unique := Some true; idx_multiEntry := None |};
         {| idx_name := "age"; idx_keyPath := KPString "age";
            idx_unique := None; idx_multiEntry := None |}];
      store_migrations := [] |};
   {| store_name := "posts"; store_keyPath := KPString "id";
      store_indexes :=
        [{| idx_name := "author"; idx_keyPath := KPString "author";
            idx_unique := None; idx_multiEntry := None |}];
      store_migrations := [] |}].

(** The same declaration written the other way round: the stores and the
    indexes of [users] in the opposite order, and the defaults spelt out. *)
Definition reorderedStores : list SchemaStoreDefinition :=
  [{| store_name := "posts"; store_keyPath := KPString "id";
      store_indexes :=
        [{| idx_name := "author"; idx_keyPath := KPString "author";
            idx_unique := Some false; idx_multiEntry := Some false |}];
      store_migrations := [] |};
   {| store_name := "users"; store_keyPath := KPString "id";
      store_indexes :=
        [{| idx_name := "age"; idx_keyPath := KPString "age";
            idx_unique := Some false; idx_multiEntry := None |};
         {| idx_name := "email"; idx_keyPath := KPString "email";
            idx_unique := Some true; idx_multiEntry := Some false |}];
      store_migrations := [] |}].
End SampleEvolution.

(* ================================================================== *)
(** ** schemaDetection.ts: the schema fingerprint *)
(* ================================================================== *)

(** [ToInt32]: what a bitwise operator makes of a number. *)
Definition toInt32 (z : Z) : Z := ((z + 2 ^ 31) mod 2 ^ 32 - 2 ^ 31)%Z.

(** [fingerprint.charCodeAt(i)] for every [i] below the length. *)
Definition charCodes (s : string) : list Z :=
  map (fun c => Z.of_N (N_of_ascii c)) (list_ascii_of_string s).

(** The body of the loop of [hashFingerprint]:
    [hash = ((hash << 5) - hash) + char; hash = hash & hash]. *)
Definition hashStep (hash char : Z) : Z :=
  let hash1 := (toInt32 (toInt32 hash * 2 ^ 5) - hash + char)%Z in
  Z.land (toInt32 hash1) (toInt32 hash1).

Definition hashFingerprint (fingerprint : string) : Z :=
  Z.abs (fold_left hashStep (charCodes fingerprint) 0%Z).

(** An index as [generateSchemaFingerprint] normalises it. *)
Record NormalizedIndex : Type := {
  ni_name : string;
  ni_keyPath : KeyPath;
  ni_unique : bool;
  ni_multiEntry : bool
}.

(** A store as [generateSchemaFingerprint] normalises it. *)
Record NormalizedStore : Type := {
  ns_name : string;
  ns_keyPath : KeyPath;
  ns_indexes : list NormalizedIndex
}.

Section Fingerprint.
(** [String.prototype.localeCompare] and [JSON.stringify], of the host. *)
Variable localeCompare : string -> string -> Z.
Variable JSON_stringify : list NormalizedStore -> string.

Definition normalizeIndex (i : IndexDefinition) : NormalizedIndex :=
  {| ni_name := idx_name i;
     ni_keyPath := idx_keyPath i;
     ni_unique := nullish (idx_unique i) false;
     ni_multiEntry := nullish (idx_multiEntry i) false |}.

Definition normalizeStore (store : SchemaStoreDefinition) : NormalizedStore :=
  {| ns_name := store_name store;
     ns_keyPath := store_keyPath store;
     ns_indexes :=
       js_sort (fun a b => localeCompare (ni_name a) (ni_name b))
               (map normalizeIndex (store_indexes store)) |}.

Definition normalizeSchema (stores : list SchemaStoreDefinition)
  : list NormalizedStore :=
  js_sort (fun a b => localeCompare (ns_name a) (ns_name b))
          (map normalizeStore stores).

Definition generateSchemaFingerprint (stores : list SchemaStoreDefinition)
  : string :=
  JSON_stringify (normalizeSchema stores).
End Fingerprint.

(* ================================================================== *)
(** ** More notions used to state properties *)
(* ================================================================== *)

(** An existing index is what a desired index declares. *)
Definition index_agrees (existingIndex : ExistingIndex)
           (desiredIndex : IndexDefinition) : Prop :=
  same_keyPath (ei_keyPath existingIndex) (idx_keyPath desiredIndex)
  /\ ei_unique existingIndex = nullish (idx_unique desiredIndex) false
  /\ ei_multiEntry existingIndex = nullish (idx_multiEntry desiredIndex) false.

(** An existing store is what a desired store declares: the same keyPath,
    every declared index there as declared, and no index besides. *)
Definition store_agrees (existingStore : ExistingStoreSchema)
           (desiredStore : DesiredStoreSchema) : Prop :=
  same_keyPath (es_keyPath existingStore) (ds_keyPath desiredStore)
  /\ (forall desiredIndex,
         In desiredIndex (ds_indexes desiredStore) ->
         exists existingIndex,
           JsMap.get (es_indexes existingStore) (idx_name desiredIndex)
             = Some existingIndex
           /\ index_agrees existingIndex desiredIndex)
  /\ (forall indexName,
         In indexName (JsMap.keys (es_indexes existingStore)) ->
         In indexName (map idx_name (ds_indexes desiredStore))).

(** The existing schema is the desired one. *)
Definition schemas_agree (existing : JsMap.t ExistingStoreSchema)
           (desired : JsMap.t DesiredStoreSchema) : Prop :=
  (forall storeName desiredStore,
      In (storeName, desiredStore) desired ->
      exists existingStore,
        JsMap.get existing storeName = Some existingStore
        /\ store_agrees existingStore desiredStore)
  /\ (forall storeName,
         In storeName (JsMap.keys existing) ->
         JsMap.has desired storeName = true).

(** The kinds of change that [detectSchemaChanges] puts on [safe]. *)
Definition detected_safe_kind (c : SchemaChangeType) : bool :=
  match c with
  | store_add _ | index_add _ _ _ | index_delete _ _ => true
  | _ => false
  end.

(** The kinds of change that [detectSchemaChanges] puts on [dangerous]. *)
Definition detected_dangerous_kind (c : SchemaChangeType) : bool :=
  match c with
  | store_delete _ | keypath_change _ _ _ => true
  | _ => false
  end.

Definition is_store_delete (c : SchemaChangeType) : bool :=
  match c with store_delete _ => true | _ => false end.

(** What [readExistingSchema] records of an index. *)
Definition existingIndexOf (index : IDBIndex) : ExistingIndex :=
  {| ei_keyPath := ix_keyPath index;
     ei_unique := ix_unique index;
     ei_multiEntry := ix_multiEntry index |}.

(** What [readExistingSchema] records of a store: the inner loop over
    [store.indexNames]. *)
Definition existingStoreOf (storeName : string) (store : IDBObjectStore)
  : ExistingStoreSchema :=
  {| es_name := storeName;
     es_keyPath := os_keyPath store;
     es_indexes :=
       fold_left
         (fun indexes indexName =>
            match JsMap.get (os_indexes store) indexName with
            | None => indexes
            | Some index =>
                JsMap.set indexes indexName
                  {| ei_keyPath := ix_keyPath index;
                     ei_unique := ix_unique index;
                     ei_multiEntry := ix_multiEntry index |}
            end)
         (indexNames store) JsMap.empty |}.

(** The index that [createIndex] makes of a declared index, with the
    defaults [unique ?? false] and [multiEntry ?? false]. *)
Definition createdIndex (index : IndexDefinition) : IDBIndex :=
  {| ix_keyPath := idx_keyPath index;
     ix_unique := nullish (idx_unique index) false;
     ix_multiEntry := nullish (idx_multiEntry index) false |}.

Definition desiredStoreOf (store : SchemaStoreDefinition) : DesiredStoreSchema :=
  {| ds_name := store_name store;
     ds_keyPath := store_keyPath store;
     ds_indexes := store_indexes store |}.

(** The body of the second loop of [applySafeChanges]. *)
Definition applyChange (stores : list SchemaStoreDefinition)
           (change : SchemaChangeType) : M unit :=
  match change with
  | store_add storeName =>
      match find (fun s => String.eqb (store_name s) storeName) stores with
      | Some storeDefinition => createStoreFromDefinition storeDefinition
      | None => ret tt
      end
  | index_add storeName indexName index =>
      store_createIndex storeName indexName (idx_keyPath index)
        (nullish (idx_unique index) false)
        (nullish (idx_multiEntry index) false)
  | index_delete storeName indexName =>
      store_deleteIndex storeName indexName
  | _ => ret tt
  end.

(** The database that an upgrade transaction leaves when it completes. *)
Definition committed (version : N) (u : Upgrade) : IDBDatabase :=
  {| db_version := version; db_stores := up_stores u |}.

(** Two declarations of one store that differ at most in the order of
    the indexes, in whether [unique] and [multiEntry] are left out or
    [false], and in the migrations. *)
Definition same_declaration (a b : SchemaStoreDefinition) : Prop :=
  store_name a = store_name b
  /\ store_keyPath a = store_keyPath b
  /\ Permutation (map normalizeIndex (store_indexes a))
                 (map normalizeIndex (store_indexes b)).

(** The same declarations, store by store, in some order. *)
Definition reordered (stores stores' : list SchemaStoreDefinition) : Prop :=
  exists middle,
    Forall2 same_declaration stores middle /\ Permutation middle stores'.

(** The store that [createObjectStore] and [createIndex] make of a
    declaration. *)
Definition createdStore (store : SchemaStoreDefinition) : IDBObjectStore :=
  {| os_keyPath := store_keyPath store;
     os_indexes := map (fun index => (idx_name index, createdIndex index))
                       (store_indexes store);
     os_records := JsMap.empty |}.

(* ================================================================== *)
(** ** Facts on lists, maps and loops that push *)
(* ================================================================== *)

Lemma fold_left_push (A B : Type) (g : A -> list B) (l : list A) (init : list B) :
  fold_left (fun acc x => acc ++ g x) l init = init ++ flat_map g l.
Proof.
  revert init; induction l as [|x l IH]; intros init; simpl.
  - now rewrite app_nil_r.
  - rewrite IH. now rewrite app_assoc.
Qed.

Lemma fold_left_push_if (A B : Type) (p : A -> bool) (g : A -> B)
      (l : list A) (init : list B) :
  fold_left (fun acc x => if p x then acc ++ [g x] else acc) l init
  = init ++ map g (filter p l).
Proof.
  revert init; induction l as [|x l IH]; intros init; simpl.
  - now rewrite app_nil_r.
  - rewrite IH. destruct (p x); simpl; [now rewrite <- app_assoc | reflexivity].
Qed.

Lemma fold_left_push_pair (A B C : Type) (f : A -> list B * list C)
      (l : list A) (s0 : list B) (d0 : list C) :
  fold_left (fun acc x =>
               let '(s1, d1) := acc in
               let '(s, d) := f x in (s1 ++ s, d1 ++ d)) l (s0, d0)
  = (s0 ++ flat_map (fun x => fst (f x)) l,
     d0 ++ flat_map (fun x => snd (f x)) l).
Proof.
  revert s0 d0; induction l as [|x l IH]; intros s0 d0; simpl.
  - now rewrite !app_nil_r.
  - destruct (f x) as [s d] eqn:E; simpl. rewrite IH.
    now rewrite !app_assoc.
Qed.

Lemma JsMap_get_In (V : Type) (m : JsMap.t V) k v :
  JsMap.get m k = Some v -> In (k, v) m.
Proof.
  induction m as [|[k' v'] m IH]; simpl; [discriminate|].
  destruct (String.eqb k' k) eqn:E.
  - apply String.eqb_eq in E. intros [= ->]. left. now subst.
  - intros H. right. auto.
Qed.

Lemma JsMap_In_get (V : Type) (m : JsMap.t V) k v :
  JsMap.wf m -> In (k, v) m -> JsMap.get m k = Some v.
Proof.
  unfold JsMap.wf, JsMap.keys.
  induction m as [|[k' v'] m IH]; simpl; [tauto|].
  intros Hnd [H|H].
  - injection H as -> ->. now rewrite String.eqb_refl.
  - inversion Hnd as [|? ? Hnotin Hnd']; subst.
    destruct (String.eqb k' k) eqn:E.
    + apply String.eqb_eq in E; subst. exfalso. apply Hnotin.
      change k with (fst (k, v)). now apply in_map.
    + auto.
Qed.

Lemma JsMap_keys_set (V : Type) (m : JsMap.t V) k v :
  JsMap.keys (JsMap.set m k v)
  = if JsMap.has m k then JsMap.keys m else JsMap.keys m ++ [k].
Proof.
  unfold JsMap.has, JsMap.keys.
  induction m as [|[k' v'] m IH]; simpl; [reflexivity|].
  destruct (String.eqb k' k) eqn:E; simpl; [reflexivity|].
  rewrite IH. now destruct (JsMap.get m k).
Qed.

Lemma JsMap_has_keys (V : Type) (m : JsMap.t V) k :
  JsMap.has m k = true <-> In k (JsMap.keys m).
Proof.
  unfold JsMap.has, JsMap.keys.
  induction m as [|[k' v'] m IH]; simpl; [split; [discriminate|tauto]|].
  destruct (String.eqb k' k) eqn:E.
  - apply String.eqb_eq in E. split; auto.
  - apply String.eqb_neq in E. rewrite IH. split; [auto|]. intros [H|H]; [contradiction|auto].
Qed.

Lemma JsMap_wf_set (V : Type) (m : JsMap.t V) k v :
  JsMap.wf m -> JsMap.wf (JsMap.set m k v).
Proof.
  unfold JsMap.wf. intros Hm. rewrite JsMap_keys_set.
  destruct (JsMap.has m k) eqn:E; [assumption|].
  apply NoDup_app_remove_l with (l := []). simpl.
  apply Permutation_NoDup with (l := k :: JsMap.keys m).
  - apply Permutation_cons_append.
  - constructor; [|assumption]. intros Hin.
    apply JsMap_has_keys in Hin. congruence.
Qed.

(** [toDesiredSchema] builds a proper map whatever the declarations. *)
Lemma toDesiredSchema_wf (stores : list SchemaStoreDefinition) :
  JsMap.wf (toDesiredSchema stores).
Proof.
  unfold toDesiredSchema.
  assert (G : forall (m : JsMap.t DesiredStoreSchema), JsMap.wf m ->
    JsMap.wf (fold_left
      (fun schemas store =>
         JsMap.set schemas (store_name store)
           {| ds_name := store_name store;
              ds_keyPath := store_keyPath store;
              ds_indexes := store_indexes store |}) stores m)).
  { induction stores as [|s stores IH]; intros m Hm; simpl; [assumption|].
    apply IH. now apply JsMap_wf_set. }
  apply G. constructor.
Qed.

(* ================================================================== *)
(** ** The schema differ *)
(* ================================================================== *)

Lemma detect_safe existing desired :
  safe (detectSchemaChanges existing desired)
  = flat_map (fun entry => fst (storeChanges existing entry)) desired.
Proof.
  unfold detectSchemaChanges. rewrite fold_left_push_pair. reflexivity.
Qed.

Lemma detect_dangerous existing desired :
  dangerous (detectSchemaChanges existing desired)
  = flat_map (fun entry => snd (storeChanges existing entry)) desired
    ++ map store_delete
         (filter (fun storeName => negb (JsMap.has desired storeName))
                 (JsMap.keys existing)).
Proof.
  unfold detectSchemaChanges. rewrite fold_left_push_pair. simpl.
  apply (fold_left_push_if (fun storeName => negb (JsMap.has desired storeName))
           store_delete).
Qed.

(** On [dangerous] there are keyPath changes and store deletions only. *)
Lemma detect_dangerous_kind existing desired c :
  In c (dangerous (detectSchemaChanges existing desired)) ->
  (exists s o n, c = keypath_change s o n) \/ (exists s, c = store_delete s).
Proof.
  rewrite detect_dangerous, in_app_iff, in_flat_map, in_map_iff.
  intros [[[k d] [_ Hc]]|[s [<- _]]]; [|right; eauto].
  unfold storeChanges in Hc.
  destruct (JsMap.get existing k) as [es|]; simpl in Hc; [|tauto].
  destruct (keyPathEquals (es_keyPath es) (ds_keyPath d)); simpl in Hc; [tauto|].
  destruct Hc as [<-|[]]. left; eauto.
Qed.

(** Every index change that the entry of store [k] pushes is on [k]. *)
Lemma storeChanges_index_store existing k d c storeName :
  In c (fst (storeChanges existing (k, d))) ->
  index_change_on storeName c = true -> k = storeName.
Proof.
  unfold storeChanges.
  destruct (JsMap.get existing k) as [es|]; simpl.
  2:{ intros [<-|[]]; discriminate. }
  destruct (keyPathEquals (es_keyPath es) (ds_keyPath d)); simpl; [|tauto].
  rewrite fold_left_push. simpl. rewrite in_app_iff, in_flat_map.
  unfold deletedIndexChanges.
  rewrite (fold_left_push_if
             (fun n => negb (set_has (map idx_name (ds_indexes d)) n))
             (index_delete k)).
  simpl. rewrite in_map_iff.
  intros [[di [_ Hc]]|[n [<- _]]]; simpl.
  - unfold indexChanges in Hc.
    destruct (JsMap.get (es_indexes es) (idx_name di)) as [ei|]; simpl in Hc.
    + destruct (_ || _); simpl in Hc; [|tauto].
      destruct Hc as [<-|[<-|[]]]; simpl; apply String.eqb_eq.
    + destruct Hc as [<-|[]]; simpl; apply String.eqb_eq.
  - apply String.eqb_eq.
Qed.

(** C7. In the diff of two schemas, for a store present in both with
    equal keyPath and an index name present in both whose keyPath, unique
    flag or multiEntry flag differs, the safe list holds an index_delete
    immediately followed by the index_add of that same index, delete
    first; neither of the two is classified as dangerous. *)
Theorem diff_modified_index_is_delete_then_add :
  forall existing desired storeName desiredStore existingStore
         desiredIndex existingIndex,
    JsMap.get desired storeName = Some desiredStore ->
    JsMap.get existing storeName = Some existingStore ->
    keyPathEquals (es_keyPath existingStore) (ds_keyPath desiredStore) = true ->
    In desiredIndex (ds_indexes desiredStore) ->
    JsMap.get (es_indexes existingStore) (idx_name desiredIndex)
      = Some existingIndex ->
    index_differs existingIndex desiredIndex ->
    let changes := detectSchemaChanges existing desired in
    (exists before after,
        safe changes
        = before
            ++ [index_delete storeName (idx_name desiredIndex);
                index_add storeName (idx_name desiredIndex) desiredIndex]
            ++ after)
    /\ ~ In (index_delete storeName (idx_name desiredIndex)) (dangerous changes)
    /\ ~ In (index_add storeName (idx_name desiredIndex) desiredIndex)
            (dangerous changes).
Proof.
  intros existing desired storeName ds es di ei Hd He Hkp Hin Hei Hdiff changes.
  split; [|split].
  - subst changes. rewrite detect_safe.
    apply JsMap_get_In in Hd. apply in_split in Hd as (d1 & d2 & ->).
    rewrite flat_map_app. simpl.
    unfold storeChanges at 2. rewrite He, Hkp. simpl.
    rewrite fold_left_push.
    apply in_split in Hin as (i1 & i2 & ->).
    rewrite flat_map_app. simpl.
    unfold indexChanges at 2. rewrite Hei.
    assert (Hc : negb (keyPathEquals (ei_keyPath ei) (idx_keyPath di))
                 || negb (Bool.eqb (ei_unique ei) (nullish (idx_unique di) false))
                 || negb (Bool.eqb (ei_multiEntry ei)
                                   (nullish (idx_multiEntry di) false)) = true).
    { destruct Hdiff as [H|[H|H]].
      - rewrite H. reflexivity.
      - apply Bool.eqb_false_iff in H. rewrite H. now rewrite orb_true_r.
      - apply Bool.eqb_false_iff in H. rewrite H. now rewrite !orb_true_r. }
    rewrite Hc. simpl.
    exists (flat_map (fun entry => fst (storeChanges existing entry)) d1
              ++ flat_map (indexChanges storeName es) i1),
           (flat_map (indexChanges storeName es) i2
              ++ deletedIndexChanges storeName es ds
              ++ flat_map (fun entry => fst (storeChanges existing entry)) d2).
    repeat rewrite <- app_assoc. simpl. reflexivity.
  - intros H. apply detect_dangerous_kind in H as [(s & o & n & H)|(s & H)];
      discriminate.
  - intros H. apply detect_dangerous_kind in H as [(s & o & n & H)|(s & H)];
      discriminate.
Qed.

Lemma diff_modified_index_is_delete_then_add_witness :
  let changes :=
    detectSchemaChanges Sample.existingSchema
      (toDesiredSchema [Sample.usersStore []; Sample.postsStore (KPString "id") []]) in
  (exists before after,
      safe changes
      = before
          ++ [index_delete "users" "email";
              index_add "users" "email" (Sample.emailIndex (Some true))]
          ++ after)
  /\ ~ In (index_delete "users" "email") (dangerous changes)
  /\ ~ In (index_add "users" "email" (Sample.emailIndex (Some true)))
          (dangerous changes).
Proof.
  apply (@diff_modified_index_is_delete_then_add
           Sample.existingSchema
           (toDesiredSchema [Sample.usersStore []; Sample.postsStore (KPString "id") []])
           "users"
           {| ds_name := "users"; ds_keyPath := KPString "id";
              ds_indexes := [Sample.emailIndex (Some true)] |}
           Sample.existingUsers
           (Sample.emailIndex (Some true))
           {| ei_keyPath := KPString "email"; ei_unique := false;
              ei_multiEntry := false |}).
  - reflexivity.
  - reflexivity.
  - reflexivity.
  - simpl. left. reflexivity.
  - reflexivity.
  - right. left. simpl. discriminate.
Defined.

(** [keyPathEquals] is the deep comparison of two keyPaths. *)
Lemma nth_error_skipn (A : Type) (l : list A) i x :
  nth_error l i = Some x -> skipn i l = x :: skipn (S i) l.
Proof.
  revert l; induction i as [|i IH]; intros [|y l]; simpl; try discriminate.
  - now intros [= ->].
  - intros H. now apply IH.
Qed.

Lemma every_same_at_true x y i :
  every_same_at x y i = true ->
  List.length x = List.length (skipn i y) -> x = skipn i y.
Proof.
  revert i; induction x as [|v x IH]; intros i; simpl.
  - intros _ H. symmetry in H. now apply length_zero_iff_nil in H.
  - destruct (nth_error y i) as [w|] eqn:E; [|discriminate].
    rewrite andb_true_iff. intros [Hv Hx] Hlen.
    apply String.eqb_eq in Hv; subst w.
    rewrite (nth_error_skipn _ _ E) in Hlen |- *.
    cbn [List.length] in Hlen. injection Hlen as Hlen.
    f_equal. apply IH; assumption.
Qed.

Lemma every_same_at_refl pre x :
  every_same_at x (pre ++ x) (List.length pre) = true.
Proof.
  revert pre; induction x as [|v x IH]; intros pre; simpl; [reflexivity|].
  rewrite nth_error_app2, Nat.sub_diag by lia. simpl.
  rewrite String.eqb_refl. simpl.
  replace (pre ++ v :: x) with ((pre ++ [v]) ++ x) by now rewrite <- app_assoc.
  replace (S (List.length pre)) with (List.length (pre ++ [v]))
    by (rewrite length_app; simpl; lia).
  apply IH.
Qed.

Lemma keyPathEquals_spec a b :
  keyPathEquals a b = true <-> same_keyPath a b.
Proof.
  destruct a as [| |s|x], b as [| |u|y]; simpl;
    try (split; [discriminate|tauto]); try tauto.
  - apply String.eqb_eq.
  - split.
    + destruct (Nat.eqb (List.length x) (List.length y)) eqn:E; simpl;
        [|discriminate].
      apply Nat.eqb_eq in E. intros H.
      apply (every_same_at_true _ _ _ H). simpl. assumption.
    + intros ->. rewrite Nat.eqb_refl. simpl.
      apply (every_same_at_refl [] y).
Qed.

(** C8. In the diff of two schemas, a store present in both whose keyPath
    differs under deep comparison yields a dangerous keypath_change that
    records the old and the new keyPath, and no index change at all is
    emitted for that store. *)
Theorem diff_keypath_change_skips_indexes :
  forall existing desired storeName desiredStore existingStore,
    JsMap.wf desired ->
    JsMap.get desired storeName = Some desiredStore ->
    JsMap.get existing storeName = Some existingStore ->
    ~ same_keyPath (es_keyPath existingStore) (ds_keyPath desiredStore) ->
    let changes := detectSchemaChanges existing desired in
    In (keypath_change storeName (es_keyPath existingStore)
                       (ds_keyPath desiredStore))
       (dangerous changes)
    /\ forall c, In c (safe changes ++ dangerous changes) ->
                 index_change_on storeName c = false.
Proof.
  intros existing desired storeName ds es Hwf Hd He Hkp changes.
  assert (Hneq : keyPathEquals (es_keyPath es) (ds_keyPath ds) = false).
  { destruct (keyPathEquals (es_keyPath es) (ds_keyPath ds)) eqn:E; [|reflexivity].
    apply keyPathEquals_spec in E. contradiction. }
  assert (Hself : storeChanges existing (storeName, ds)
                  = ([], [keypath_change storeName (es_keyPath es) (ds_keyPath ds)])).
  { unfold storeChanges. now rewrite He, Hneq. }
  subst changes. split.
  - rewrite detect_dangerous, in_app_iff. left.
    apply in_flat_map. exists (storeName, ds). split.
    + now apply JsMap_get_In.
    + rewrite Hself. now left.
  - intros c Hc. apply in_app_iff in Hc as [Hc|Hc].
    + rewrite detect_safe in Hc. apply in_flat_map in Hc as ([k d] & Hin & Hc).
      destruct (index_change_on storeName c) eqn:E; [|reflexivity].
      pose proof (storeChanges_index_store _ _ _ _ _ Hc E) as ->.
      apply JsMap_In_get in Hin; [|assumption].
      rewrite Hd in Hin. injection Hin as <-.
      rewrite Hself in Hc. destruct Hc.
    + apply detect_dangerous_kind in Hc as [(s & o & n & ->)|(s & ->)];
        reflexivity.
Qed.

Lemma diff_keypath_change_skips_indexes_witness :
  let changes :=
    detectSchemaChanges Sample.existingSchema
      (toDesiredSchema
         [Sample.usersStore []; Sample.postsStore (KPArray ["id"; "rev"]) []]) in
  In (keypath_change "posts" (KPString "id") (KPArray ["id"; "rev"]))
     (dangerous changes)
  /\ forall c, In c (safe changes ++ dangerous changes) ->
               index_change_on "posts" c = false.
Proof.
  apply (@diff_keypath_change_skips_indexes
           Sample.existingSchema
           (toDesiredSchema
              [Sample.usersStore []; Sample.postsStore (KPArray ["id"; "rev"]) []])
           "posts"
           {| ds_name := "posts"; ds_keyPath := KPArray ["id"; "rev"];
              ds_indexes := [] |}
           Sample.existingPosts).
  - unfold JsMap.wf. simpl. constructor.
    + simpl. intros [H|[]]. discriminate.
    + constructor; [simpl; tauto|constructor].
  - reflexivity.
  - reflexivity.
  - simpl. tauto.
Defined.

(* ================================================================== *)
(** ** Transactions *)
(* ================================================================== *)

Lemma idbMode_readwrite (mode : option string) : idbMode mode = readwrite.
Proof.
  unfold idbMode. destruct mode as [m|]; [|reflexivity].
  destruct (String.eqb m "write"); reflexivity.
Qed.

(** C10. Whatever store names and options are supplied (mode omitted,
    mode 'write', or any other value), the mode handed to the engine is
    'readwrite', and every transaction that startTransaction creates is a
    'readwrite' transaction: none is read-only. *)
Theorem startTransaction_always_readwrite :
  forall db storeNamesInput options,
    idbMode (opt_mode (nullish options defaultOptions)) = readwrite
    /\ forall tx,
        startTransaction db storeNamesInput options = Ok tx ->
        txn_mode (tr_raw tx) = readwrite /\ txn_mode (tr_raw tx) <> readonly.
Proof.
  intros db input options. split; [apply idbMode_readwrite|].
  intros tx. unfold startTransaction, db_transaction.
  rewrite idbMode_readwrite.
  destruct (match input with inl single => [single] | inr names => names end)
    as [|n names]; [discriminate|].
  destruct (forallb _ _); [|discriminate].
  intros [= <-]. simpl. split; [reflexivity|discriminate].
Qed.

Lemma startTransaction_always_readwrite_witness :
  exists tx,
    startTransaction
      {| db_version := 1;
         db_stores := [("accounts", {| os_keyPath := KPString "id";
                                       os_indexes := []; os_records := [] |})] |}
      (inr ["accounts"])
      (Some {| opt_mode := Some "readonly"; opt_durability := None |}) = Ok tx
    /\ txn_mode (tr_raw tx) = readwrite /\ txn_mode (tr_raw tx) <> readonly.
Proof.
  eexists. split; [reflexivity|].
  apply (startTransaction_always_readwrite
           {| db_version := 1;
              db_stores := [("accounts", {| os_keyPath := KPString "id";
                                            os_indexes := []; os_records := [] |})] |}
           (inr ["accounts"])
           (Some {| opt_mode := Some "readonly"; opt_durability := None |})).
  reflexivity.
Defined.

(* ================================================================== *)
(** ** Strings *)
(* ================================================================== *)

Lemma str_app_assoc (a b c : string) :
  ((a ++ b) ++ c = a ++ (b ++ c))%string.
Proof. induction a as [|x a IH]; simpl; [reflexivity|now rewrite IH]. Qed.

Lemma str_app_nil_r (a : string) : (a ++ EmptyString)%string = a.
Proof. induction a as [|x a IH]; simpl; [reflexivity|now rewrite IH]. Qed.

Lemma str_length_app (a b : string) :
  String.length (a ++ b) = String.length a + String.length b.
Proof. induction a as [|x a IH]; simpl; [reflexivity|now rewrite IH]. Qed.

Lemma str_app_inv_head (a b c : string) :
  (a ++ b = a ++ c)%string -> b = c.
Proof. induction a as [|x a IH]; simpl; [auto|]. intros [= H]. auto. Qed.

Lemma str_app_inv_tail (a b c : string) :
  (a ++ c = b ++ c)%string -> a = b.
Proof.
  revert b; induction a as [|x a IH]; intros [|y b]; simpl; intros H.
  - reflexivity.
  - apply (f_equal String.length) in H. simpl in H.
    rewrite str_length_app in H. lia.
  - apply (f_equal String.length) in H. simpl in H.
    rewrite str_length_app in H. lia.
  - injection H as -> H. f_equal. auto.
Qed.

Lemma occurs_in_refl (s : string) : occurs_in s s.
Proof. exists EmptyString, EmptyString. simpl. now rewrite str_app_nil_r. Qed.

Lemma occurs_in_app (piece a s b : string) :
  occurs_in piece s -> occurs_in piece (a ++ s ++ b).
Proof.
  intros (x & y & ->). exists (a ++ x)%string, (y ++ b)%string.
  now rewrite !str_app_assoc.
Qed.

Lemma occurs_in_concat (sep piece : string) (l : list string) :
  In piece l -> occurs_in piece (String.concat sep l).
Proof.
  induction l as [|x l IH]; simpl; [tauto|].
  intros [->|H].
  - destruct l as [|y l]; [apply occurs_in_refl|].
    exists EmptyString, (sep ++ String.concat sep (y :: l))%string. reflexivity.
  - destruct l as [|y l]; [destruct H|].
    destruct (IH H) as (p & q & E).
    exists (x ++ sep ++ p)%string, q. rewrite E.
    now rewrite !str_app_assoc.
Qed.

(* ================================================================== *)
(** ** The removed-store policy *)
(* ================================================================== *)

Lemma versionText_inj (v1 v2 : N) : versionText v1 = versionText v2 -> v1 = v2.
Proof.
  unfold versionText. intros H.
  apply DecimalN.Unsigned.to_uint_inj.
  apply (f_equal NilEmpty.uint_of_string) in H.
  rewrite !NilEmpty.usu in H. now injection H.
Qed.

Lemma backupStoreName_eq (storeName : string) (v : N) :
  backupStoreName storeName v
  = ("__" ++ storeName ++ "_deleted_v" ++ versionText v ++ "__")%string.
Proof. unfold backupStoreName. simpl. reflexivity. Qed.

Lemma backupStoreName_inj (storeName : string) (v1 v2 : N) :
  backupStoreName storeName v1 = backupStoreName storeName v2 -> v1 = v2.
Proof.
  rewrite !backupStoreName_eq. intros H.
  apply str_app_inv_head in H. apply str_app_inv_head in H.
  apply str_app_inv_head in H. apply str_app_inv_tail in H.
  now apply versionText_inj.
Qed.

Lemma policy_loop_preserve (v : N) (l s d : list SchemaChangeType) :
  fold_left (processDangerousChange strategy_preserve v) l (s, d)
  = (s ++ flat_map (renamed_by_policy v) l, d ++ flat_map kept_by_policy l).
Proof.
  revert s d; induction l as [|c l IH]; intros s d; simpl.
  - now rewrite !app_nil_r.
  - destruct c; simpl; rewrite IH; simpl; rewrite <- ?app_assoc; reflexivity.
Qed.

Lemma policy_loop_error (v : N) (l s d : list SchemaChangeType) :
  fold_left (processDangerousChange strategy_error v) l (s, d) = (s, d ++ l).
Proof.
  revert s d; induction l as [|c l IH]; intros s d; simpl.
  - now rewrite app_nil_r.
  - destruct c; simpl; rewrite IH; rewrite <- ?app_assoc; reflexivity.
Qed.

(** What the policy loop computes under [preserve]. *)
Lemma processDangerousChanges_preserve (v : N) (changes : SchemaChanges) :
  processDangerousChanges strategy_preserve v changes
  = (safe changes ++ flat_map (renamed_by_policy v) (dangerous changes),
     flat_map kept_by_policy (dangerous changes)).
Proof. unfold processDangerousChanges. now rewrite policy_loop_preserve. Qed.

(** What the policy loop computes under [error]: nothing is rewritten. *)
Lemma processDangerousChanges_error (v : N) (changes : SchemaChanges) :
  processDangerousChanges strategy_error v changes
  = (safe changes, dangerous changes).
Proof. unfold processDangerousChanges. now rewrite policy_loop_error. Qed.

Lemma detect_hasChanges existing desired :
  hasChanges (detectSchemaChanges existing desired)
  = (0 <? List.length (safe (detectSchemaChanges existing desired)))%nat
    || (0 <? List.length (dangerous (detectSchemaChanges existing desired)))%nat.
Proof.
  unfold detectSchemaChanges.
  destruct (fold_left _ desired ([], [])) as [s d]. reflexivity.
Qed.

Lemma length_pos_In (A : Type) (x : A) (l : list A) :
  In x l -> (0 <? List.length l)%nat = true.
Proof. destruct l; simpl; [tauto|reflexivity]. Qed.

Lemma preserve_rewrites_delete v changes n :
  In (store_delete n) (dangerous changes) ->
  In (store_rename n (backupStoreName n v))
     (fst (processDangerousChanges strategy_preserve v changes))
  /\ ~ In (store_delete n)
          (snd (processDangerousChanges strategy_preserve v changes)).
Proof.
  intros Hin. rewrite processDangerousChanges_preserve. simpl. split.
  - apply in_or_app. right. apply in_flat_map.
    exists (store_delete n). split; [assumption|now left].
  - rewrite in_flat_map. intros (c & _ & Hc).
    destruct c; simpl in Hc; try contradiction;
      destruct Hc as [Hc|[]]; discriminate.
Qed.

Lemma detect_hasChanges_dangerous existing desired c :
  In c (dangerous (detectSchemaChanges existing desired)) ->
  hasChanges (detectSchemaChanges existing desired) = true.
Proof.
  intros H. rewrite detect_hasChanges, (length_pos_In _ _ H).
  apply orb_true_r.
Qed.



(* ================================================================== *)
(** ** Version resolution *)
(* ================================================================== *)

Lemma set_has_In (s : list string) (x : string) :
  set_has s x = true <-> In x s.
Proof.
  unfold set_has. rewrite existsb_exists. split.
  - intros (y & Hy & E). apply String.eqb_eq in E. now subst.
  - intros H. exists x. split; [assumption|apply String.eqb_refl].
Qed.

Lemma sort_insert_length (A : Type) (cmp : A -> A -> Z) x l :
  List.length (sort_insert cmp x l) = S (List.length l).
Proof.
  induction l as [|y l IH]; simpl; [reflexivity|].
  destruct (0 <? cmp x y)%Z; simpl; [now rewrite IH|reflexivity].
Qed.

Lemma js_sort_length (A : Type) (cmp : A -> A -> Z) l :
  List.length (js_sort cmp l) = List.length l.
Proof.
  induction l as [|x l IH]; simpl; [reflexivity|].
  now rewrite sort_insert_length, IH.
Qed.

(** Something is pending exactly when some registered name is not among
    the applied ones. *)
Lemma pending_nonempty localeCompare allMigrations applied :
  (0 <? List.length
          (filterPendingMigrations localeCompare allMigrations applied))%nat = true
  <-> exists m, In m allMigrations /\ ~ In (mig_name m) applied.
Proof.
  unfold filterPendingMigrations. rewrite js_sort_length. split.
  - intros H.
    destruct (filter _ allMigrations) as [|m l] eqn:E; [discriminate|].
    assert (Hin : In m (filter (fun m => negb (set_has applied (mig_name m)))
                               allMigrations)) by (rewrite E; now left).
    apply filter_In in Hin as [Hin Hm]. exists m. split; [assumption|].
    rewrite <- set_has_In. now destruct (set_has applied (mig_name m)).
  - intros (m & Hin & Hm). apply length_pos_In with (x := m).
    apply filter_In. split; [assumption|].
    destruct (set_has applied (mig_name m)) eqn:E; [|reflexivity].
    apply set_has_In in E. contradiction.
Qed.

(** The auto branch on an existing database whose schema shows no
    change. *)
Lemma resolveAuto_no_changes localeCompare db strategy stores allMigrations :
  hasChanges (detectSchemaChanges (readExistingSchema db)
                                  (toDesiredSchema stores)) = false ->
  let applied :=
    if (1 <? db_version db)%N then getAppliedMigrations db else [] in
  fst (resolveAuto localeCompare (Some db) strategy stores allMigrations)
  = Ok {| res_version :=
            if (0 <? List.length
                       (filterPendingMigrations localeCompare allMigrations applied))%nat
            then (db_version db + 1)%N else db_version db;
          res_autoChanges := None;
          res_appliedMigrations := applied |}.
Proof.
  intros H applied. subst applied.
  unfold resolveAuto, determineAutoVersion, openDatabaseForSchemaRead.
  rewrite H. simpl.
  destruct (1 <? db_version db)%N; simpl;
    destruct (0 <? List.length _)%nat; reflexivity.
Qed.

Lemma initializeDatabase_opens localeCompare persisted explicitVersion
      versionStrategy strategy stores allMigrations r log :
  resolve localeCompare persisted explicitVersion versionStrategy strategy
          stores allMigrations = (Ok r, log) ->
  In (open_database (res_version r))
     (init_log (initializeDatabase localeCompare persisted explicitVersion
                  versionStrategy strategy stores allMigrations)).
Proof.
  intros H. unfold initializeDatabase. rewrite H.
  destruct (openDatabase persisted (res_version r) _) as [[p idb] events].
  simpl. apply in_or_app. right. now left.
Qed.

(** C3. Under the auto strategy, on an existing database whose diff shows
    no structural change while the registry holds a migration name that
    the ledger lacks, resolution succeeds with the persisted version plus
    one, and that is the version the database is then opened with. *)
Theorem auto_pending_migration_forces_bump :
  forall localeCompare db removedStoreStrategy stores allMigrations,
    hasChanges (detectSchemaChanges (readExistingSchema db)
                                    (toDesiredSchema stores)) = false ->
    (exists m, In m allMigrations
               /\ ~ In (mig_name m) (getAppliedMigrations db)) ->
    (exists r,
        fst (resolveAuto localeCompare (Some db) removedStoreStrategy stores
                         allMigrations) = Ok r
        /\ res_version r = (db_version db + 1)%N)
    /\ In (open_database (db_version db + 1))
          (init_log (initializeDatabase localeCompare (Some db) None strategy_auto
                       removedStoreStrategy stores allMigrations)).
Proof.
  intros cmp db strategy stores allMigrations Hno (m & Hin & Hm).
  pose proof (resolveAuto_no_changes cmp db strategy stores allMigrations Hno)
    as Hres. simpl in Hres.
  assert (Hpending :
            (0 <? List.length
                    (filterPendingMigrations cmp allMigrations
                       (if (1 <? db_version db)%N
                        then getAppliedMigrations db else [])))%nat = true).
  { apply pending_nonempty. exists m. split; [assumption|].
    destruct (1 <? db_version db)%N; [assumption|tauto]. }
  rewrite Hpending in Hres.
  split.
  - eexists. split; [exact Hres|reflexivity].
  - destruct (resolveAuto cmp (Some db) strategy stores allMigrations)
      as [res log] eqn:E. simpl in Hres. subst res.
    exact (@initializeDatabase_opens cmp (Some db) None strategy_auto strategy
             stores allMigrations _ log E).
Qed.

Lemma auto_pending_migration_forces_bump_witness :
  (exists r,
      fst (resolveAuto codeUnitCompare (Some (SampleDb.usersOnly 3 ["001-seed"]))
             strategy_error
             [Sample.usersStore [SampleMigration.plain "001-seed";
                                 SampleMigration.plain "002-normalize"]]
             [SampleMigration.plain "001-seed";
              SampleMigration.plain "002-normalize"]) = Ok r
      /\ res_version r = 4%N)
  /\ In (open_database 4)
        (init_log (initializeDatabase codeUnitCompare
                     (Some (SampleDb.usersOnly 3 ["001-seed"])) None strategy_auto
                     strategy_error
                     [Sample.usersStore [SampleMigration.plain "001-seed";
                                         SampleMigration.plain "002-normalize"]]
                     [SampleMigration.plain "001-seed";
                      SampleMigration.plain "002-normalize"])).
Proof.
  apply (@auto_pending_migration_forces_bump codeUnitCompare
           (SampleDb.usersOnly 3 ["001-seed"]) strategy_error
           [Sample.usersStore [SampleMigration.plain "001-seed";
                               SampleMigration.plain "002-normalize"]]
           [SampleMigration.plain "001-seed";
            SampleMigration.plain "002-normalize"]).
  - vm_compute. reflexivity.
  - exists (SampleMigration.plain "002-normalize"). split.
    + simpl. right. left. reflexivity.
    + vm_compute. intros [H|[]]. discriminate.
Defined.

(** C9, at a database of version 1, as the first open under the auto
    strategy creates it.  The schema is unchanged and the one registered
    migration is in the ledger, so nothing is pending; the ledger is read
    only above version 1, the migration counts as pending, the version
    moves to 2 and the migration runs again.  From version 2 on the same
    resolution keeps the version. *)
Theorem auto_reopen_at_version_one_bumps :
  forall localeCompare,
    let stores := [Sample.usersStore [SampleMigration.plain "001-seed"]] in
    let registry := [SampleMigration.plain "001-seed"] in
    let db := SampleDb.usersOnly 1 ["001-seed"] in
    init_persisted (initializeDatabase localeCompare None None strategy_auto
                      strategy_error stores registry) = Some db
    /\ hasChanges (detectSchemaChanges (readExistingSchema db)
                                       (toDesiredSchema stores)) = false
    /\ map mig_name registry = getAppliedMigrations db
    /\ fst (resolveAuto localeCompare (Some db) strategy_error stores registry)
       = Ok {| res_version := 2; res_autoChanges := None;
               res_appliedMigrations := [] |}
    /\ In (migration_up "001-seed")
          (init_log (initializeDatabase localeCompare (Some db) None
                       strategy_auto strategy_error stores registry))
    /\ fst (resolveAuto localeCompare (Some (SampleDb.usersOnly 2 ["001-seed"]))
                        strategy_error stores registry)
       = Ok {| res_version := 2; res_autoChanges := None;
               res_appliedMigrations := ["001-seed"] |}.
Proof.
  intros cmp stores registry db.
  split; [reflexivity|].
  split; [reflexivity|].
  split; [reflexivity|].
  split; [reflexivity|].
  split; [|reflexivity].
  vm_compute. right. right. left. reflexivity.
Qed.

(** Above version 1, or with an empty registry, the auto resolution of an
    unchanged schema with nothing pending keeps the version. *)
Lemma auto_resolution_keeps_version localeCompare db strategy stores allMigrations :
  hasChanges (detectSchemaChanges (readExistingSchema db)
                                  (toDesiredSchema stores)) = false ->
  (forall m, In m allMigrations -> In (mig_name m) (getAppliedMigrations db)) ->
  (1 < db_version db)%N \/ allMigrations = [] ->
  exists r,
    fst (resolveAuto localeCompare (Some db) strategy stores allMigrations) = Ok r
    /\ res_version r = db_version db.
Proof.
  intros Hno Hall Hv.
  pose proof (resolveAuto_no_changes localeCompare db strategy stores
                allMigrations Hno) as Hres. simpl in Hres.
  destruct (0 <? List.length
                   (filterPendingMigrations localeCompare allMigrations
                      (if (1 <? db_version db)%N
                       then getAppliedMigrations db else [])))%nat eqn:E.
  - exfalso. apply pending_nonempty in E as (m & Hin & Hm).
    destruct Hv as [Hv | ->]; [|destruct Hin].
    apply N.ltb_lt in Hv. rewrite Hv in Hm. auto.
  - eexists. split; [exact Hres|reflexivity].
Qed.

(* ================================================================== *)
(** ** Dangerous changes stop the initialization *)
(* ================================================================== *)

Lemma occurs_in_trans (a b c : string) :
  occurs_in a b -> occurs_in b c -> occurs_in a c.
Proof.
  intros (p & q & ->) (p' & q' & ->).
  exists (p' ++ p)%string, (q ++ q')%string.
  now rewrite !str_app_assoc.
Qed.

Lemma remaining_dangerous_subset strategy v changes c :
  In c (snd (processDangerousChanges strategy v changes)) ->
  In c (dangerous changes).
Proof.
  destruct strategy.
  - now rewrite processDangerousChanges_error.
  - rewrite processDangerousChanges_preserve. simpl.
    rewrite in_flat_map. intros (c' & Hin & Hc).
    destruct c'; simpl in Hc; try contradiction;
      destruct Hc as [<-|[]]; assumption.
Qed.

Lemma length_pos_nonempty (A : Type) (l : list A) :
  l <> [] -> (0 <? List.length l)%nat = true.
Proof. destruct l; [congruence|reflexivity]. Qed.

Lemma remaining_dangerous_hasChanges strategy v existing desired :
  snd (processDangerousChanges strategy v
         (detectSchemaChanges existing desired)) <> [] ->
  hasChanges (detectSchemaChanges existing desired) = true.
Proof.
  intros H.
  destruct (snd (processDangerousChanges strategy v
                   (detectSchemaChanges existing desired))) as [|c l] eqn:E;
    [congruence|].
  apply detect_hasChanges_dangerous with (c := c).
  apply remaining_dangerous_subset with (strategy := strategy) (v := v).
  rewrite E. now left.
Qed.

(** The message names every change it is built from. *)
Lemma dangerousErrorMessage_lists remaining c :
  In c remaining ->
  occurs_in (describeDangerous c) (dangerousErrorMessage remaining).
Proof.
  intros H. unfold dangerousErrorMessage.
  apply occurs_in_trans
    with (b := String.concat newline (map describeDangerous remaining)).
  - apply occurs_in_concat. now apply in_map.
  - apply occurs_in_concat. simpl. tauto.
Qed.



(* ================================================================== *)
(** ** Explicit strategy without a version increase *)
(* ================================================================== *)

Lemma detect_safe_described existing desired c :
  In c (safe (detectSchemaChanges existing desired)) ->
  described_by_name c = true.
Proof.
  rewrite detect_safe, in_flat_map. intros ([k d] & _ & Hc).
  unfold storeChanges in Hc.
  destruct (JsMap.get existing k) as [es|]; simpl in Hc.
  2:{ destruct Hc as [<-|[]]. reflexivity. }
  destruct (keyPathEquals (es_keyPath es) (ds_keyPath d)); simpl in Hc;
    [|contradiction].
  rewrite fold_left_push in Hc. simpl in Hc.
  apply in_app_iff in Hc as [Hc|Hc].
  - apply in_flat_map in Hc as (di & _ & Hc). unfold indexChanges in Hc.
    destruct (JsMap.get (es_indexes es) (idx_name di)) as [ei|]; simpl in Hc.
    + destruct (_ || _); simpl in Hc; [|contradiction].
      destruct Hc as [<-|[<-|[]]]; reflexivity.
    + destruct Hc as [<-|[]]. reflexivity.
  - unfold deletedIndexChanges in Hc.
    rewrite (fold_left_push_if
               (fun n => negb (set_has (map idx_name (ds_indexes d)) n))
               (index_delete k)) in Hc.
    simpl in Hc. apply in_map_iff in Hc as (n & <- & _). reflexivity.
Qed.

Lemma policy_safe_described strategy v existing desired c :
  In c (fst (processDangerousChanges strategy v
               (detectSchemaChanges existing desired))) ->
  described_by_name c = true.
Proof.
  destruct strategy.
  - rewrite processDangerousChanges_error. apply detect_safe_described.
  - rewrite processDangerousChanges_preserve. simpl. rewrite in_app_iff.
    intros [H|H]; [now apply detect_safe_described in H|].
    apply in_flat_map in H as (c' & _ & Hc).
    destruct c'; simpl in Hc; try contradiction.
    destruct Hc as [<-|[]]. reflexivity.
Qed.

Lemma notBumpedWarning_lists safeChanges currentVersion version c :
  In c safeChanges ->
  occurs_in (describeSafe c) (notBumpedWarning safeChanges currentVersion version).
Proof.
  intros H. unfold notBumpedWarning.
  apply occurs_in_trans
    with (b := String.concat newline (map describeSafe safeChanges)).
  - apply occurs_in_concat. now apply in_map.
  - apply occurs_in_concat. simpl. tauto.
Qed.



(* ================================================================== *)
(** ** The upgrade callback: what is logged and registered *)
(* ================================================================== *)

Create HintDb frame.

Lemma quiet_ret (A : Type) (a : A) : quiet (ret a).
Proof. intros u. split; reflexivity. Qed.

Lemma quiet_throw (A : Type) (e : JsError) : quiet (@throw A e).
Proof. intros u. split; reflexivity. Qed.

Lemma quiet_bind (A B : Type) (c : M A) (k : A -> M B) :
  quiet c -> (forall a, quiet (k a)) -> quiet (bind c k).
Proof.
  intros Hc Hk u. unfold bind. specialize (Hc u).
  destruct (c u) as [[a|e] u1]; simpl in *; [|assumption].
  specialize (Hk a u1). destruct Hk as [H1 H2], Hc as [H3 H4].
  split; congruence.
Qed.

Lemma quiet_for_each (A : Type) (l : list A) (body : A -> M unit) :
  (forall x, quiet (body x)) -> quiet (for_each l body).
Proof.
  intros H. induction l as [|x l IH]; simpl.
  - apply quiet_ret.
  - apply quiet_bind; auto.
Qed.

Lemma quiet_require_active : quiet require_active.
Proof. intros u. unfold require_active. destruct (up_aborted u); split; reflexivity. Qed.

Lemma quiet_db_contains name : quiet (db_contains name).
Proof. intros u. split; reflexivity. Qed.

#[local] Hint Resolve quiet_ret quiet_throw quiet_bind quiet_for_each
  quiet_require_active quiet_db_contains : frame.

Lemma quiet_db_createObjectStore name keyPath :
  quiet (db_createObjectStore name keyPath).
Proof.
  unfold db_createObjectStore. apply quiet_bind; auto with frame.
  intros _ u. destruct (JsMap.has (up_stores u) name); split; reflexivity.
Qed.

Lemma quiet_db_deleteObjectStore name : quiet (db_deleteObjectStore name).
Proof.
  unfold db_deleteObjectStore. apply quiet_bind; auto with frame.
  intros _ u. destruct (JsMap.has (up_stores u) name); split; reflexivity.
Qed.

Lemma quiet_tx_objectStore name : quiet (tx_objectStore name).
Proof.
  unfold tx_objectStore. apply quiet_bind; auto with frame.
  intros _ u. destruct (JsMap.get (up_stores u) name); split; reflexivity.
Qed.

Lemma quiet_update_store name f : quiet (update_store name f).
Proof.
  unfold update_store. apply quiet_bind; [apply quiet_tx_objectStore|].
  intros store u. destruct (f store); split; reflexivity.
Qed.

Lemma quiet_store_createIndex s i k un me : quiet (store_createIndex s i k un me).
Proof. apply quiet_update_store. Qed.

Lemma quiet_store_deleteIndex s i : quiet (store_deleteIndex s i).
Proof. apply quiet_update_store. Qed.

Lemma quiet_store_put s k p : quiet (store_put s k p).
Proof. apply quiet_update_store. Qed.

Lemma quiet_queue_request d : quiet (queue_request d).
Proof. intros u. split; reflexivity. Qed.

#[local] Hint Resolve quiet_db_createObjectStore quiet_db_deleteObjectStore
  quiet_tx_objectStore quiet_update_store quiet_store_createIndex
  quiet_store_deleteIndex quiet_store_put quiet_queue_request : frame.

Lemma quiet_ensureSchemaHistoryStore : quiet ensureSchemaHistoryStore.
Proof.
  unfold ensureSchemaHistoryStore. apply quiet_bind; auto with frame.
  intros [|]; auto with frame.
Qed.

Lemma quiet_initializeSchemaHistory : quiet initializeSchemaHistory.
Proof. unfold initializeSchemaHistory. auto with frame. Qed.

Lemma quiet_createStoreFromDefinition store :
  quiet (createStoreFromDefinition store).
Proof. unfold createStoreFromDefinition. auto 6 with frame. Qed.

Lemma quiet_applySafeChanges changes stores :
  quiet (applySafeChanges changes stores).
Proof.
  unfold applySafeChanges. apply quiet_bind.
  - apply quiet_for_each. intros [ | | | | | | ]; auto 6 with frame.
  - intros _. apply quiet_for_each. intros c. destruct c; auto with frame.
    destruct (find _ stores); auto using quiet_createStoreFromDefinition with frame.
Qed.

Lemma quiet_upgradeStructure oldVersion stores autoChanges :
  quiet (upgradeStructure oldVersion stores autoChanges).
Proof.
  unfold upgradeStructure. apply quiet_bind.
  - apply quiet_ensureSchemaHistoryStore.
  - intros _. destruct (oldVersion =? 0)%N.
    + apply quiet_bind.
      * apply quiet_for_each. intros store. auto 6 with frame.
      * intros _. apply quiet_initializeSchemaHistory.
    + destruct autoChanges as [c|]; auto with frame.
      destruct (0 <? List.length (safe c))%nat; auto with frame.
      apply quiet_applySafeChanges.
Qed.

Lemma migration_events_app l1 l2 :
  migration_events (l1 ++ l2) = migration_events l1 ++ migration_events l2.
Proof. apply filter_app. Qed.

(** The [catch] block of the loop: it always rethrows, with the
    transaction aborted, and adds no migration event. *)
Lemma catch_block name err u :
  exists e u',
    (emit (console_error [migrationFailedMessage name; errorText err]) ;;
     tx_abort_ ;; @throw unit err) u = (Throw e, u')
    /\ up_aborted u' = true
    /\ migration_events (up_log u') = migration_events (up_log u).
Proof.
  unfold bind, emit, tx_abort_, require_active, throw, bind. simpl.
  destruct (up_aborted u) eqn:E; simpl.
  - do 2 eexists. split; [reflexivity|]. simpl. split; [assumption|].
    rewrite migration_events_app. simpl. apply app_nil_r.
  - do 2 eexists. split; [reflexivity|]. simpl. split; [reflexivity|].
    rewrite !migration_events_app. simpl. now rewrite !app_nil_r.
Qed.

(** One round of the loop: either the body returned and its name was
    written, or the round threw with the transaction aborted and nothing
    written. *)
Lemma runMigration_cases m applied u :
  match runMigration m applied u with
  | (Ok _, u') =>
      migration_events (up_log u')
      = migration_events (up_log u)
          ++ [migration_up (mig_name m); ledger_put (mig_name m)]
      /\ exists promise,
          snd (mig_up m (up_stores u)) = up_returns promise
          /\ up_promises u'
             = up_promises u
                 ++ match promise with
                    | Some fate => [(mig_name m, fate)]
                    | None => []
                    end
  | (Throw _, u') =>
      migration_events (up_log u')
      = migration_events (up_log u) ++ [migration_up (mig_name m)]
      /\ up_aborted u' = true
  end.
Proof.
  unfold runMigration, try_catch.
  unfold bind at 1. unfold call_up.
  destruct (mig_up m (up_stores u)) as [stores' [promise|err]] eqn:Eup;
    cbn [fst snd].
  - set (u1 := with_event (with_stores u stores') (migration_up (mig_name m))).
    assert (Hreg : exists u2,
               (match promise with
                | Some fate => register_catch (mig_name m) fate
                | None => ret tt
                end) u1 = (Ok tt, u2)
               /\ up_log u2 = up_log u1
               /\ up_promises u2
                  = up_promises u
                      ++ match promise with
                         | Some fate => [(mig_name m, fate)]
                         | None => []
                         end).
    { destruct promise; eexists; (split; [reflexivity|]); simpl;
        rewrite ?app_nil_r; auto. }
    destruct Hreg as (u2 & Hreg & Hlog2 & Hpr2).
    unfold bind at 1. rewrite Hreg.
    unfold recordMigrationApplied. unfold bind at 1.
    pose proof (quiet_store_put SCHEMA_HISTORY_STORE (mig_name m) (mig_name m) u2)
      as [Hlog3 Hpr3].
    destruct (store_put SCHEMA_HISTORY_STORE (mig_name m) (mig_name m) u2)
      as [[[]|e] u3]; cbn [fst snd] in Hlog3, Hpr3.
    + unfold emit. cbn [up_log with_event up_promises].
      rewrite Hlog3, Hlog2. subst u1. simpl. split.
      * rewrite !migration_events_app. simpl. now rewrite <- app_assoc.
      * exists promise. split; [reflexivity|]. congruence.
    + destruct (catch_block (mig_name m) e u3) as (e' & u4 & -> & Hab & Hev).
      split; [|assumption].
      rewrite Hev, Hlog3, Hlog2. subst u1. simpl.
      now rewrite migration_events_app.
  - set (u1 := with_event (with_stores u stores') (migration_up (mig_name m))).
    destruct (catch_block (mig_name m) err u1) as (e' & u4 & -> & Hab & Hev).
    split; [|assumption].
    rewrite Hev. subst u1. simpl. now rewrite migration_events_app.
Qed.

(* ================================================================== *)
(** ** Sorting by name *)
(* ================================================================== *)

Section SortFacts.
Variable A : Type.
Variable compareFn : A -> A -> Z.

Let le (a b : A) : Prop := (compareFn a b <= 0)%Z.

Lemma sort_insert_perm x l : Permutation (sort_insert compareFn x l) (x :: l).
  Proof.
    induction l as [|y l IH]; simpl; [reflexivity|].
    destruct (0 <? compareFn x y)%Z; [|reflexivity].
    rewrite IH. apply perm_swap.
  Qed.

Lemma js_sort_perm l : Permutation (js_sort compareFn l) l.
  Proof.
    induction l as [|x l IH]; simpl; [reflexivity|].
    rewrite sort_insert_perm. now apply perm_skip.
  Qed.

Hypothesis compare_total : forall a b, (0 < compareFn a b)%Z -> le b a.
Hypothesis compare_trans : forall a b c, le a b -> le b c -> le a c.

Lemma sort_insert_sorted x l :
    StronglySorted le l -> StronglySorted le (sort_insert compareFn x l).
  Proof.
    induction 1 as [|y l Hl IH Hy]; simpl.
    - constructor; constructor.
    - destruct (0 <? compareFn x y)%Z eqn:E.
      + constructor; [assumption|].
        rewrite sort_insert_perm.
        constructor; [|assumption]. apply compare_total. now apply Z.ltb_lt.
      + assert (Hxy : le x y) by (apply Z.ltb_ge in E; exact E).
        constructor; [now constructor|].
        constructor; [assumption|].
        eapply Forall_impl; [|exact Hy]. intros z Hz.
        now apply compare_trans with (b := y).
  Qed.

Lemma js_sort_sorted l : StronglySorted le (js_sort compareFn l).
  Proof.
    induction l as [|x l IH]; simpl; [constructor|].
    now apply sort_insert_sorted.
  Qed.

Hypothesis compare_antisym : forall a b, le a b -> le b a -> a = b.

  (** A list has one sorted arrangement only. *)
Lemma sorted_perm_unique l1 l2 :
    StronglySorted le l1 -> StronglySorted le l2 -> Permutation l1 l2 ->
    l1 = l2.
  Proof.
    intros H1; revert l2; induction H1 as [|a l1 Hl1 IH Ha];
      intros l2 H2 Hp.
    - apply Permutation_nil in Hp. now subst.
    - destruct H2 as [|b l2 Hl2 Hb].
      + symmetry in Hp. apply Permutation_nil in Hp. discriminate.
      + assert (Hab : a = b).
        { assert (Hin1 : In a (b :: l2))
            by (apply Permutation_in with (l := a :: l1); [assumption|now left]).
          assert (Hin2 : In b (a :: l1))
            by (apply Permutation_in with (l := b :: l2);
                [now symmetry|now left]).
          destruct Hin1 as [->|Hin1]; [reflexivity|].
          destruct Hin2 as [->|Hin2]; [reflexivity|].
          rewrite Forall_forall in Ha, Hb.
          apply compare_antisym; auto. }
        subst b. f_equal. apply IH; [assumption|].
        now apply Permutation_cons_inv in Hp.
  Qed.

Lemma js_sort_perm_unique l1 l2 :
    Permutation l1 l2 -> js_sort compareFn l1 = js_sort compareFn l2.
  Proof.
    intros Hp. apply sorted_perm_unique; try apply js_sort_sorted.
    rewrite !js_sort_perm. assumption.
  Qed.
End SortFacts.

Lemma js_sort_map_name localeCompare (l : list Migration) :
  map mig_name (js_sort (byName localeCompare) l)
  = js_sort localeCompare (map mig_name l).
Proof.
  induction l as [|m l IH]; simpl; [reflexivity|].
  rewrite <- IH. generalize (js_sort (byName localeCompare) l) as s.
  induction s as [|y s IHs]; simpl; [reflexivity|].
  unfold byName at 1.
  destruct (0 <? localeCompare (mig_name m) (mig_name y))%Z; simpl;
    [now rewrite IHs|reflexivity].
Qed.

Lemma filter_map_name (p : string -> bool) (l : list Migration) :
  map mig_name (filter (fun m => p (mig_name m)) l)
  = filter p (map mig_name l).
Proof.
  induction l as [|m l IH]; simpl; [reflexivity|].
  destruct (p (mig_name m)); simpl; now rewrite IH.
Qed.

Lemma filter_perm (A : Type) (p : A -> bool) (l1 l2 : list A) :
  Permutation l1 l2 -> Permutation (filter p l1) (filter p l2).
Proof.
  induction 1 as [|x l1 l2 Hp IH|x y l|l1 l2 l3 H12 IH12 H23 IH23]; simpl.
  - constructor.
  - destruct (p x); [now apply perm_skip|assumption].
  - destruct (p x), (p y); try reflexivity. apply perm_swap.
  - now transitivity (filter p l2).
Qed.

(** The registry is the sorted list of everything the stores declare. *)
Lemma collectFromStore_ok migrations allMigrations seen all' seen' :
  collectFromStore migrations (allMigrations, seen) = Ok (all', seen') ->
  all' = allMigrations ++ migrations.
Proof.
  revert allMigrations seen; induction migrations as [|m l IH];
    intros allMigrations seen; simpl.
  - intros [= <- _]. now rewrite app_nil_r.
  - destruct (set_has seen (mig_name m)); [discriminate|].
    intros H. apply IH in H. now rewrite <- app_assoc in H.
Qed.

Lemma collectFromStores_ok stores allMigrations seen all' seen' :
  collectFromStores stores (allMigrations, seen) = Ok (all', seen') ->
  all' = allMigrations ++ flat_map store_migrations stores.
Proof.
  revert allMigrations seen; induction stores as [|s l IH];
    intros allMigrations seen; simpl.
  - intros [= <- _]. now rewrite app_nil_r.
  - destruct (collectFromStore (store_migrations s) (allMigrations, seen))
      as [[a1 s1]|e] eqn:E; [|discriminate].
    apply collectFromStore_ok in E. subst a1.
    intros H. apply IH in H. now rewrite <- app_assoc in H.
Qed.

Lemma collectMigrations_ok localeCompare stores allMigrations :
  collectMigrations localeCompare stores = Ok allMigrations ->
  allMigrations
  = js_sort (byName localeCompare) (flat_map store_migrations stores).
Proof.
  unfold collectMigrations.
  destruct (collectFromStores stores ([], [])) as [[a s]|e] eqn:E;
    [|discriminate].
  apply collectFromStores_ok in E. simpl in E. subst a. now intros [= <-].
Qed.

(** The names of the pending migrations: those declared and not applied,
    as a sorted list. *)
Lemma pending_names localeCompare stores allMigrations applied :
  collectMigrations localeCompare stores = Ok allMigrations ->
  let names :=
    map mig_name (filterPendingMigrations localeCompare allMigrations applied) in
  Permutation names
    (filter (fun n => negb (set_has applied n)) (declared_names stores))
  /\ names
     = js_sort localeCompare
         (filter (fun n => negb (set_has applied n))
                 (js_sort localeCompare (declared_names stores))).
Proof.
  intros H names. apply collectMigrations_ok in H. subst allMigrations names.
  unfold filterPendingMigrations, declared_names.
  rewrite js_sort_map_name.
  rewrite (filter_map_name (fun n => negb (set_has applied n))).
  rewrite js_sort_map_name. split; [|reflexivity].
  rewrite js_sort_perm. apply filter_perm. apply js_sort_perm.
Qed.

(** The order by code units is a consistent comparator. *)
Lemma string_compare_refl (a : string) : String.compare a a = Eq.
Proof.
  induction a as [|x a IH]; simpl; [reflexivity|].
  unfold Ascii.compare. now rewrite N.compare_refl.
Qed.

Lemma string_compare_lt_trans (a b c : string) :
  String.compare a b = Lt -> String.compare b c = Lt -> String.compare a c = Lt.
Proof.
  revert b c; induction a as [|x a IH]; intros [|y b] [|z c]; simpl;
    try discriminate; try reflexivity.
  unfold Ascii.compare.
  destruct (N.compare_spec (N_of_ascii x) (N_of_ascii y)) as [Exy|Lxy|Gxy];
    try discriminate;
    destruct (N.compare_spec (N_of_ascii y) (N_of_ascii z)) as [Eyz|Lyz|Gyz];
    try discriminate;
    destruct (N.compare_spec (N_of_ascii x) (N_of_ascii z)) as [Exz|Lxz|Gxz];
    try reflexivity; try lia; intros H1 H2.
  now apply IH with (b := b).
Qed.

Lemma codeUnitCompare_le (a b : string) :
  (codeUnitCompare a b <= 0)%Z <-> String.compare a b <> Gt.
Proof.
  unfold codeUnitCompare.
  destruct (String.compare a b); split; intros H; try lia; try discriminate.
  now contradiction H.
Qed.

Lemma codeUnitCompare_total (a b : string) :
  (0 < codeUnitCompare a b)%Z -> name_le codeUnitCompare b a.
Proof.
  unfold name_le, codeUnitCompare. rewrite (String.compare_antisym b a).
  destruct (String.compare a b); simpl; lia.
Qed.

Lemma codeUnitCompare_antisym (a b : string) :
  name_le codeUnitCompare a b -> name_le codeUnitCompare b a -> a = b.
Proof.
  unfold name_le, codeUnitCompare. rewrite (String.compare_antisym b a).
  destruct (String.compare a b) eqn:E; simpl; try lia.
  intros _ _. now apply String.compare_eq_iff.
Qed.

Lemma codeUnitCompare_trans (a b c : string) :
  name_le codeUnitCompare a b -> name_le codeUnitCompare b c ->
  name_le codeUnitCompare a c.
Proof.
  unfold name_le. rewrite !codeUnitCompare_le.
  destruct (String.compare a b) eqn:Eab; [| |congruence].
  - apply String.compare_eq_iff in Eab. now subst.
  - destruct (String.compare b c) eqn:Ebc; [| |congruence].
    + apply String.compare_eq_iff in Ebc. subst. now rewrite Eab.
    + intros _ _. now rewrite (string_compare_lt_trans _ _ _ Eab Ebc).
Qed.

(* ================================================================== *)
(** ** The migrations of one upgrade *)
(* ================================================================== *)

Lemma run_trace_complete names : run_trace names (complete_run names).
Proof.
  induction names as [|n names IH]; simpl; [constructor|].
  now constructor.
Qed.

(** The loop of [handleUpgrade] over the pending migrations. *)
Lemma runPendingMigrations_trace pending applied u :
  exists events,
    migration_events (up_log (snd (runPendingMigrations pending applied u)))
    = migration_events (up_log u) ++ events
    /\ run_trace (map mig_name pending) events
    /\ match fst (runPendingMigrations pending applied u) with
       | Ok _ => events = complete_run (map mig_name pending)
       | Throw _ => True
       end.
Proof.
  revert applied u; induction pending as [|m rest IH]; intros applied u.
  - exists []. simpl. rewrite app_nil_r. repeat split. constructor.
  - cbn [runPendingMigrations]. unfold bind.
    pose proof (runMigration_cases m applied u) as Hm.
    destruct (runMigration m applied u) as [[[]|e] u1].
    + destruct Hm as [Hlog _].
      destruct (IH (js_sort codeUnitCompare (applied ++ [mig_name m])) u1)
        as (events & Hev & Htrace & Hok).
      exists (migration_up (mig_name m) :: ledger_put (mig_name m) :: events).
      split; [|split].
      * rewrite Hev, Hlog. now rewrite <- app_assoc.
      * simpl. now constructor.
      * destruct (fst (runPendingMigrations rest _ u1)); [|exact I].
        simpl. now rewrite Hok.
    + destruct Hm as [Hlog _].
      exists [migration_up (mig_name m)]. simpl.
      split; [assumption|]. split; [constructor|exact I].
Qed.

Lemma handleUpgrade_trace oldVersion stores pending applied autoChanges u :
  exists events,
    migration_events
      (up_log (snd (handleUpgrade oldVersion stores pending applied autoChanges u)))
    = migration_events (up_log u) ++ events
    /\ run_trace (map mig_name pending) events
    /\ match fst (handleUpgrade oldVersion stores pending applied autoChanges u)
       with
       | Ok _ => events = complete_run (map mig_name pending)
       | Throw _ => True
       end.
Proof.
  unfold handleUpgrade, bind.
  pose proof (quiet_upgradeStructure oldVersion stores autoChanges u)
    as [Hlog _].
  destruct (upgradeStructure oldVersion stores autoChanges u) as [[[]|e] u1];
    simpl in Hlog.
  - rewrite <- Hlog. apply runPendingMigrations_trace.
  - exists []. simpl. rewrite Hlog, app_nil_r.
    split; [reflexivity|]. split; [constructor|exact I].
Qed.



(* ================================================================== *)
(** ** A failing migration *)
(* ================================================================== *)

Lemma abort_by_engine_aborted u : up_aborted (abort_by_engine u) = true.
Proof.
  unfold abort_by_engine. destruct (up_aborted u) eqn:E; [assumption|].
  unfold tx_abort_, bind, require_active. rewrite E. reflexivity.
Qed.

Lemma rejection_handler_aborted name err u :
  up_aborted (snd (rejection_handler name err u)) = true.
Proof.
  unfold rejection_handler, bind, emit, tx_abort_, require_active, bind. simpl.
  destruct (up_aborted u) eqn:E; simpl; [assumption|reflexivity].
Qed.

Lemma rejection_handler_promises name err u :
  up_promises (snd (rejection_handler name err u)) = up_promises u.
Proof.
  unfold rejection_handler, bind, emit, tx_abort_, require_active, bind. simpl.
  destruct (up_aborted u); reflexivity.
Qed.

Lemma settle_rejections_loop_stays (l : list (string * PromiseFate)) u :
  up_aborted u = true ->
  up_aborted
    (fold_left
       (fun u0 p =>
          match snd p with
          | rejects_in_transaction err => snd (rejection_handler (fst p) err u0)
          | _ => u0
          end) l u) = true.
Proof.
  revert u; induction l as [|[n f] l IH]; intros u H; simpl; [assumption|].
  apply IH. destruct f; try assumption. apply rejection_handler_aborted.
Qed.

Lemma settle_rejections_loop_aborts (l : list (string * PromiseFate)) u name err :
  In (name, rejects_in_transaction err) l ->
  up_aborted
    (fold_left
       (fun u0 p =>
          match snd p with
          | rejects_in_transaction err => snd (rejection_handler (fst p) err u0)
          | _ => u0
          end) l u) = true.
Proof.
  revert u; induction l as [|[n f] l IH]; intros u Hin; simpl;
    [destruct Hin|].
  destruct Hin as [[= -> ->]|Hin].
  - apply settle_rejections_loop_stays. apply rejection_handler_aborted.
  - now apply IH.
Qed.

(** A promise that rejects within the transaction gets it aborted. *)
Lemma settle_rejections_aborts u name err :
  In (name, rejects_in_transaction err) (up_promises u) ->
  up_aborted (settle_rejections u) = true.
Proof. apply settle_rejections_loop_aborts. Qed.

Lemma settle_requests_loop_stays (l : list Deferred) u :
  up_aborted u = true ->
  up_aborted
    (fold_left
       (fun u0 d =>
          if up_aborted u0 then u0
          else match run_deferred d u0 with
               | (Ok _, u1) => u1
               | (Throw _, u1) => abort_by_engine u1
               end) l u) = true.
Proof.
  revert u; induction l as [|d l IH]; intros u H; simpl; [assumption|].
  apply IH. now rewrite H.
Qed.

Lemma settle_requests_stays u :
  up_aborted u = true -> up_aborted (settle_requests u) = true.
Proof. apply settle_requests_loop_stays. Qed.

(** The engine rolls an aborted upgrade back: nothing of it persists and
    the open fails. *)
Lemma run_upgrade_aborted (before : option IDBDatabase) (version : N)
      (onUpgrade : N -> M unit) :
  (let (r, u1) := onUpgrade (old_version before) (begin_upgrade before) in
   (exists e, r = Throw e)
   \/ (exists name err, In (name, rejects_in_transaction err) (up_promises u1))) ->
  exists events,
    run_upgrade before version onUpgrade
    = (before, Throw (DOMException "AbortError"), events).
Proof.
  unfold run_upgrade. fold (old_version before).
  destruct (onUpgrade (old_version before) (begin_upgrade before)) as [r u1].
  intros H.
  assert (Hab : up_aborted
                  match r with
                  | Ok _ => settle_requests (settle_rejections u1)
                  | Throw _ => abort_by_engine u1
                  end = true).
  { destruct r as [a|e].
    - destruct H as [[e H]|(name & err & H)]; [discriminate|].
      apply settle_requests_stays. now apply settle_rejections_aborts in H.
    - apply abort_by_engine_aborted. }
  rewrite Hab. eauto.
Qed.

Lemma runPendingMigrations_keeps_promises pending applied u x :
  (exists a, fst (runPendingMigrations pending applied u) = Ok a) ->
  In x (up_promises u) ->
  In x (up_promises (snd (runPendingMigrations pending applied u))).
Proof.
  revert applied u; induction pending as [|m rest IH]; intros applied u;
    simpl; [auto|].
  unfold bind. pose proof (runMigration_cases m applied u) as Hm.
  destruct (runMigration m applied u) as [[[]|e] u1].
  - destruct Hm as [_ (promise & _ & Hpr)]. intros Hok Hin.
    apply IH; [assumption|]. rewrite Hpr. apply in_or_app. now left.
  - intros [a Ha]. discriminate.
Qed.

(** A failing migration shows at the end of the loop: the loop threw, or
    a rejecting promise is registered. *)
Lemma migration_fails_detected pending applied u :
  MigrationFails pending applied u ->
  (exists e, fst (runPendingMigrations pending applied u) = Throw e)
  \/ (exists name err,
         In (name, rejects_in_transaction err)
            (up_promises (snd (runPendingMigrations pending applied u)))).
Proof.
  induction 1 as [m rest applied u stores' err Hup
                 |m rest applied u stores' err Hup
                 |m rest applied u u' Hrun Hrest IH];
    cbn [runPendingMigrations]; unfold bind.
  - pose proof (runMigration_cases m applied u) as Hm.
    destruct (runMigration m applied u) as [[[]|e] u1]; [|left; simpl; eauto].
    destruct Hm as [_ (promise & Hp & _)]. rewrite Hup in Hp. discriminate.
  - pose proof (runMigration_cases m applied u) as Hm.
    destruct (runMigration m applied u) as [[[]|e] u1]; [|left; simpl; eauto].
    destruct Hm as [_ (promise & Hp & Hpr)]. rewrite Hup in Hp.
    injection Hp as <-.
    destruct (fst (runPendingMigrations rest
                     (js_sort codeUnitCompare (applied ++ [mig_name m])) u1))
      as [a|e] eqn:E; [|left; eauto].
    right. exists (mig_name m), err.
    apply runPendingMigrations_keeps_promises; [eauto|].
    rewrite Hpr. apply in_or_app. right. now left.
  - rewrite Hrun. exact IH.
Qed.

(** C1, as the sources have it.  In an upgrade that the engine grants and
    whose structural part succeeds, when a pending migration that the
    loop reaches fails while the upgrade transaction is still there, its
    body throwing or the promise it returned rejecting within the
    transaction, the whole upgrade is rolled back and the open fails:
    what is persisted is what was persisted before, so no ledger entry
    written during the attempt can be read back. *)
Theorem failed_migration_rolls_back_upgrade :
  forall persisted version stores pending applied autoChanges u1,
    upgrade_granted persisted version ->
    upgradeStructure (old_version persisted) stores autoChanges
                     (begin_upgrade persisted) = (Ok tt, u1) ->
    MigrationFails pending applied u1 ->
    let '(persisted', result, events) :=
      openDatabase persisted version
        (fun oldVersion =>
           handleUpgrade oldVersion stores pending applied autoChanges) in
    persisted' = persisted
    /\ result = Throw (DOMException "AbortError")
    /\ ledger persisted' = ledger persisted.
Proof.
  intros persisted version stores pending applied autoChanges u1
         [Hv Hgt] Hstruct Hfails.
  assert (Hrun : exists events,
             run_upgrade persisted version
               (fun oldVersion =>
                  handleUpgrade oldVersion stores pending applied autoChanges)
             = (persisted, Throw (DOMException "AbortError"), events)).
  { apply run_upgrade_aborted. unfold handleUpgrade, bind.
    rewrite Hstruct.
    pose proof (migration_fails_detected Hfails) as Hd.
    destruct (runPendingMigrations pending applied u1) as [r u2].
    exact Hd. }
  destruct Hrun as (events & Hrun).
  unfold openDatabase.
  apply N.eqb_neq in Hv. rewrite Hv.
  destruct persisted as [db|].
  - assert (Hlt : (version <? db_version db)%N = false)
      by (apply N.ltb_ge; lia).
    assert (Hne : (version =? db_version db)%N = false)
      by (apply N.eqb_neq; lia).
    rewrite Hlt, Hne, Hrun. auto.
  - rewrite Hrun. auto.
Qed.

Lemma failed_migration_rolls_back_upgrade_witness :
  let '(persisted', result, events) :=
    openDatabase (Some (SampleDb.usersOnly 2 [])) 3
      (fun oldVersion =>
         handleUpgrade oldVersion [Sample.usersStore []]
           [SampleMigration.plain "a"; SampleMigration.throwing "b"] [] None) in
  persisted' = Some (SampleDb.usersOnly 2 [])
  /\ result = Throw (DOMException "AbortError")
  /\ ledger persisted' = ledger (Some (SampleDb.usersOnly 2 [])).
Proof.
  apply (@failed_migration_rolls_back_upgrade
           (Some (SampleDb.usersOnly 2 [])) 3%N [Sample.usersStore []]
           [SampleMigration.plain "a"; SampleMigration.throwing "b"] [] None
           (begin_upgrade (Some (SampleDb.usersOnly 2 [])))).
  - split; [discriminate|]. simpl. reflexivity.
  - reflexivity.
  - eapply fails_later.
    + reflexivity.
    + eapply fails_throwing. reflexivity.
Defined.

(** C1 as stated, at a rejection that arrives late.  Migration [a]
    succeeds; migration [b] returns a promise that rejects once the
    upgrade transaction has finished.  The handler logs the failure, but
    no transaction is aborted: the open succeeds at the new version and
    both names can be read back from the ledger. *)
Lemma late_rejection_commits_upgrade :
  let failing :=
    SampleMigration.async "b" (rejects_after_transaction (Error "late")) in
  let '(persisted', result, events) :=
    openDatabase (Some (SampleDb.usersOnly 2 [])) 3
      (fun oldVersion =>
         handleUpgrade oldVersion [Sample.usersStore []]
           [SampleMigration.plain "a"; failing] [] None) in
  In (console_error [migrationFailedMessage "b"; "late"]) events
  /\ ~ In tx_abort events
  /\ (exists db, result = Ok db /\ db_version db = 3%N)
  /\ ledger persisted' = ["a"; "b"]
  /\ ledger persisted' <> ledger (Some (SampleDb.usersOnly 2 [])).
Proof.
  vm_compute. split; [|split; [|split; [|split]]].
  - do 4 right. left. reflexivity.
  - intros H. repeat (destruct H as [H|H]; [discriminate|]). exact H.
  - eexists. split; reflexivity.
  - reflexivity.
  - discriminate.
Qed.

(* ================================================================== *)
(** ** The scenarios of the test suite *)
(* ================================================================== *)

(** With the default policy, removing a store fails the open with a
    message that says so. *)
Example removed_store_error_scenario :
  exists message,
    init_state (Scenario.open_auto (init_persisted Scenario.db1) strategy_error
                                   [Scenario.users])
    = Throw (Error message)
    /\ occurs_in "would be deleted" message.
Proof.
  eexists. split; [reflexivity|].
  exists (String.concat EmptyString
            ["Dangerous schema changes detected:"; newline;
             "Store "; dquote; "posts"; dquote; " "]).
  eexists. cbv. reflexivity.
Qed.

(** With [preserve] the removed store becomes its backup, records
    included, and deleting the recreated store later adds a second backup
    next to the first. *)
Example removed_store_preserve_scenario :
  Scenario.version_of Scenario.db2 = Some 2%N
  /\ Scenario.store_names Scenario.db2
     = [SCHEMA_HISTORY_STORE; "users"; "__posts_deleted_v1__"]
  /\ Scenario.records_of Scenario.db2 "__posts_deleted_v1__"
     = Some [("p1", "Post v1")]
  /\ Scenario.version_of Scenario.db4 = Some 4%N
  /\ Scenario.store_names Scenario.db4
     = [SCHEMA_HISTORY_STORE; "users"; "__posts_deleted_v1__";
        "__posts_deleted_v3__"]
  /\ Scenario.records_of Scenario.db4 "__posts_deleted_v1__"
     = Some [("p1", "Post v1")]
  /\ Scenario.records_of Scenario.db4 "__posts_deleted_v3__"
     = Some [("p2", "Post v3")].
Proof. vm_compute. repeat split. Qed.

(** Under the explicit strategy the same removal is applied when the
    version is raised, and only announced when it is not. *)
Example explicit_preserve_scenario :
  let created := Scenario.open_explicit None 1 strategy_error
                   [Scenario.users; Scenario.posts] in
  let filled := Scenario.put (init_persisted created) "posts" "p1" "Test Post" in
  Scenario.store_names
    (Scenario.open_explicit filled 2 strategy_preserve [Scenario.users])
  = [SCHEMA_HISTORY_STORE; "users"; "__posts_deleted_v1__"]
  /\ Scenario.store_names
       (Scenario.open_explicit filled 1 strategy_preserve [Scenario.users])
     = [SCHEMA_HISTORY_STORE; "users"; "posts"]
  /\ exists warning,
      In (console_warn warning)
         (init_log (Scenario.open_explicit filled 1 strategy_preserve
                                           [Scenario.users]))
      /\ occurs_in "Schema changes detected but version not bumped" warning.
Proof.
  split; [reflexivity|]. split; [reflexivity|].
  eexists. split.
  - vm_compute. right. left. reflexivity.
  - exists "[schema-idb] ". eexists. cbv. reflexivity.
Qed.

(* ================================================================== *)
(** ** More on the schema differ *)
(* ================================================================== *)

Lemma same_keyPath_sym a b : same_keyPath a b -> same_keyPath b a.
Proof. destruct a, b; simpl; auto. Qed.

Lemma keyPathEquals_refl a : keyPathEquals a a = true.
Proof. apply keyPathEquals_spec. destruct a; simpl; auto. Qed.

(** [keyPathEquals] decides whether two keyPaths are the same value: the
    same string, the same fields in the same order, or both missing
    ([null] and [undefined] count as the same).  It is symmetric, and a
    string never equals a list of fields, not even the list of that one
    string. *)
Theorem keyPathEquals_decides_same_keyPath :
  forall a b,
    (keyPathEquals a b = true <-> same_keyPath a b)
    /\ keyPathEquals a b = keyPathEquals b a
    /\ keyPathEquals a a = true
    /\ (forall s, keyPathEquals (KPString s) (KPArray [s]) = false)
    /\ keyPathEquals KPNull KPUndefined = true.
Proof.
  intros a b. split; [apply keyPathEquals_spec|].
  split; [|split; [apply keyPathEquals_refl|split; reflexivity]].
  destruct (keyPathEquals a b) eqn:E1, (keyPathEquals b a) eqn:E2;
    try reflexivity.
  - apply keyPathEquals_spec, same_keyPath_sym, keyPathEquals_spec in E1.
    congruence.
  - apply keyPathEquals_spec, same_keyPath_sym, keyPathEquals_spec in E2.
    congruence.
Qed.

Lemma JsMap_has_get (V : Type) (m : JsMap.t V) k :
  JsMap.has m k = true <-> exists v, JsMap.get m k = Some v.
Proof.
  unfold JsMap.has. destruct (JsMap.get m k) as [v|].
  - split; eauto.
  - split; [discriminate|]. intros [v H]. discriminate.
Qed.

Lemma JsMap_In_has (V : Type) (m : JsMap.t V) k v :
  In (k, v) m -> JsMap.has m k = true.
Proof.
  intros H. apply JsMap_has_keys. unfold JsMap.keys.
  change k with (fst (k, v)). now apply in_map.
Qed.

Lemma storeChanges_safe_kind existing entry c :
  In c (fst (storeChanges existing entry)) -> detected_safe_kind c = true.
Proof.
  destruct entry as [k d]. unfold storeChanges.
  destruct (JsMap.get existing k) as [es|]; simpl.
  2:{ intros [<-|[]]. reflexivity. }
  destruct (keyPathEquals (es_keyPath es) (ds_keyPath d)); simpl; [|tauto].
  rewrite fold_left_push. simpl. rewrite in_app_iff, in_flat_map.
  unfold deletedIndexChanges.
  rewrite (fold_left_push_if
             (fun n => negb (set_has (map idx_name (ds_indexes d)) n))
             (index_delete k)).
  simpl. rewrite in_map_iff.
  intros [[di [_ Hc]]|[n [<- _]]]; [|reflexivity].
  unfold indexChanges in Hc.
  destruct (JsMap.get (es_indexes es) (idx_name di)) as [ei|]; simpl in Hc.
  - destruct (_ || _); simpl in Hc; [|tauto].
    destruct Hc as [<-|[<-|[]]]; reflexivity.
  - destruct Hc as [<-|[]]; reflexivity.
Qed.

(** [detectSchemaChanges] sorts its findings into five kinds: additions of
    stores and additions and deletions of indexes are safe, deletions of
    stores and changes of keyPath are dangerous.  It never reports a
    store_rename or an index_modify, on either list. *)
Theorem diff_reports_five_kinds_only :
  forall existing desired c,
    let changes := detectSchemaChanges existing desired in
    (In c (safe changes) -> detected_safe_kind c = true)
    /\ (In c (dangerous changes) -> detected_dangerous_kind c = true).
Proof.
  intros existing desired c changes. subst changes. split.
  - rewrite detect_safe, in_flat_map. intros (entry & _ & Hc).
    now apply storeChanges_safe_kind in Hc.
  - intros H. apply detect_dangerous_kind in H as [(s & o & n & ->)|(s & ->)];
      reflexivity.
Qed.

(** A store is reported as added exactly when the desired schema has it
    and the existing one does not. *)
Theorem diff_adds_exactly_the_new_stores :
  forall existing desired storeName,
    In (store_add storeName) (safe (detectSchemaChanges existing desired))
    <-> JsMap.has desired storeName = true
        /\ JsMap.has existing storeName = false.
Proof.
  intros existing desired n. rewrite detect_safe, in_flat_map. split.
  - intros ([k d] & Hin & Hc). unfold storeChanges in Hc.
    destruct (JsMap.get existing k) as [es|] eqn:E; simpl in Hc.
    + exfalso.
      destruct (keyPathEquals (es_keyPath es) (ds_keyPath d)) eqn:Ek;
        simpl in Hc; [|destruct Hc].
      rewrite fold_left_push in Hc. simpl in Hc.
      apply in_app_iff in Hc as [Hc|Hc].
      * apply in_flat_map in Hc as (di & _ & Hc). unfold indexChanges in Hc.
        destruct (JsMap.get (es_indexes es) (idx_name di)); simpl in Hc.
        -- destruct (_ || _); simpl in Hc; [|destruct Hc].
           destruct Hc as [Hc|[Hc|[]]]; discriminate.
        -- destruct Hc as [Hc|[]]; discriminate.
      * unfold deletedIndexChanges in Hc.
        rewrite (fold_left_push_if
                   (fun n => negb (set_has (map idx_name (ds_indexes d)) n))
                   (index_delete k)) in Hc.
        simpl in Hc. apply in_map_iff in Hc as (x & Hx & _). discriminate.
    + destruct Hc as [[= <-]|[]]. split.
      * now apply JsMap_In_has in Hin.
      * unfold JsMap.has. now rewrite E.
  - intros [Hd He]. apply JsMap_has_get in Hd as [d Hd].
    exists (n, d). split; [now apply JsMap_get_In|].
    unfold storeChanges. unfold JsMap.has in He.
    destruct (JsMap.get existing n); [discriminate|]. now left.
Qed.

(** A store is reported as deleted exactly when the existing schema has
    it and the desired one does not. *)
Theorem diff_deletes_exactly_the_missing_stores :
  forall existing desired storeName,
    In (store_delete storeName)
       (dangerous (detectSchemaChanges existing desired))
    <-> In storeName (JsMap.keys existing)
        /\ JsMap.has desired storeName = false.
Proof.
  intros existing desired n.
  rewrite detect_dangerous, in_app_iff, in_flat_map, in_map_iff. split.
  - intros [([k d] & _ & Hc)|(x & [= ->] & Hx)].
    + exfalso. unfold storeChanges in Hc.
      destruct (JsMap.get existing k) as [es|]; simpl in Hc; [|destruct Hc].
      destruct (keyPathEquals (es_keyPath es) (ds_keyPath d)); simpl in Hc;
        [destruct Hc|].
      destruct Hc as [Hc|[]]. discriminate.
    + apply filter_In in Hx as [Hin Hp]. split; [assumption|].
      now destruct (JsMap.has desired n).
  - intros [Hin Hd]. right. exists n. split; [reflexivity|].
    apply filter_In. split; [assumption|]. now rewrite Hd.
Qed.

Lemma detect_safe_of_store existing desired s d c :
  JsMap.get desired s = Some d ->
  In c (fst (storeChanges existing (s, d))) ->
  In c (safe (detectSchemaChanges existing desired)).
Proof.
  intros Hd Hc. rewrite detect_safe, in_flat_map.
  exists (s, d). split; [now apply JsMap_get_In|assumption].
Qed.

(** For a store that both schemas have with the same keyPath, a declared
    index that the existing store lacks is reported as an index_add, and an
    existing index that is no longer declared as an index_delete. *)
Theorem diff_reports_new_and_dropped_indexes :
  forall existing desired storeName desiredStore existingStore,
    JsMap.get desired storeName = Some desiredStore ->
    JsMap.get existing storeName = Some existingStore ->
    same_keyPath (es_keyPath existingStore) (ds_keyPath desiredStore) ->
    let changes := detectSchemaChanges existing desired in
    (forall desiredIndex,
        In desiredIndex (ds_indexes desiredStore) ->
        JsMap.get (es_indexes existingStore) (idx_name desiredIndex) = None ->
        In (index_add storeName (idx_name desiredIndex) desiredIndex)
           (safe changes))
    /\ (forall indexName,
           In indexName (JsMap.keys (es_indexes existingStore)) ->
           ~ In indexName (map idx_name (ds_indexes desiredStore)) ->
           In (index_delete storeName indexName) (safe changes)).
Proof.
  intros existing desired s d e Hd He Hkp changes. subst changes.
  apply keyPathEquals_spec in Hkp.
  assert (Hsc : fst (storeChanges existing (s, d))
                = flat_map (indexChanges s e) (ds_indexes d)
                    ++ deletedIndexChanges s e d).
  { unfold storeChanges. rewrite He, Hkp. simpl. now rewrite fold_left_push. }
  split.
  - intros di Hin Hnone. eapply detect_safe_of_store; [exact Hd|].
    rewrite Hsc. apply in_or_app. left. apply in_flat_map.
    exists di. split; [assumption|]. unfold indexChanges. rewrite Hnone.
    now left.
  - intros i Hin Hnot. eapply detect_safe_of_store; [exact Hd|].
    rewrite Hsc. apply in_or_app. right. unfold deletedIndexChanges.
    rewrite (fold_left_push_if
               (fun n => negb (set_has (map idx_name (ds_indexes d)) n))
               (index_delete s)).
    simpl. apply in_map. apply filter_In. split; [assumption|].
    destruct (set_has (map idx_name (ds_indexes d)) i) eqn:E; [|reflexivity].
    apply set_has_In in E. contradiction.
Qed.

Lemma diff_reports_new_and_dropped_indexes_witness :
  let changes :=
    detectSchemaChanges
      [("users", {| es_name := "users"; es_keyPath := KPString "id";
                    es_indexes :=
                      [("age", {| ei_keyPath := KPString "age";
                                  ei_unique := false;
                                  ei_multiEntry := false |})] |})]
      (toDesiredSchema [Sample.usersStore []]) in
  (forall desiredIndex,
      In desiredIndex [Sample.emailIndex (Some true)] ->
      JsMap.get [("age", {| ei_keyPath := KPString "age"; ei_unique := false;
                            ei_multiEntry := false |})]
                (idx_name desiredIndex) = None ->
      In (index_add "users" (idx_name desiredIndex) desiredIndex) (safe changes))
  /\ (forall indexName,
         In indexName ["age"] ->
         ~ In indexName (map idx_name [Sample.emailIndex (Some true)]) ->
         In (index_delete "users" indexName) (safe changes)).
Proof.
  apply (@diff_reports_new_and_dropped_indexes
           [("users", {| es_name := "users"; es_keyPath := KPString "id";
                         es_indexes :=
                           [("age", {| ei_keyPath := KPString "age";
                                       ei_unique := false;
                                       ei_multiEntry := false |})] |})]
           (toDesiredSchema [Sample.usersStore []])
           "users"
           {| ds_name := "users"; ds_keyPath := KPString "id";
              ds_indexes := [Sample.emailIndex (Some true)] |}
           {| es_name := "users"; es_keyPath := KPString "id";
              es_indexes :=
                [("age", {| ei_keyPath := KPString "age"; ei_unique := false;
                            ei_multiEntry := false |})] |}).
  - reflexivity.
  - reflexivity.
  - simpl. reflexivity.
Defined.

Lemma flat_map_nil_iff (A B : Type) (f : A -> list B) (l : list A) :
  flat_map f l = [] <-> forall x, In x l -> f x = [].
Proof.
  induction l as [|a l IH]; simpl.
  - split; [tauto|reflexivity].
  - split.
    + intros H. apply app_eq_nil in H as [Ha Hl].
      intros x [<-|Hx]; [assumption|]. now apply IH.
    + intros H. rewrite (H a (or_introl eq_refl)). simpl.
      apply IH. auto.
Qed.

Lemma filter_nil_iff (A : Type) (p : A -> bool) (l : list A) :
  filter p l = [] <-> forall x, In x l -> p x = false.
Proof.
  induction l as [|a l IH]; simpl.
  - split; [tauto|reflexivity].
  - destruct (p a) eqn:E.
    + split; [discriminate|]. intros H.
      specialize (H a (or_introl eq_refl)). congruence.
    + rewrite IH. split.
      * intros H x [<-|Hx]; auto.
      * intros H x Hx. auto.
Qed.

Lemma app_nil_intro (A : Type) (l1 l2 : list A) :
  l1 = [] -> l2 = [] -> l1 ++ l2 = [].
Proof. now intros -> ->. Qed.

Lemma indexChanges_nil_iff s e di :
  indexChanges s e di = []
  <-> exists ei, JsMap.get (es_indexes e) (idx_name di) = Some ei
                 /\ index_agrees ei di.
Proof.
  unfold indexChanges, index_agrees.
  destruct (JsMap.get (es_indexes e) (idx_name di)) as [ei|].
  - destruct (keyPathEquals (ei_keyPath ei) (idx_keyPath di)) eqn:Ek;
      destruct (Bool.eqb (ei_unique ei) (nullish (idx_unique di) false)) eqn:Eu;
      destruct (Bool.eqb (ei_multiEntry ei)
                         (nullish (idx_multiEntry di) false)) eqn:Em;
      simpl; split; try discriminate;
      try (intros (ei' & [= <-] & Hk & Hu & Hm);
           apply keyPathEquals_spec in Hk;
           apply Bool.eqb_true_iff in Hu; apply Bool.eqb_true_iff in Hm;
           congruence).
    intros _. exists ei. split; [reflexivity|].
    apply keyPathEquals_spec in Ek.
    apply Bool.eqb_prop in Eu. apply Bool.eqb_prop in Em. auto.
  - split; [discriminate|]. intros (ei & H & _). discriminate.
Qed.

Lemma storeChanges_nil_iff existing s d :
  (fst (storeChanges existing (s, d)) = []
   /\ snd (storeChanges existing (s, d)) = [])
  <-> exists e, JsMap.get existing s = Some e /\ store_agrees e d.
Proof.
  unfold storeChanges, store_agrees.
  destruct (JsMap.get existing s) as [e|].
  2:{ simpl. split; [intros [H _]; discriminate|].
      intros (e & H & _). discriminate. }
  destruct (keyPathEquals (es_keyPath e) (ds_keyPath d)) eqn:Ek; simpl.
  - apply keyPathEquals_spec in Ek.
    rewrite fold_left_push. simpl. unfold deletedIndexChanges.
    rewrite (fold_left_push_if
               (fun n => negb (set_has (map idx_name (ds_indexes d)) n))
               (index_delete s)).
    simpl. split.
    + intros [H _]. apply app_eq_nil in H as [Hi Hd].
      exists e. split; [reflexivity|]. split; [assumption|]. split.
      * intros di Hin. apply (proj1 (@indexChanges_nil_iff s e di)).
        rewrite flat_map_nil_iff in Hi. auto.
      * intros i Hin. apply map_eq_nil in Hd.
        rewrite filter_nil_iff in Hd. specialize (Hd i Hin).
        apply negb_false_iff in Hd. now apply set_has_In.
    + intros (e' & [= <-] & _ & Hi & Hd). split; [|reflexivity].
      apply app_nil_intro.
      * apply flat_map_nil_iff. intros di Hin.
        apply (proj2 (@indexChanges_nil_iff s e di)). auto.
      * replace (filter _ (JsMap.keys (es_indexes e))) with (@nil string);
          [reflexivity|].
        symmetry. apply filter_nil_iff. intros i Hin.
        apply negb_false_iff. apply set_has_In. auto.
  - split; [intros [_ H]; discriminate|].
    intros (e' & [= <-] & Hk & _).
    apply (proj2 (keyPathEquals_spec _ _)) in Hk. congruence.
Qed.

Lemma length_pos_false_iff (A : Type) (l : list A) :
  (0 <? List.length l)%nat = false <-> l = [].
Proof. destruct l; simpl; split; (reflexivity || discriminate). Qed.

(** The diff reports no change exactly when the existing schema is the
    desired one: every desired store exists with the same keyPath, each of
    its declared indexes exists as declared, it has no other index, and
    the database has no store that is not declared. *)
Theorem diff_is_empty_exactly_when_schemas_agree :
  forall existing desired,
    hasChanges (detectSchemaChanges existing desired) = false
    <-> schemas_agree existing desired.
Proof.
  intros existing desired.
  rewrite detect_hasChanges, orb_false_iff, !length_pos_false_iff.
  rewrite detect_safe, detect_dangerous.
  unfold schemas_agree. split.
  - intros [Hs Hd]. apply app_eq_nil in Hd as [Hd Hdel].
    rewrite flat_map_nil_iff in Hs, Hd. split.
    + intros n d Hin. apply storeChanges_nil_iff. split.
      * apply (Hs (n, d) Hin).
      * apply (Hd (n, d) Hin).
    + intros n Hin. apply map_eq_nil in Hdel.
      rewrite filter_nil_iff in Hdel. specialize (Hdel n Hin).
      now apply negb_false_iff in Hdel.
  - intros [Hstores Hkeys]. split; [|apply app_nil_intro].
    + apply flat_map_nil_iff. intros [n d] Hin.
      now apply storeChanges_nil_iff, Hstores.
    + apply flat_map_nil_iff. intros [n d] Hin.
      now apply storeChanges_nil_iff, Hstores.
    + replace (filter _ (JsMap.keys existing)) with (@nil string);
        [reflexivity|].
      symmetry. apply filter_nil_iff. intros n Hin.
      apply negb_false_iff. auto.
Qed.

(* ================================================================== *)
(** ** More on the removed-store policy *)
(* ================================================================== *)

(** The removed-store policy loses and invents nothing: every safe change
    stays safe, every dangerous change other than a store deletion stays
    dangerous under either setting (preserve does not rescue a keyPath
    change), the two lists together keep their size, and under the
    default setting both lists come back unchanged. *)
Theorem removed_store_policy_keeps_every_change :
  forall strategy currentVersion changes,
    let processed := processDangerousChanges strategy currentVersion changes in
    (forall c, In c (safe changes) -> In c (fst processed))
    /\ (forall c, In c (dangerous changes) -> is_store_delete c = false ->
                  In c (snd processed))
    /\ List.length (fst processed) + List.length (snd processed)
       = List.length (safe changes) + List.length (dangerous changes)
    /\ (strategy = strategy_error ->
        processed = (safe changes, dangerous changes)).
Proof.
  intros strategy v changes processed. subst processed.
  destruct strategy.
  - rewrite processDangerousChanges_error. simpl. auto.
  - rewrite processDangerousChanges_preserve. simpl.
    split; [|split; [|split; [|discriminate]]].
    + intros c H. apply in_or_app. now left.
    + intros c H Hk. apply in_flat_map. exists c. split; [assumption|].
      destruct c; try discriminate; now left.
    + rewrite length_app.
      induction (dangerous changes) as [|c l IH]; simpl; [lia|].
      rewrite !length_app. destruct c; simpl; lia.
Qed.

(* ================================================================== *)
(** ** More on the registry *)
(* ================================================================== *)

Lemma collectFromStore_app l1 l2 acc :
  collectFromStore (l1 ++ l2) acc
  = match collectFromStore l1 acc with
    | Ok acc' => collectFromStore l2 acc'
    | Throw e => Throw e
    end.
Proof.
  revert acc; induction l1 as [|m l1 IH]; intros [a sn]; simpl;
    [reflexivity|].
  destruct (set_has sn (mig_name m)); [reflexivity|]. apply IH.
Qed.

(** The two nested loops are one loop over all declared migrations. *)
Lemma collectFromStores_flat stores acc :
  collectFromStores stores acc
  = collectFromStore (flat_map store_migrations stores) acc.
Proof.
  revert acc; induction stores as [|s l IH]; intros acc; simpl.
  - now destruct acc.
  - rewrite collectFromStore_app.
    destruct (collectFromStore (store_migrations s) acc); [apply IH|reflexivity].
Qed.

Lemma collectFromStore_nodup migrations allMigrations seen :
  NoDup (seen ++ map mig_name migrations) ->
  collectFromStore migrations (allMigrations, seen)
  = Ok (allMigrations ++ migrations, seen ++ map mig_name migrations).
Proof.
  revert allMigrations seen; induction migrations as [|m l IH];
    intros a sn Hnd; simpl.
  - now rewrite !app_nil_r.
  - simpl in Hnd.
    assert (Hm : set_has sn (mig_name m) = false).
    { destruct (set_has sn (mig_name m)) eqn:E; [|reflexivity].
      apply set_has_In in E. apply NoDup_remove_2 in Hnd.
      exfalso. apply Hnd. apply in_or_app. now left. }
    rewrite Hm.
    replace (sn ++ mig_name m :: map mig_name l)
      with ((sn ++ [mig_name m]) ++ map mig_name l) in *
      by now rewrite <- app_assoc.
    rewrite IH by assumption. now rewrite <- !app_assoc.
Qed.

Lemma collectFromStore_throw migrations allMigrations seen e :
  collectFromStore migrations (allMigrations, seen) = Throw e ->
  exists before m after,
    migrations = before ++ m :: after
    /\ e = Error (duplicateMigrationMessage (mig_name m))
    /\ In (mig_name m) (seen ++ map mig_name before).
Proof.
  revert allMigrations seen; induction migrations as [|m l IH];
    intros a sn; simpl; [discriminate|].
  destruct (set_has sn (mig_name m)) eqn:E.
  - intros [= <-]. exists [], m, l. split; [reflexivity|].
    split; [reflexivity|]. apply set_has_In in E. simpl.
    now rewrite app_nil_r.
  - intros H. apply IH in H as (before & m' & after & -> & He & Hin).
    exists (m :: before), m', after. split; [reflexivity|].
    split; [assumption|]. simpl. now rewrite <- app_assoc in Hin.
Qed.

Lemma collectMigrations_spec localeCompare stores :
  match collectMigrations localeCompare stores with
  | Ok allMigrations =>
      NoDup (declared_names stores)
      /\ Permutation allMigrations (flat_map store_migrations stores)
  | Throw e =>
      ~ NoDup (declared_names stores)
      /\ exists name,
          e = Error (duplicateMigrationMessage name)
          /\ In name (declared_names stores)
          /\ (2 <= count_occ String.string_dec (declared_names stores) name)%nat
  end.
Proof.
  unfold collectMigrations, declared_names.
  rewrite collectFromStores_flat.
  destruct (collectFromStore (flat_map store_migrations stores) ([], []))
    as [[a sn]|e] eqn:E.
  - destruct (ListDec.NoDup_dec String.string_dec
                (map mig_name (flat_map store_migrations stores))) as [Hnd|Hnd].
    + rewrite (collectFromStore_nodup _ [] [] Hnd) in E.
      injection E as <- <-. split; [assumption|]. apply js_sort_perm.
    + exfalso.
      assert (G : forall l a0 s0 a1 s1,
                 collectFromStore l (a0, s0) = Ok (a1, s1) ->
                 NoDup s0 -> NoDup (s0 ++ map mig_name l)).
      { clear. induction l as [|m l IH]; intros a0 s0 a1 s1; simpl.
        - intros _ H. now rewrite app_nil_r.
        - destruct (set_has s0 (mig_name m)) eqn:Em; [discriminate|].
          intros H Hs0. apply IH in H.
          + now rewrite <- app_assoc in H.
          + apply NoDup_app_remove_l with (l := []). simpl.
            apply Permutation_NoDup with (l := mig_name m :: s0).
            * apply Permutation_cons_append.
            * constructor; [|assumption]. intros Hin.
              apply set_has_In in Hin. congruence. }
      apply Hnd. apply (G _ _ _ _ _ E). constructor.
  - apply collectFromStore_throw in E as (before & m & after & El & He & Hin).
    simpl in Hin. rewrite El, map_app. simpl.
    split; [|exists (mig_name m); split; [assumption|]].
    + intros Hnd. apply NoDup_remove_2 in Hnd. apply Hnd.
      apply in_or_app. now left.
    + split.
      * apply in_or_app. right. now left.
      * rewrite count_occ_app. simpl.
        destruct (String.string_dec (mig_name m) (mig_name m)); [|congruence].
        apply (count_occ_In String.string_dec) in Hin. lia.
Qed.

(** [collectMigrations] succeeds exactly when no migration name is
    declared twice, across all stores; it then returns every declared
    migration once.  Otherwise it throws an error that names a migration
    name which is declared more than once. *)
Theorem collectMigrations_rejects_exactly_duplicate_names :
  forall localeCompare stores,
    ((exists allMigrations,
         collectMigrations localeCompare stores = Ok allMigrations)
     <-> NoDup (declared_names stores))
    /\ (forall allMigrations,
           collectMigrations localeCompare stores = Ok allMigrations ->
           Permutation allMigrations (flat_map store_migrations stores))
    /\ (forall e,
           collectMigrations localeCompare stores = Throw e ->
           exists name,
             e = Error (duplicateMigrationMessage name)
             /\ In name (declared_names stores)
             /\ (2 <= count_occ String.string_dec (declared_names stores) name)%nat).
Proof.
  intros cmp stores. pose proof (collectMigrations_spec cmp stores) as H.
  destruct (collectMigrations cmp stores) as [a|e].
  - destruct H as [Hnd Hp]. split; [split; eauto|].
    split; [now intros a' [= <-]|discriminate].
  - destruct H as [Hnd (name & He & Hin & Hcount)].
    split; [split; [intros [a Ha]; discriminate|contradiction]|].
    split; [discriminate|]. intros e' [= <-]. eauto.
Qed.

Lemma checkStoreNames_spec stores seen :
  match checkStoreNames stores seen with
  | Ok _ => NoDup seen -> NoDup (seen ++ map store_name stores)
  | Throw _ => ~ NoDup (seen ++ map store_name stores)
  end.
Proof.
  revert seen; induction stores as [|s l IH]; intros seen; simpl.
  - now rewrite app_nil_r.
  - destruct (set_has seen (store_name s)) eqn:E.
    + apply set_has_In in E. intros Hnd. apply NoDup_remove_2 in Hnd.
      apply Hnd. apply in_or_app. now left.
    + specialize (IH (seen ++ [store_name s])).
      rewrite <- app_assoc in IH. simpl in IH.
      destruct (checkStoreNames l (seen ++ [store_name s])); [|assumption].
      intros Hs. apply IH.
      apply NoDup_app_remove_l with (l := []). simpl.
      apply Permutation_NoDup with (l := store_name s :: seen).
      * apply Permutation_cons_append.
      * constructor; [|assumption]. intros Hin.
        apply set_has_In in Hin. congruence.
Qed.

(** [openDB] starts the initialization exactly when the store names are
    pairwise distinct and the migration names are pairwise distinct
    across all stores; otherwise it throws at once and nothing is
    initialized. *)
Theorem openDB_validates_names_before_initializing :
  forall localeCompare persisted explicitVersion versionStrategy
         removedStoreStrategy stores,
    (exists initialization,
        openDB localeCompare persisted explicitVersion versionStrategy
               removedStoreStrategy stores = Ok initialization)
    <-> NoDup (map store_name stores) /\ NoDup (declared_names stores).
Proof.
  intros cmp persisted explicitVersion versionStrategy strategy stores.
  unfold openDB.
  pose proof (checkStoreNames_spec stores []) as Hs. simpl in Hs.
  pose proof (collectMigrations_spec cmp stores)
    as Hm.
  destruct (checkStoreNames stores []) as [[]|e].
  - destruct (collectMigrations cmp stores) as [a|e].
    + split; [|eauto]. intros _. split; [apply Hs; constructor|apply Hm].
    + split; [intros [i H]; discriminate|]. intros [_ H]. now destruct Hm.
  - split; [intros [i H]; discriminate|]. intros [H _]. contradiction.
Qed.

(** The pending migrations are exactly the registered ones whose name is
    not among the applied names. *)
Theorem pending_is_registered_minus_applied :
  forall localeCompare allMigrations appliedMigrations m,
    In m (filterPendingMigrations localeCompare allMigrations appliedMigrations)
    <-> In m allMigrations /\ ~ In (mig_name m) appliedMigrations.
Proof.
  intros cmp allMigrations applied m. unfold filterPendingMigrations.
  split.
  - intros H. apply (Permutation_in _ (js_sort_perm _ _)) in H.
    apply filter_In in H as [Hin Hp]. split; [assumption|].
    rewrite <- set_has_In. now destruct (set_has applied (mig_name m)).
  - intros [Hin Hp].
    apply (Permutation_in _ (Permutation_sym (js_sort_perm _ _))).
    apply filter_In. split; [assumption|].
    destruct (set_has applied (mig_name m)) eqn:E; [|reflexivity].
    apply set_has_In in E. contradiction.
Qed.

(* ================================================================== *)
(** ** What an initialization can do to the database *)
(* ================================================================== *)

Lemma run_upgrade_cases before version onUpgrade :
  match run_upgrade before version onUpgrade with
  | (after, Ok db, _) => after = Some db /\ db_version db = version
  | (after, Throw e, _) => after = before /\ e = DOMException "AbortError"
  end.
Proof.
  unfold run_upgrade.
  destruct (onUpgrade _ (begin_upgrade before)) as [r u1].
  destruct (up_aborted _); simpl; auto.
Qed.

Lemma openDatabase_cases before version onUpgrade :
  match openDatabase before version onUpgrade with
  | (after, Ok db, _) =>
      after = Some db /\ db_version db = version
      /\ match before with
         | Some old => (db_version old <= version)%N
         | None => True
         end
  | (after, Throw _, _) => after = before
  end.
Proof.
  unfold openDatabase.
  destruct (version =? 0)%N; [reflexivity|].
  pose proof (run_upgrade_cases before version onUpgrade) as Hrun.
  destruct before as [old|].
  - destruct (version <? db_version old)%N eqn:Hlt; [reflexivity|].
    apply N.ltb_ge in Hlt.
    destruct (version =? db_version old)%N eqn:Heq.
    + apply N.eqb_eq in Heq. repeat split; auto.
    + destruct (run_upgrade (Some old) version onUpgrade) as [[after [db|e]] ev];
        [|tauto].
      destruct Hrun as [H1 H2]. auto.
  - destruct (run_upgrade None version onUpgrade) as [[after [db|e]] ev];
      [|tauto].
    destruct Hrun as [H1 H2]. auto.
Qed.



(** Under the auto strategy the resolved version is 1 for a database that
    does not exist yet, and otherwise the persisted version or the next
    one, whatever the stores, the registry and the policy; so the engine
    never refuses an auto open for asking a version below the persisted
    one. *)
Theorem auto_resolves_current_or_next_version :
  forall localeCompare persisted removedStoreStrategy stores allMigrations,
    match fst (resolveAuto localeCompare persisted removedStoreStrategy stores
                           allMigrations) with
    | Ok r =>
        match persisted with
        | None => res_version r = 1%N
        | Some db =>
            res_version r = db_version db
            \/ res_version r = (db_version db + 1)%N
        end
    | Throw _ => True
    end
    /\ init_state (initializeDatabase localeCompare persisted None strategy_auto
                     removedStoreStrategy stores allMigrations)
       <> Throw (DOMException "VersionError").
Proof.
  intros cmp persisted strategy stores allMigrations.
  assert (H : match fst (resolveAuto cmp persisted strategy stores
                                     allMigrations) with
              | Ok r =>
                  match persisted with
                  | None => res_version r = 1%N
                  | Some db =>
                      res_version r = db_version db
                      \/ res_version r = (db_version db + 1)%N
                  end
              | Throw _ => True
              end).
  { unfold resolveAuto, determineAutoVersion, openDatabaseForSchemaRead.
    destruct persisted as [db|]; simpl.
    - destruct (hasChanges _); simpl.
      + destruct (processDangerousChanges strategy (db_version db) _)
          as [safe' rem].
        destruct (0 <? List.length rem)%nat; simpl; [exact I|].
        destruct (1 <? db_version db + 1)%N; simpl;
          rewrite andb_false_r; simpl; now right.
      + destruct (1 <? db_version db)%N; simpl;
          destruct (0 <? List.length _)%nat; simpl; auto.
    - rewrite andb_false_r. reflexivity. }
  split; [exact H|].
  unfold initializeDatabase, resolve.
  destruct (resolveAuto cmp persisted strategy stores allMigrations)
    as [[r|e] log] eqn:E; simpl in H.
  - unfold openDatabase.
    destruct (res_version r =? 0)%N; [simpl; discriminate|].
    destruct persisted as [db|].
    + assert (Hlt : (res_version r <? db_version db)%N = false)
        by (apply N.ltb_ge; lia).
      rewrite Hlt.
      destruct (res_version r =? db_version db)%N; [simpl; discriminate|].
      match goal with
      | |- context [run_upgrade ?b ?v ?f] =>
          pose proof (run_upgrade_cases b v f) as Hrun;
          destruct (run_upgrade b v f) as [[after [db'|e]] events]
      end; simpl; [discriminate|].
      destruct Hrun as [_ ->]. discriminate.
    + match goal with
      | |- context [run_upgrade ?b ?v ?f] =>
          pose proof (run_upgrade_cases b v f) as Hrun;
          destruct (run_upgrade b v f) as [[after [db'|e]] events]
      end; simpl; [discriminate|].
      destruct Hrun as [_ ->]. discriminate.
  - simpl. unfold resolveAuto in E.
    destruct (determineAutoVersion persisted stores strategy) as [[av|e'] l] eqn:Ed.
    + destruct (1 <? av_version av)%N; [destruct (openDatabaseForSchemaRead _)|];
        discriminate.
    + injection E as <- <-. unfold determineAutoVersion in Ed.
      destruct (openDatabaseForSchemaRead persisted); [|discriminate].
      destruct (negb _); [discriminate|].
      destruct (processDangerousChanges _ _ _).
      destruct (0 <? List.length _)%nat; [|discriminate].
      injection Ed as <- _. discriminate.
Qed.

(* ================================================================== *)
(** ** Reserved stores *)
(* ================================================================== *)

Lemma readExistingSchema_keys db name :
  In name (JsMap.keys (readExistingSchema db)) ->
  In name (objectStoreNames db) /\ isInternalStore name = false.
Proof.
  unfold readExistingSchema.
  set (names := filter (fun n => negb (isInternalStore n)) (objectStoreNames db)).
  assert (G : forall (l : list string) (m : JsMap.t ExistingStoreSchema),
             In name
                (JsMap.keys
                   (fold_left
                      (fun schemas storeName =>
                         match JsMap.get (db_stores db) storeName with
                         | None => schemas
                         | Some store =>
                             JsMap.set schemas storeName
                               {| es_name := storeName;
                                  es_keyPath := os_keyPath store;
                                  es_indexes :=
                                    fold_left
                                      (fun indexes indexName =>
                                         match JsMap.get (os_indexes store)
                                                         indexName with
                                         | None => indexes
                                         | Some index =>
                                             JsMap.set indexes indexName
                                               {| ei_keyPath := ix_keyPath index;
                                                  ei_unique := ix_unique index;
                                                  ei_multiEntry :=
                                                    ix_multiEntry index |}
                                         end)
                                      (indexNames store) JsMap.empty |}
                         end) l m)) ->
             In name (JsMap.keys m) \/ In name l).
  { induction l as [|x l IH]; intros m; simpl; [auto|].
    intros H. apply IH in H as [H|H]; [|auto].
    destruct (JsMap.get (db_stores db) x); [|auto].
    rewrite JsMap_keys_set in H.
    destruct (JsMap.has m x); [auto|].
    apply in_app_iff in H as [H|[<-|[]]]; auto. }
  intros H. apply G in H as [[]|H].
  subst names. apply filter_In in H as [Hin Hp].
  split; [assumption|]. now apply negb_true_iff in Hp.
Qed.

Lemma backupStoreName_internal storeName v :
  isInternalStore (backupStoreName storeName v) = true.
Proof.
  rewrite backupStoreName_eq. unfold isInternalStore. simpl.
  now destruct (storeName ++ _)%string.
Qed.

Lemma toDesiredSchema_has stores store :
  In store stores ->
  JsMap.has (toDesiredSchema stores) (store_name store) = true.
Proof.
  unfold toDesiredSchema.
  assert (G : forall (l : list SchemaStoreDefinition)
                     (m : JsMap.t DesiredStoreSchema) k,
             In k (JsMap.keys m) \/ In k (map store_name l) ->
             In k (JsMap.keys
                     (fold_left
                        (fun schemas s =>
                           JsMap.set schemas (store_name s)
                             {| ds_name := store_name s;
                                ds_keyPath := store_keyPath s;
                                ds_indexes := store_indexes s |}) l m))).
  { induction l as [|x l IH]; intros m k; simpl; [tauto|].
    intros H. apply IH. rewrite JsMap_keys_set.
    destruct (JsMap.has m (store_name x)) eqn:E.
    - destruct H as [H|[<-|H]]; auto. left. now apply JsMap_has_keys.
    - rewrite in_app_iff. simpl. tauto. }
  intros H. apply JsMap_has_keys. apply G. right. now apply in_map.
Qed.

(** Stores with the reserved prefix are invisible to the diff.  Backup
    names and the ledger store carry the prefix, and the schema read from
    a database lists no such store; so no diff ever proposes to delete a
    backup or the ledger, or to change one of their indexes.  For the
    same reason a declared store whose own name carries the prefix is
    reported as new at every diff, even when the database has it. *)
Theorem reserved_stores_are_invisible_to_the_diff :
  forall db stores,
    let changes :=
      detectSchemaChanges (readExistingSchema db) (toDesiredSchema stores) in
    (forall storeName v, isInternalStore (backupStoreName storeName v) = true)
    /\ isInternalStore SCHEMA_HISTORY_STORE = true
    /\ (forall name c,
           isInternalStore name = true ->
           In c (safe changes ++ dangerous changes) ->
           c <> store_delete name /\ index_change_on name c = false
           /\ forall o k, c <> keypath_change name o k)
    /\ (forall store,
           In store stores -> isInternalStore (store_name store) = true ->
           In (store_add (store_name store)) (safe changes)).
Proof.
  intros db stores changes. subst changes.
  split; [apply backupStoreName_internal|]. split; [reflexivity|].
  assert (Habsent : forall name, isInternalStore name = true ->
                                 JsMap.get (readExistingSchema db) name = None).
  { intros name Hint.
    destruct (JsMap.get (readExistingSchema db) name) as [e|] eqn:E;
      [|reflexivity].
    apply JsMap_get_In, JsMap_In_has, JsMap_has_keys in E.
    apply readExistingSchema_keys in E as [_ E]. congruence. }
  split.
  - intros name c Hint Hc. apply in_app_iff in Hc as [Hc|Hc].
    + rewrite detect_safe in Hc. apply in_flat_map in Hc as ([k d] & _ & Hc).
      split; [|split].
      * intros ->. apply storeChanges_safe_kind in Hc. discriminate.
      * destruct (index_change_on name c) eqn:E; [|reflexivity].
        pose proof (storeChanges_index_store _ _ _ _ _ Hc E) as ->.
        unfold storeChanges in Hc. rewrite (Habsent _ Hint) in Hc.
        destruct Hc as [<-|[]]. discriminate.
      * intros o k' ->. apply storeChanges_safe_kind in Hc. discriminate.
    + rewrite detect_dangerous in Hc. apply in_app_iff in Hc as [Hc|Hc].
      * apply in_flat_map in Hc as ([k d] & _ & Hc).
        unfold storeChanges in Hc.
        destruct (JsMap.get (readExistingSchema db) k) as [e|] eqn:E;
          [|destruct Hc].
        destruct (keyPathEquals _ _); simpl in Hc; [destruct Hc|].
        destruct Hc as [<-|[]]. simpl.
        split; [discriminate|]. split; [reflexivity|].
        intros o k' [= <- _ _]. rewrite (Habsent _ Hint) in E. discriminate.
      * apply in_map_iff in Hc as (x & <- & Hx). simpl.
        split; [|split; [reflexivity|discriminate]].
        intros [= ->]. apply filter_In in Hx as [Hx _].
        apply readExistingSchema_keys in Hx as [_ Hx]. congruence.
  - intros store Hin Hint. rewrite detect_safe. apply in_flat_map.
    pose proof (toDesiredSchema_has _ _ Hin) as Hhas.
    apply JsMap_has_get in Hhas as [d Hd].
    exists (store_name store, d). split; [now apply JsMap_get_In|].
    unfold storeChanges. rewrite (Habsent _ Hint). now left.
Qed.

(* ================================================================== *)
(** ** The fingerprint hash *)
(* ================================================================== *)

Lemma toInt32_range z : (- 2 ^ 31 <= toInt32 z < 2 ^ 31)%Z.
Proof.
  unfold toInt32.
  pose proof (Z.mod_pos_bound (z + 2 ^ 31) (2 ^ 32) ltac:(lia)). lia.
Qed.

Lemma toInt32_shift z : exists k, (toInt32 z = z + k * 2 ^ 32)%Z.
Proof.
  unfold toInt32. exists (- ((z + 2 ^ 31) / 2 ^ 32))%Z.
  pose proof (Z.div_mod (z + 2 ^ 31) (2 ^ 32) ltac:(lia)). lia.
Qed.

Lemma toInt32_congr a b k :
  (a = b + k * 2 ^ 32)%Z -> toInt32 a = toInt32 b.
Proof.
  intros ->. unfold toInt32.
  replace (b + k * 2 ^ 32 + 2 ^ 31)%Z with (b + 2 ^ 31 + k * 2 ^ 32)%Z by lia.
  now rewrite Z_mod_plus_full.
Qed.

Lemma hashStep_poly hash char :
  hashStep (toInt32 hash) char = toInt32 (31 * hash + char).
Proof.
  unfold hashStep. cbv zeta. rewrite Z.land_diag.
  destruct (toInt32_shift hash) as [k1 E1].
  destruct (toInt32_shift (toInt32 (toInt32 hash) * 2 ^ 5)) as [k2 E2].
  destruct (toInt32_shift (toInt32 hash)) as [k3 E3].
  apply toInt32_congr with (k := (32 * k3 + 31 * k1 + k2)%Z).
  rewrite E2, E3, E1. change (2 ^ 5)%Z with 32%Z. lia.
Qed.

Lemma hash_loop_poly codes hash :
  fold_left hashStep codes (toInt32 hash)
  = toInt32 (fold_left (fun h c => 31 * h + c)%Z codes hash).
Proof.
  revert hash; induction codes as [|c l IH]; intros hash; simpl;
    [reflexivity|].
  rewrite hashStep_poly. apply IH.
Qed.

(** [hashFingerprint] is the absolute value of the 32-bit wrap-around of
    the base-31 polynomial of the character codes; it is never negative
    and never above 2^31 (a bound that is one more than the largest
    32-bit integer), and the empty string hashes to 0. *)
Theorem hashFingerprint_is_wrapped_polynomial :
  forall fingerprint,
    hashFingerprint fingerprint
    = Z.abs (toInt32 (fold_left (fun h c => 31 * h + c)%Z
                                (charCodes fingerprint) 0%Z))
    /\ (0 <= hashFingerprint fingerprint <= 2 ^ 31)%Z
    /\ hashFingerprint EmptyString = 0%Z.
Proof.
  intros s. unfold hashFingerprint.
  assert (E : fold_left hashStep (charCodes s) 0%Z
              = toInt32 (fold_left (fun h c => 31 * h + c)%Z (charCodes s) 0%Z))
    by exact (hash_loop_poly (charCodes s) 0).
  rewrite E. split; [reflexivity|]. split; [|reflexivity].
  pose proof (toInt32_range (fold_left (fun h c => 31 * h + c)%Z
                                       (charCodes s) 0%Z)). lia.
Qed.

(* ================================================================== *)
(** ** Maps and the operations of an active upgrade transaction *)
(* ================================================================== *)

Lemma JsMap_get_set_same (V : Type) (m : JsMap.t V) k v :
  JsMap.get (JsMap.set m k v) k = Some v.
Proof.
  induction m as [|[k' v'] m IH]; simpl.
  - now rewrite String.eqb_refl.
  - destruct (String.eqb k' k) eqn:E; simpl; rewrite E; [reflexivity|exact IH].
Qed.

Lemma JsMap_get_set_other (V : Type) (m : JsMap.t V) k k' v :
  k <> k' -> JsMap.get (JsMap.set m k v) k' = JsMap.get m k'.
Proof.
  intros Hne. induction m as [|[k0 v0] m IH]; simpl.
  - apply String.eqb_neq in Hne. now rewrite Hne.
  - destruct (String.eqb k0 k) eqn:E; simpl.
    + apply String.eqb_eq in E. subst k0.
      apply String.eqb_neq in Hne. now rewrite Hne.
    + destruct (String.eqb k0 k'); [reflexivity|exact IH].
Qed.

Lemma JsMap_set_set (V : Type) (m : JsMap.t V) k a b :
  JsMap.set (JsMap.set m k a) k b = JsMap.set m k b.
Proof.
  induction m as [|[k' v'] m IH]; simpl.
  - now rewrite String.eqb_refl.
  - destruct (String.eqb k' k) eqn:E; simpl; rewrite E; [reflexivity|].
    now rewrite IH.
Qed.

Lemma JsMap_set_get (V : Type) (m : JsMap.t V) k v :
  JsMap.get m k = Some v -> JsMap.set m k v = m.
Proof.
  induction m as [|[k' v'] m IH]; simpl; [discriminate|].
  destruct (String.eqb k' k) eqn:E.
  - intros [= ->]. reflexivity.
  - intros H. now rewrite IH.
Qed.

Lemma JsMap_set_absent (V : Type) (m : JsMap.t V) k v :
  JsMap.has m k = false -> JsMap.set m k v = m ++ [(k, v)].
Proof.
  unfold JsMap.has. induction m as [|[k' v'] m IH]; simpl; [reflexivity|].
  destruct (String.eqb k' k); [discriminate|].
  intros H. now rewrite IH.
Qed.

Lemma JsMap_remove_set_absent (V : Type) (m : JsMap.t V) k v :
  JsMap.has m k = false -> JsMap.remove (JsMap.set m k v) k = m.
Proof.
  unfold JsMap.has. induction m as [|[k' v'] m IH]; simpl.
  - now rewrite String.eqb_refl.
  - destruct (String.eqb k' k) eqn:E; [discriminate|]. simpl. rewrite E.
    intros H. now rewrite IH.
Qed.

Lemma JsMap_get_remove_other (V : Type) (m : JsMap.t V) k k' :
  k <> k' -> JsMap.get (JsMap.remove m k) k' = JsMap.get m k'.
Proof.
  intros Hne. induction m as [|[k0 v0] m IH]; simpl; [reflexivity|].
  destruct (String.eqb k0 k) eqn:E; simpl.
  - apply String.eqb_eq in E. subst k0.
    apply String.eqb_neq in Hne. now rewrite Hne.
  - destruct (String.eqb k0 k'); [reflexivity|exact IH].
Qed.

Lemma JsMap_has_remove_same (V : Type) (m : JsMap.t V) k :
  JsMap.wf m -> JsMap.has (JsMap.remove m k) k = false.
Proof.
  unfold JsMap.wf, JsMap.keys.
  induction m as [|[k0 v0] m IH]; simpl; [reflexivity|].
  intros Hnd. inversion Hnd as [|? ? Hnotin Hnd']; subst.
  destruct (String.eqb k0 k) eqn:E.
  - apply String.eqb_eq in E. subst k0.
    destruct (JsMap.has m k) eqn:Eh; [|reflexivity].
    apply JsMap_has_keys in Eh. contradiction.
  - unfold JsMap.has in *. simpl. rewrite E. now apply IH.
Qed.

(** Setting the entries of a map without repeated keys, one after the
    other, on top of a map that has none of these keys, appends them. *)
Lemma JsMap_set_all (V : Type) (l m : JsMap.t V) :
  NoDup (JsMap.keys m ++ JsMap.keys l) ->
  fold_left (fun acc kv => JsMap.set acc (fst kv) (snd kv)) l m = m ++ l.
Proof.
  revert m; induction l as [|[k v] l IH]; intros m Hnd; simpl.
  - now rewrite app_nil_r.
  - simpl in Hnd.
    assert (Hk : JsMap.has m k = false).
    { destruct (JsMap.has m k) eqn:E; [|reflexivity].
      apply JsMap_has_keys in E. apply NoDup_remove_2 in Hnd.
      exfalso. apply Hnd. apply in_or_app. now left. }
    rewrite JsMap_set_absent by exact Hk. rewrite IH.
    + now rewrite <- app_assoc.
    + unfold JsMap.keys in *. rewrite map_app. simpl.
      now rewrite <- app_assoc.
Qed.

Lemma with_stores_same u : with_stores u (up_stores u) = u.
Proof. now destruct u. Qed.

Lemma with_stores_twice u s1 s2 :
  with_stores (with_stores u s1) s2 = with_stores u s2.
Proof. reflexivity. Qed.

Lemma tx_objectStore_active u name store :
  up_aborted u = false ->
  JsMap.get (up_stores u) name = Some store ->
  tx_objectStore name u = (Ok store, u).
Proof.
  intros Ha Hg. unfold tx_objectStore, bind, require_active.
  now rewrite Ha, Hg.
Qed.

Lemma update_store_active u name store store' f :
  up_aborted u = false ->
  JsMap.get (up_stores u) name = Some store ->
  f store = Ok store' ->
  update_store name f u
  = (Ok tt, with_stores u (JsMap.set (up_stores u) name store')).
Proof.
  intros Ha Hg Hf. unfold update_store. unfold bind at 1.
  rewrite (@tx_objectStore_active u name store Ha Hg). now rewrite Hf.
Qed.

Lemma db_createObjectStore_active u name keyPath :
  up_aborted u = false ->
  JsMap.has (up_stores u) name = false ->
  db_createObjectStore name keyPath u
  = (Ok tt,
     with_stores u
       (up_stores u
          ++ [(name, {| os_keyPath := keyPath; os_indexes := JsMap.empty;
                        os_records := JsMap.empty |})])).
Proof.
  intros Ha Hh. unfold db_createObjectStore, bind, require_active.
  rewrite Ha, Hh. rewrite JsMap_set_absent by exact Hh. reflexivity.
Qed.

Lemma db_deleteObjectStore_active u name :
  up_aborted u = false ->
  JsMap.has (up_stores u) name = true ->
  db_deleteObjectStore name u
  = (Ok tt, with_stores u (JsMap.remove (up_stores u) name)).
Proof.
  intros Ha Hh. unfold db_deleteObjectStore, bind, require_active.
  now rewrite Ha, Hh.
Qed.

(** Creating the indexes of a list without repeated names on a store
    that has none of them appends them to the indexes of the store. *)
Lemma createIndexes_active (indexes : list (string * IDBIndex)) :
  forall u name store,
    up_aborted u = false ->
    JsMap.get (up_stores u) name = Some store ->
    NoDup (JsMap.keys (os_indexes store) ++ JsMap.keys indexes) ->
    for_each indexes
      (fun idx =>
         store_createIndex name (fst idx) (ix_keyPath (snd idx))
           (ix_unique (snd idx)) (ix_multiEntry (snd idx))) u
    = (Ok tt,
       with_stores u
         (JsMap.set (up_stores u) name
            {| os_keyPath := os_keyPath store;
               os_indexes := os_indexes store ++ indexes;
               os_records := os_records store |})).
Proof.
  induction indexes as [|[i ix] l IH]; intros u name store Ha Hg Hnd.
  - simpl. unfold ret. rewrite app_nil_r.
    replace {| os_keyPath := os_keyPath store; os_indexes := os_indexes store;
               os_records := os_records store |} with store by now destruct store.
    rewrite JsMap_set_get by exact Hg. now rewrite with_stores_same.
  - cbn [for_each fst snd]. unfold bind at 1. simpl in Hnd.
    assert (Hi : JsMap.has (os_indexes store) i = false).
    { destruct (JsMap.has (os_indexes store) i) eqn:E; [|reflexivity].
      apply JsMap_has_keys in E. apply NoDup_remove_2 in Hnd.
      exfalso. apply Hnd. apply in_or_app. now left. }
    unfold store_createIndex at 1.
    erewrite update_store_active; [|exact Ha|exact Hg|rewrite Hi; reflexivity].
    rewrite (@JsMap_set_absent _ (os_indexes store) i _ Hi).
    replace {| ix_keyPath := ix_keyPath ix; ix_unique := ix_unique ix;
               ix_multiEntry := ix_multiEntry ix |} with ix by now destruct ix.
    erewrite IH; [| exact Ha | apply JsMap_get_set_same | ].
    + cbn [os_keyPath os_indexes os_records up_stores with_stores].
      rewrite JsMap_set_set, <- app_assoc. reflexivity.
    + cbn [os_indexes]. unfold JsMap.keys in *. rewrite map_app. simpl.
      now rewrite <- app_assoc.
Qed.

(** Putting the records of a list without repeated keys into a store
    that has none of them appends them to the records of the store. *)
Lemma putRecords_active (records : JsMap.t string) :
  forall u name store,
    up_aborted u = false ->
    JsMap.get (up_stores u) name = Some store ->
    NoDup (JsMap.keys (os_records store) ++ JsMap.keys records) ->
    for_each records
      (fun record => store_put name (fst record) (snd record)) u
    = (Ok tt,
       with_stores u
         (JsMap.set (up_stores u) name
            {| os_keyPath := os_keyPath store;
               os_indexes := os_indexes store;
               os_records := os_records store ++ records |})).
Proof.
  induction records as [|[k v] l IH]; intros u name store Ha Hg Hnd.
  - simpl. unfold ret. rewrite app_nil_r.
    replace {| os_keyPath := os_keyPath store; os_indexes := os_indexes store;
               os_records := os_records store |} with store by now destruct store.
    rewrite JsMap_set_get by exact Hg. now rewrite with_stores_same.
  - cbn [for_each fst snd]. unfold bind at 1. simpl in Hnd.
    assert (Hk : JsMap.has (os_records store) k = false).
    { destruct (JsMap.has (os_records store) k) eqn:E; [|reflexivity].
      apply JsMap_has_keys in E. apply NoDup_remove_2 in Hnd.
      exfalso. apply Hnd. apply in_or_app. now left. }
    unfold store_put at 1.
    erewrite update_store_active; [|exact Ha|exact Hg|reflexivity].
    rewrite (@JsMap_set_absent _ (os_records store) k _ Hk).
    erewrite IH; [| exact Ha | apply JsMap_get_set_same | ].
    + cbn [os_keyPath os_indexes os_records up_stores with_stores].
      rewrite JsMap_set_set, <- app_assoc. reflexivity.
    + cbn [os_records]. unfold JsMap.keys in *. rewrite map_app. simpl.
      now rewrite <- app_assoc.
Qed.

(* ================================================================== *)
(** ** Applying safe changes *)
(* ================================================================== *)

Lemma applySafeChanges_index_add stores storeName indexName index u store :
  up_aborted u = false ->
  JsMap.get (up_stores u) storeName = Some store ->
  JsMap.has (os_indexes store) indexName = false ->
  applySafeChanges [index_add storeName indexName index] stores u
  = (Ok tt,
     with_stores u
       (JsMap.set (up_stores u) storeName
          {| os_keyPath := os_keyPath store;
             os_indexes :=
               JsMap.set (os_indexes store) indexName
                 {| ix_keyPath := idx_keyPath index;
                    ix_unique := nullish (idx_unique index) false;
                    ix_multiEntry := nullish (idx_multiEntry index) false |};
             os_records := os_records store |})).
Proof.
  intros Ha Hg Hi. unfold applySafeChanges.
  cbn [filter is_store_rename for_each]. unfold bind, ret.
  unfold store_createIndex.
  erewrite update_store_active; [reflexivity|exact Ha|exact Hg|].
  now rewrite Hi.
Qed.

Lemma applySafeChanges_index_delete stores storeName indexName u store :
  up_aborted u = false ->
  JsMap.get (up_stores u) storeName = Some store ->
  JsMap.has (os_indexes store) indexName = true ->
  applySafeChanges [index_delete storeName indexName] stores u
  = (Ok tt,
     with_stores u
       (JsMap.set (up_stores u) storeName
          {| os_keyPath := os_keyPath store;
             os_indexes := JsMap.remove (os_indexes store) indexName;
             os_records := os_records store |})).
Proof.
  intros Ha Hg Hi. unfold applySafeChanges.
  cbn [filter is_store_rename for_each]. unfold bind, ret.
  unfold store_deleteIndex.
  erewrite update_store_active; [reflexivity|exact Ha|exact Hg|].
  now rewrite Hi.
Qed.



Lemma JsMap_has_remove_other (V : Type) (m : JsMap.t V) k k' :
  k <> k' -> JsMap.has (JsMap.remove m k) k' = JsMap.has m k'.
Proof. intros H. unfold JsMap.has. now rewrite JsMap_get_remove_other. Qed.

Lemma JsMap_keys_remove_subset (V : Type) (m : JsMap.t V) k x :
  In x (JsMap.keys (JsMap.remove m k)) -> In x (JsMap.keys m).
Proof.
  unfold JsMap.keys. induction m as [|[k0 v0] m IH]; simpl; [tauto|].
  destruct (String.eqb k0 k); simpl; [auto|]. intros [H|H]; auto.
Qed.



(* ================================================================== *)
(** ** Applying the safe changes settles the schema *)
(* ================================================================== *)

Lemma readExistingSchema_unfold db :
  readExistingSchema db
  = fold_left
      (fun schemas storeName =>
         match JsMap.get (db_stores db) storeName with
         | None => schemas
         | Some store => JsMap.set schemas storeName (existingStoreOf storeName store)
         end)
      (filter (fun name => negb (isInternalStore name)) (objectStoreNames db))
      JsMap.empty.
Proof. reflexivity. Qed.

Lemma applySafeChanges_unfold changes stores :
  applySafeChanges changes stores
  = (for_each (filter is_store_rename changes)
       (fun change =>
          match change with
          | store_rename oldName newName =>
              oldStore <- tx_objectStore oldName ;;
              queue_request
                (rename_copy
                   {| ri_keyPath := os_keyPath oldStore;
                      ri_indexes := os_indexes oldStore;
                      ri_newName := newName |}
                   (os_records oldStore)) ;;
              db_deleteObjectStore oldName
          | _ => ret tt
          end) ;;
     for_each changes (applyChange stores)).
Proof. reflexivity. Qed.

Lemma toDesiredSchema_unfold stores :
  toDesiredSchema stores
  = fold_left (fun schemas store =>
                 JsMap.set schemas (store_name store) (desiredStoreOf store))
              stores JsMap.empty.
Proof. reflexivity. Qed.

(** A map that is filled from the keys of another, one [set] per key. *)
Lemma fold_get_set (A B : Type) (m : JsMap.t A) (g : string -> A -> B) :
  forall (l : JsMap.t A) (acc : JsMap.t B),
    (forall k v, In (k, v) l -> JsMap.get m k = Some v) ->
    NoDup (JsMap.keys acc ++ JsMap.keys l) ->
    fold_left (fun acc k =>
                 match JsMap.get m k with
                 | None => acc
                 | Some v => JsMap.set acc k (g k v)
                 end) (JsMap.keys l) acc
    = acc ++ map (fun kv => (fst kv, g (fst kv) (snd kv))) l.
Proof.
  induction l as [|[k v] l IH]; intros acc Hin Hnd; simpl.
  - now rewrite app_nil_r.
  - simpl in Hnd. rewrite (Hin k v) by now left.
    assert (Hk : JsMap.has acc k = false).
    { destruct (JsMap.has acc k) eqn:E; [|reflexivity].
      apply JsMap_has_keys in E. apply NoDup_remove_2 in Hnd.
      exfalso. apply Hnd. apply in_or_app. now left. }
    rewrite JsMap_set_absent by exact Hk.
    rewrite IH.
    + now rewrite <- app_assoc.
    + intros k' v' H. apply Hin. now right.
    + unfold JsMap.keys in *. rewrite map_app. simpl.
      now rewrite <- app_assoc.
Qed.

Lemma fold_set_all (A B : Type) (key : A -> string) (val : A -> B) :
  forall (l : list A) (acc : JsMap.t B),
    NoDup (JsMap.keys acc ++ map key l) ->
    fold_left (fun acc x => JsMap.set acc (key x) (val x)) l acc
    = acc ++ map (fun x => (key x, val x)) l.
Proof.
  induction l as [|x l IH]; intros acc Hnd; simpl.
  - now rewrite app_nil_r.
  - simpl in Hnd.
    assert (Hk : JsMap.has acc (key x) = false).
    { destruct (JsMap.has acc (key x)) eqn:E; [|reflexivity].
      apply JsMap_has_keys in E. apply NoDup_remove_2 in Hnd.
      exfalso. apply Hnd. apply in_or_app. now left. }
    rewrite JsMap_set_absent by exact Hk.
    rewrite IH.
    + now rewrite <- app_assoc.
    + unfold JsMap.keys in *. rewrite map_app. simpl.
      now rewrite <- app_assoc.
Qed.

Lemma JsMap_get_map (A B : Type) (g : string -> A -> B) (m : JsMap.t A) k :
  JsMap.get (map (fun kv => (fst kv, g (fst kv) (snd kv))) m) k
  = option_map (g k) (JsMap.get m k).
Proof.
  induction m as [|[k' v] m IH]; simpl; [reflexivity|].
  destruct (String.eqb k' k) eqn:E; [|exact IH].
  apply String.eqb_eq in E. now subst.
Qed.

Lemma JsMap_keys_map (A B : Type) (g : string -> A -> B) (m : JsMap.t A) :
  JsMap.keys (map (fun kv => (fst kv, g (fst kv) (snd kv))) m) = JsMap.keys m.
Proof.
  unfold JsMap.keys. rewrite map_map. reflexivity.
Qed.

Lemma JsMap_get_filter (A : Type) (p : string -> bool) (m : JsMap.t A) k :
  JsMap.get (filter (fun kv => p (fst kv)) m) k
  = if p k then JsMap.get m k else None.
Proof.
  induction m as [|[k' v] m IH]; simpl; [now destruct (p k)|].
  destruct (p k') eqn:Ep; simpl.
  - destruct (String.eqb k' k) eqn:E; [|exact IH].
    apply String.eqb_eq in E. subst. now rewrite Ep.
  - rewrite IH. destruct (String.eqb k' k) eqn:E; [|reflexivity].
    apply String.eqb_eq in E. subst. now rewrite Ep.
Qed.

Lemma JsMap_keys_filter (A : Type) (p : string -> bool) (m : JsMap.t A) :
  JsMap.keys (filter (fun kv => p (fst kv)) m) = filter p (JsMap.keys m).
Proof.
  unfold JsMap.keys. induction m as [|[k v] m IH]; simpl; [reflexivity|].
  destruct (p k); simpl; now rewrite IH.
Qed.

Lemma NoDup_filter_keys (p : string -> bool) (l : list string) :
  NoDup l -> NoDup (filter p l).
Proof.
  induction 1 as [|x l Hx Hl IH]; simpl; [constructor|].
  destruct (p x); [|exact IH]. constructor; [|exact IH].
  intros H. apply filter_In in H. tauto.
Qed.

Lemma existingIndexes_map name store :
  JsMap.wf (os_indexes store) ->
  es_indexes (existingStoreOf name store)
  = map (fun kv => (fst kv, existingIndexOf (snd kv))) (os_indexes store).
Proof.
  intros Hwf. cbn [existingStoreOf es_indexes]. unfold indexNames.
  apply (@fold_get_set IDBIndex ExistingIndex (os_indexes store)
           (fun _ ix => existingIndexOf ix) (os_indexes store) []).
  - intros k v H. now apply JsMap_In_get.
  - exact Hwf.
Qed.

Lemma existingIndexes_get name store k :
  JsMap.wf (os_indexes store) ->
  JsMap.get (es_indexes (existingStoreOf name store)) k
  = option_map existingIndexOf (JsMap.get (os_indexes store) k).
Proof.
  intros Hwf. rewrite existingIndexes_map by exact Hwf.
  apply (@JsMap_get_map IDBIndex ExistingIndex (fun _ ix => existingIndexOf ix)).
Qed.

Lemma existingIndexes_keys name store :
  JsMap.wf (os_indexes store) ->
  JsMap.keys (es_indexes (existingStoreOf name store))
  = JsMap.keys (os_indexes store).
Proof.
  intros Hwf. rewrite existingIndexes_map by exact Hwf.
  apply (@JsMap_keys_map IDBIndex ExistingIndex (fun _ ix => existingIndexOf ix)).
Qed.

Lemma readExistingSchema_map db :
  JsMap.wf (db_stores db) ->
  readExistingSchema db
  = map (fun kv => (fst kv, existingStoreOf (fst kv) (snd kv)))
        (filter (fun kv => negb (isInternalStore (fst kv))) (db_stores db)).
Proof.
  intros Hwf. rewrite readExistingSchema_unfold. unfold objectStoreNames.
  rewrite <- (@JsMap_keys_filter IDBObjectStore
                (fun name => negb (isInternalStore name))).
  apply (@fold_get_set IDBObjectStore ExistingStoreSchema (db_stores db)
           existingStoreOf).
  - intros k v H. apply filter_In in H as [H _]. now apply JsMap_In_get.
  - simpl.
    rewrite (@JsMap_keys_filter IDBObjectStore
               (fun name => negb (isInternalStore name))).
    now apply NoDup_filter_keys.
Qed.

Lemma readExistingSchema_get db name :
  JsMap.wf (db_stores db) ->
  JsMap.get (readExistingSchema db) name
  = if isInternalStore name then None
    else option_map (existingStoreOf name) (JsMap.get (db_stores db) name).
Proof.
  intros Hwf. rewrite readExistingSchema_map by exact Hwf.
  rewrite JsMap_get_map.
  rewrite (@JsMap_get_filter IDBObjectStore
             (fun name => negb (isInternalStore name))).
  now destruct (isInternalStore name).
Qed.

Lemma readExistingSchema_keys_filter db :
  JsMap.wf (db_stores db) ->
  JsMap.keys (readExistingSchema db)
  = filter (fun name => negb (isInternalStore name)) (JsMap.keys (db_stores db)).
Proof.
  intros Hwf. rewrite readExistingSchema_map by exact Hwf.
  rewrite JsMap_keys_map.
  apply (@JsMap_keys_filter IDBObjectStore
           (fun name => negb (isInternalStore name))).
Qed.

Lemma for_each_app_ok (A : Type) (l1 l2 : list A) (body : A -> M unit) :
  forall u u1,
    for_each l1 body u = (Ok tt, u1) ->
    for_each (l1 ++ l2) body u = for_each l2 body u1.
Proof.
  induction l1 as [|x l1 IH]; intros u u1; simpl.
  - unfold ret. now intros [= <-].
  - unfold bind. destruct (body x u) as [[[]|e] u']; [apply IH|discriminate].
Qed.

Lemma for_each_map (A B : Type) (f : A -> B) (l : list A) (body : B -> M unit) :
  forall u, for_each (map f l) body u = for_each l (fun x => body (f x)) u.
Proof.
  induction l as [|x l IH]; intros u; simpl; [reflexivity|].
  unfold bind. destruct (body (f x) u) as [[[]|e] u']; [apply IH|reflexivity].
Qed.

Lemma JsMap_wf_remove (V : Type) (m : JsMap.t V) k :
  JsMap.wf m -> JsMap.wf (JsMap.remove m k).
Proof.
  unfold JsMap.wf, JsMap.keys.
  induction m as [|[k0 v0] m IH]; simpl; [auto|].
  intros Hnd. inversion Hnd as [|? ? Hnotin Hnd']; subst.
  destruct (String.eqb k0 k); [exact Hnd'|]. simpl.
  constructor; [|now apply IH].
  intros H. apply Hnotin. now apply (@JsMap_keys_remove_subset V m k k0).
Qed.

Lemma JsMap_get_none_has (V : Type) (m : JsMap.t V) k :
  JsMap.has m k = false <-> JsMap.get m k = None.
Proof.
  unfold JsMap.has. destruct (JsMap.get m k); split; (reflexivity || discriminate).
Qed.

Lemma same_keyPath_refl a : same_keyPath a a.
Proof. apply keyPathEquals_spec. apply keyPathEquals_refl. Qed.

Lemma store_rebuild store :
  {| os_keyPath := os_keyPath store; os_indexes := os_indexes store;
     os_records := os_records store |} = store.
Proof. now destruct store. Qed.

Lemma unchanged_state u name store :
  JsMap.get (up_stores u) name = Some store ->
  with_stores u
    (JsMap.set (up_stores u) name
       {| os_keyPath := os_keyPath store; os_indexes := os_indexes store;
          os_records := os_records store |}) = u.
Proof.
  intros Hg. rewrite store_rebuild.
  rewrite JsMap_set_get by exact Hg. apply with_stores_same.
Qed.

Lemma createIndex_active u name store indexName keyPath unique multiEntry :
  up_aborted u = false ->
  JsMap.get (up_stores u) name = Some store ->
  JsMap.has (os_indexes store) indexName = false ->
  store_createIndex name indexName keyPath unique multiEntry u
  = (Ok tt,
     with_stores u
       (JsMap.set (up_stores u) name
          {| os_keyPath := os_keyPath store;
             os_indexes :=
               JsMap.set (os_indexes store) indexName
                 {| ix_keyPath := keyPath; ix_unique := unique;
                    ix_multiEntry := multiEntry |};
             os_records := os_records store |})).
Proof.
  intros Ha Hg Hh. unfold store_createIndex.
  apply update_store_active with (store := store); [exact Ha|exact Hg|].
  now rewrite Hh.
Qed.

Lemma deleteIndex_active u name store indexName :
  up_aborted u = false ->
  JsMap.get (up_stores u) name = Some store ->
  JsMap.has (os_indexes store) indexName = true ->
  store_deleteIndex name indexName u
  = (Ok tt,
     with_stores u
       (JsMap.set (up_stores u) name
          {| os_keyPath := os_keyPath store;
             os_indexes := JsMap.remove (os_indexes store) indexName;
             os_records := os_records store |})).
Proof.
  intros Ha Hg Hh. unfold store_deleteIndex.
  apply update_store_active with (store := store); [exact Ha|exact Hg|].
  now rewrite Hh.
Qed.

Lemma createdIndex_agrees d : index_agrees (existingIndexOf (createdIndex d)) d.
Proof. repeat split. apply same_keyPath_refl. Qed.

(** What the changes reported for one declared index do to the store. *)
Lemma index_block stores u name store es d :
  up_aborted u = false ->
  JsMap.get (up_stores u) name = Some store ->
  JsMap.wf (os_indexes store) ->
  JsMap.get (es_indexes es) (idx_name d)
  = option_map existingIndexOf (JsMap.get (os_indexes store) (idx_name d)) ->
  exists indexes',
    for_each (indexChanges name es d) (applyChange stores) u
    = (Ok tt,
       with_stores u
         (JsMap.set (up_stores u) name
            {| os_keyPath := os_keyPath store; os_indexes := indexes';
               os_records := os_records store |}))
    /\ JsMap.wf indexes'
    /\ (exists ix, JsMap.get indexes' (idx_name d) = Some ix
                   /\ index_agrees (existingIndexOf ix) d)
    /\ (forall k, k <> idx_name d ->
                  JsMap.get indexes' k = JsMap.get (os_indexes store) k).
Proof.
  intros Ha Hg Hwf He. unfold indexChanges. rewrite He.
  destruct (JsMap.get (os_indexes store) (idx_name d)) as [ix|] eqn:Ei;
    cbn [option_map].
  - match goal with
    | |- context [if ?c then _ else _] => destruct c eqn:Ec
    end.
    + exists (JsMap.set (JsMap.remove (os_indexes store) (idx_name d))
                        (idx_name d) (createdIndex d)).
      assert (Hh : JsMap.has (os_indexes store) (idx_name d) = true)
        by (unfold JsMap.has; now rewrite Ei).
      split; [|split; [|split]].
      * cbn [for_each applyChange]. unfold bind at 1.
        rewrite (@deleteIndex_active u name store (idx_name d) Ha Hg Hh).
        unfold bind at 1.
        erewrite createIndex_active;
          [|exact Ha|apply JsMap_get_set_same|
           cbn [os_indexes]; now apply JsMap_has_remove_same].
        unfold ret. cbn [os_keyPath os_indexes os_records up_stores with_stores].
        now rewrite JsMap_set_set.
      * apply JsMap_wf_set. now apply JsMap_wf_remove.
      * exists (createdIndex d). split; [apply JsMap_get_set_same|].
        apply createdIndex_agrees.
      * intros k Hk. rewrite JsMap_get_set_other by congruence.
        apply JsMap_get_remove_other. congruence.
    + exists (os_indexes store). split; [|split; [|split]].
      * cbn [for_each]. unfold ret. now rewrite unchanged_state.
      * exact Hwf.
      * exists ix. split; [exact Ei|].
        apply orb_false_iff in Ec as [Ec Em].
        apply orb_false_iff in Ec as [Ek Eu].
        apply negb_false_iff in Ek, Eu, Em.
        cbn [existingIndexOf ei_keyPath ei_unique ei_multiEntry] in *.
        repeat split.
        -- now apply keyPathEquals_spec.
        -- now apply Bool.eqb_prop.
        -- now apply Bool.eqb_prop.
      * reflexivity.
  - exists (JsMap.set (os_indexes store) (idx_name d) (createdIndex d)).
    assert (Hh : JsMap.has (os_indexes store) (idx_name d) = false)
      by (unfold JsMap.has; now rewrite Ei).
    split; [|split; [|split]].
    + cbn [for_each applyChange]. unfold bind at 1.
      rewrite (@createIndex_active u name store (idx_name d) _ _ _ Ha Hg Hh).
      reflexivity.
    + now apply JsMap_wf_set.
    + exists (createdIndex d). split; [apply JsMap_get_set_same|].
      apply createdIndex_agrees.
    + intros k Hk. apply JsMap_get_set_other. congruence.
Qed.

(** The changes reported for all declared indexes of a store. *)
Lemma index_blocks stores name es :
  forall L u store,
    up_aborted u = false ->
    JsMap.get (up_stores u) name = Some store ->
    JsMap.wf (os_indexes store) ->
    NoDup (map idx_name L) ->
    (forall d, In d L ->
       JsMap.get (es_indexes es) (idx_name d)
       = option_map existingIndexOf (JsMap.get (os_indexes store) (idx_name d))) ->
    exists indexes',
      for_each (flat_map (indexChanges name es) L) (applyChange stores) u
      = (Ok tt,
         with_stores u
           (JsMap.set (up_stores u) name
              {| os_keyPath := os_keyPath store; os_indexes := indexes';
                 os_records := os_records store |}))
      /\ JsMap.wf indexes'
      /\ (forall d, In d L ->
            exists ix, JsMap.get indexes' (idx_name d) = Some ix
                       /\ index_agrees (existingIndexOf ix) d)
      /\ (forall k, ~ In k (map idx_name L) ->
                    JsMap.get indexes' k = JsMap.get (os_indexes store) k).
Proof.
  induction L as [|d L IH]; intros u store Ha Hg Hwf Hnd He.
  - exists (os_indexes store). split; [|split; [|split]].
    + cbn [flat_map for_each]. unfold ret. now rewrite unchanged_state.
    + exact Hwf.
    + intros d [].
    + reflexivity.
  - cbn [map] in Hnd. inversion Hnd as [|? ? Hd HndL]; subst.
    destruct (@index_block stores u name store es d Ha Hg Hwf
                (He d (or_introl eq_refl)))
      as (I1 & Hrun1 & Hwf1 & Hag1 & Hoth1).
    set (store1 := {| os_keyPath := os_keyPath store; os_indexes := I1;
                      os_records := os_records store |}) in *.
    set (u1 := with_stores u (JsMap.set (up_stores u) name store1)) in *.
    destruct (IH u1 store1) as (I2 & Hrun2 & Hwf2 & Hag2 & Hoth2).
    + exact Ha.
    + apply JsMap_get_set_same.
    + exact Hwf1.
    + exact HndL.
    + intros d' Hd'. cbn [store1 os_indexes].
      rewrite Hoth1; [apply He; now right|].
      intros E. apply Hd. rewrite <- E. now apply in_map.
    + exists I2. split; [|split; [|split]].
      * cbn [flat_map]. rewrite (@for_each_app_ok _ _ _ _ _ _ Hrun1). fold u1.
        rewrite Hrun2.
        cbn [u1 store1 os_keyPath os_records up_stores with_stores].
        now rewrite JsMap_set_set.
      * exact Hwf2.
      * intros d' [<-|Hd'].
        -- destruct Hag1 as (ix & Hix & Hag). exists ix. split; [|exact Hag].
           rewrite Hoth2 by exact Hd. exact Hix.
        -- now apply Hag2.
      * intros k Hk.
        rewrite Hoth2 by (intros H; apply Hk; now right).
        cbn [store1 os_indexes].
        apply Hoth1. intros E. apply Hk. left. now symmetry.
Qed.

(** Deleting indexes that are all there, each once. *)
Lemma index_deletes stores name :
  forall ks u store,
    up_aborted u = false ->
    JsMap.get (up_stores u) name = Some store ->
    JsMap.wf (os_indexes store) ->
    NoDup ks ->
    (forall k, In k ks -> JsMap.has (os_indexes store) k = true) ->
    exists indexes',
      for_each (map (index_delete name) ks) (applyChange stores) u
      = (Ok tt,
         with_stores u
           (JsMap.set (up_stores u) name
              {| os_keyPath := os_keyPath store; os_indexes := indexes';
                 os_records := os_records store |}))
      /\ JsMap.wf indexes'
      /\ (forall k, In k ks -> JsMap.get indexes' k = None)
      /\ (forall k, ~ In k ks ->
                    JsMap.get indexes' k = JsMap.get (os_indexes store) k).
Proof.
  induction ks as [|k ks IH]; intros u store Ha Hg Hwf Hnd Hin.
  - exists (os_indexes store). split; [|split; [|split]].
    + cbn [map for_each]. unfold ret. now rewrite unchanged_state.
    + exact Hwf.
    + intros k [].
    + reflexivity.
  - inversion Hnd as [|? ? Hk Hndks]; subst.
    set (store1 := {| os_keyPath := os_keyPath store;
                      os_indexes := JsMap.remove (os_indexes store) k;
                      os_records := os_records store |}).
    set (u1 := with_stores u (JsMap.set (up_stores u) name store1)).
    destruct (IH u1 store1) as (I2 & Hrun2 & Hwf2 & Hgone2 & Hoth2).
    + exact Ha.
    + apply JsMap_get_set_same.
    + cbn [store1 os_indexes]. now apply JsMap_wf_remove.
    + exact Hndks.
    + intros k' Hk'. cbn [store1 os_indexes].
      rewrite JsMap_has_remove_other by (intros E; now subst).
      apply Hin. now right.
    + exists I2. split; [|split; [|split]].
      * cbn [map for_each applyChange]. unfold bind at 1.
        rewrite (@deleteIndex_active u name store k Ha Hg
                   (Hin k (or_introl eq_refl))).
        fold store1. fold u1. rewrite Hrun2.
        cbn [u1 store1 os_keyPath os_records up_stores with_stores].
        now rewrite JsMap_set_set.
      * exact Hwf2.
      * intros k' [<-|Hk'].
        -- rewrite Hoth2 by exact Hk. cbn [store1 os_indexes].
           apply JsMap_get_none_has. now apply JsMap_has_remove_same.
        -- now apply Hgone2.
      * intros k' Hk'. rewrite Hoth2 by (intros H; apply Hk'; now right).
        cbn [store1 os_indexes]. apply JsMap_get_remove_other.
        intros E. apply Hk'. now left.
Qed.

(** A store that exists with the declared keyPath: after the index
    changes reported for it, it is what the declaration says. *)
Lemma existing_store_block stores u name store ds :
  up_aborted u = false ->
  JsMap.get (up_stores u) name = Some store ->
  JsMap.wf (os_indexes store) ->
  NoDup (map idx_name (ds_indexes ds)) ->
  keyPathEquals (os_keyPath store) (ds_keyPath ds) = true ->
  exists store',
    for_each (flat_map (indexChanges name (existingStoreOf name store))
                       (ds_indexes ds)
              ++ deletedIndexChanges name (existingStoreOf name store) ds)
             (applyChange stores) u
    = (Ok tt, with_stores u (JsMap.set (up_stores u) name store'))
    /\ JsMap.wf (os_indexes store')
    /\ store_agrees (existingStoreOf name store') ds
    /\ os_keyPath store' = os_keyPath store
    /\ os_records store' = os_records store.
Proof.
  intros Ha Hg Hwf Hnd Hkp.
  destruct (@index_blocks stores name (existingStoreOf name store)
              (ds_indexes ds) u store Ha Hg Hwf Hnd)
    as (I1 & Hrun1 & Hwf1 & Hag1 & Hoth1).
  { intros d _. now apply existingIndexes_get. }
  set (store1 := {| os_keyPath := os_keyPath store; os_indexes := I1;
                    os_records := os_records store |}) in *.
  set (u1 := with_stores u (JsMap.set (up_stores u) name store1)) in *.
  set (names := map idx_name (ds_indexes ds)) in *.
  set (ks := filter (fun k => negb (set_has names k))
                    (JsMap.keys (os_indexes store))).
  assert (Hdel : deletedIndexChanges name (existingStoreOf name store) ds
                 = map (index_delete name) ks).
  { unfold deletedIndexChanges.
    rewrite (@fold_left_push_if string SchemaChangeType
               (fun k => negb (set_has (map idx_name (ds_indexes ds)) k))
               (index_delete name)).
    cbn [app]. now rewrite existingIndexes_keys by exact Hwf. }
  assert (Hks : forall k, In k ks <->
                          In k (JsMap.keys (os_indexes store)) /\ ~ In k names).
  { intros k. unfold ks. rewrite filter_In, negb_true_iff.
    rewrite <- (set_has_In names k).
    destruct (set_has names k); intuition congruence. }
  destruct (@index_deletes stores name ks u1 store1)
    as (I2 & Hrun2 & Hwf2 & Hgone2 & Hoth2).
  { exact Ha. }
  { apply JsMap_get_set_same. }
  { exact Hwf1. }
  { now apply NoDup_filter_keys. }
  { intros k Hk. apply Hks in Hk as [Hk Hn]. cbn [store1 os_indexes].
    unfold JsMap.has. rewrite Hoth1 by exact Hn.
    apply JsMap_has_keys in Hk. exact Hk. }
  exists {| os_keyPath := os_keyPath store; os_indexes := I2;
            os_records := os_records store |}.
  split; [|split; [|split; [|split; reflexivity]]].
  - rewrite (@for_each_app_ok _ _ _ _ _ _ Hrun1). fold u1.
    rewrite Hdel, Hrun2.
    cbn [u1 store1 os_keyPath os_records up_stores with_stores].
    now rewrite JsMap_set_set.
  - exact Hwf2.
  - unfold store_agrees. cbn [existingStoreOf es_keyPath os_keyPath].
    split; [now apply keyPathEquals_spec|]. split.
    + intros d Hd.
      destruct (Hag1 d Hd) as (ix & Hix & Hag).
      exists (existingIndexOf ix). split; [|exact Hag].
      change (JsMap.get
                (es_indexes
                   (existingStoreOf name
                      {| os_keyPath := os_keyPath store; os_indexes := I2;
                         os_records := os_records store |})) (idx_name d)
              = Some (existingIndexOf ix)).
      rewrite existingIndexes_get by exact Hwf2. cbn [os_indexes].
      rewrite Hoth2.
      * cbn [store1 os_indexes]. now rewrite Hix.
      * intros Hk. apply Hks in Hk as [_ Hn]. apply Hn.
        unfold names. now apply in_map.
    + intros k Hk.
      change (In k (JsMap.keys
                      (es_indexes
                         (existingStoreOf name
                            {| os_keyPath := os_keyPath store; os_indexes := I2;
                               os_records := os_records store |})))) in Hk.
      rewrite existingIndexes_keys in Hk by exact Hwf2. cbn [os_indexes] in Hk.
      apply JsMap_has_keys in Hk. unfold JsMap.has in Hk.
      destruct (in_dec string_dec k names) as [Hn|Hn]; [exact Hn|exfalso].
      destruct (in_dec string_dec k ks) as [Hd|Hd].
      * now rewrite (Hgone2 k Hd) in Hk.
      * rewrite (Hoth2 k Hd) in Hk. cbn [store1 os_indexes] in Hk.
        rewrite (Hoth1 k Hn) in Hk. apply Hd. apply Hks. split; [|exact Hn].
        apply JsMap_has_keys. exact Hk.
Qed.

Lemma find_by_name stores def :
  NoDup (map store_name stores) ->
  In def stores ->
  find (fun s => String.eqb (store_name s) (store_name def)) stores = Some def.
Proof.
  induction stores as [|s stores IH]; simpl; [tauto|].
  intros Hnd [->|Hin].
  - now rewrite String.eqb_refl.
  - inversion Hnd as [|? ? Hs Hnd']; subst.
    destruct (String.eqb (store_name s) (store_name def)) eqn:E; [|now apply IH].
    apply String.eqb_eq in E. exfalso. apply Hs. rewrite E. now apply in_map.
Qed.

Lemma createdStore_wf def :
  NoDup (map idx_name (store_indexes def)) ->
  JsMap.wf (os_indexes (createdStore def)).
Proof.
  intros Hnd. unfold JsMap.wf, JsMap.keys, createdStore. cbn [os_indexes].
  now rewrite map_map.
Qed.

(** Creating a store from its declaration, when the name is free. *)
Lemma createStore_active u def :
  up_aborted u = false ->
  JsMap.has (up_stores u) (store_name def) = false ->
  NoDup (map idx_name (store_indexes def)) ->
  createStoreFromDefinition def u
  = (Ok tt,
     with_stores u (JsMap.set (up_stores u) (store_name def) (createdStore def))).
Proof.
  intros Ha Hh Hnd.
  pose proof (createdStore_wf def Hnd) as Hwf.
  set (blank := {| os_keyPath := store_keyPath def; os_indexes := JsMap.empty;
                   os_records := JsMap.empty |}).
  unfold createStoreFromDefinition. unfold bind at 1.
  rewrite db_createObjectStore_active; [|exact Ha|exact Hh].
  fold blank. rewrite <- JsMap_set_absent by exact Hh.
  set (u1 := with_stores u (JsMap.set (up_stores u) (store_name def) blank)).
  transitivity
    (for_each (os_indexes (createdStore def))
       (fun idx =>
          store_createIndex (store_name def) (fst idx) (ix_keyPath (snd idx))
            (ix_unique (snd idx)) (ix_multiEntry (snd idx))) u1).
  { symmetry.
    apply (@for_each_map IndexDefinition (string * IDBIndex)
             (fun d => (idx_name d, createdIndex d)) (store_indexes def)
             (fun idx =>
                store_createIndex (store_name def) (fst idx)
                  (ix_keyPath (snd idx)) (ix_unique (snd idx))
                  (ix_multiEntry (snd idx))) u1). }
  rewrite (@createIndexes_active (os_indexes (createdStore def)) u1
             (store_name def) blank Ha (JsMap_get_set_same _ _ _))
    by exact Hwf.
  cbn [u1 blank os_keyPath os_indexes os_records up_stores with_stores].
  change (JsMap.empty ++ os_indexes (createdStore def))
    with (os_indexes (createdStore def)).
  now rewrite JsMap_set_set.
Qed.

(** A store created from its declaration is what the declaration says. *)
Lemma createdStore_agrees name def :
  NoDup (map idx_name (store_indexes def)) ->
  store_agrees (existingStoreOf name (createdStore def)) (desiredStoreOf def).
Proof.
  intros Hnd. pose proof (createdStore_wf def Hnd) as Hwf.
  unfold store_agrees.
  split; [apply same_keyPath_refl|]. split.
  - intros d Hd. exists (existingIndexOf (createdIndex d)).
    split; [|apply createdIndex_agrees].
    rewrite existingIndexes_get by exact Hwf.
    rewrite (@JsMap_In_get IDBIndex (os_indexes (createdStore def))
               (idx_name d) (createdIndex d) Hwf);
      [reflexivity|].
    cbn [createdStore os_indexes]. apply in_map_iff. now exists d.
  - intros k Hk.
    rewrite existingIndexes_keys in Hk by exact Hwf.
    unfold JsMap.keys, createdStore in Hk. cbn [os_indexes] in Hk.
    now rewrite map_map in Hk.
Qed.

(** A declared store that is not there yet: it is created as declared. *)
Lemma store_add_block stores u def :
  up_aborted u = false ->
  JsMap.has (up_stores u) (store_name def) = false ->
  find (fun s => String.eqb (store_name s) (store_name def)) stores = Some def ->
  NoDup (map idx_name (store_indexes def)) ->
  exists store',
    applyChange stores (store_add (store_name def)) u
    = (Ok tt, with_stores u (JsMap.set (up_stores u) (store_name def) store'))
    /\ JsMap.wf (os_indexes store')
    /\ store_agrees (existingStoreOf (store_name def) store') (desiredStoreOf def).
Proof.
  intros Ha Hh Hfind Hnd. exists (createdStore def). split; [|split].
  - cbn [applyChange]. rewrite Hfind. now apply createStore_active.
  - now apply createdStore_wf.
  - now apply createdStore_agrees.
Qed.

Lemma storeChanges_some existing name ds es :
  JsMap.get existing name = Some es ->
  storeChanges existing (name, ds)
  = if negb (keyPathEquals (es_keyPath es) (ds_keyPath ds))
    then ([], [keypath_change name (es_keyPath es) (ds_keyPath ds)])
    else (flat_map (indexChanges name es) (ds_indexes ds)
            ++ deletedIndexChanges name es ds, []).
Proof.
  intros H. unfold storeChanges. rewrite H.
  now rewrite (@fold_left_push IndexDefinition SchemaChangeType
                 (indexChanges name es)).
Qed.

Lemma storeChanges_none existing name ds :
  JsMap.get existing name = None ->
  storeChanges existing (name, ds) = ([store_add name], []).
Proof. intros H. unfold storeChanges. now rewrite H. Qed.

Lemma storeChanges_agreed existing name ds es :
  JsMap.get existing name = Some es ->
  store_agrees es ds ->
  storeChanges existing (name, ds) = ([], []).
Proof.
  intros Hg Hag.
  destruct (proj2 (storeChanges_nil_iff existing name ds)) as [H1 H2].
  { now exists es. }
  destruct (storeChanges existing (name, ds)) as [a b].
  simpl in H1, H2. now subst.
Qed.

(** What the safe changes reported for one declared store do. *)
Lemma entry_block stores existing u name ds :
  up_aborted u = false ->
  JsMap.wf (up_stores u) ->
  (forall k s, JsMap.get (up_stores u) k = Some s -> JsMap.wf (os_indexes s)) ->
  JsMap.get existing name
  = option_map (existingStoreOf name) (JsMap.get (up_stores u) name) ->
  NoDup (map idx_name (ds_indexes ds)) ->
  (exists def,
      find (fun s => String.eqb (store_name s) name) stores = Some def
      /\ store_name def = name /\ ds = desiredStoreOf def) ->
  exists S1,
    for_each (fst (storeChanges existing (name, ds))) (applyChange stores) u
    = (Ok tt, with_stores u S1)
    /\ JsMap.wf S1
    /\ (forall k s, JsMap.get S1 k = Some s -> JsMap.wf (os_indexes s))
    /\ (forall k, k <> name -> JsMap.get S1 k = JsMap.get (up_stores u) k)
    /\ (exists store',
          JsMap.get S1 name = Some store'
          /\ (forall store, JsMap.get (up_stores u) name = Some store ->
                os_keyPath store' = os_keyPath store
                /\ os_records store' = os_records store)
          /\ forall existing',
               JsMap.get existing' name = Some (existingStoreOf name store') ->
               storeChanges existing' (name, ds)
               = ([], snd (storeChanges existing (name, ds))))
    /\ (forall p : string -> bool,
          p name = false ->
          filter p (JsMap.keys S1) = filter p (JsMap.keys (up_stores u))).
Proof.
  intros Ha Hwf Hall He Hnd (def & Hfind & Hname & Hds).
  destruct (JsMap.get (up_stores u) name) as [store|] eqn:Eg;
    cbn [option_map] in He.
  - rewrite (@storeChanges_some existing name ds _ He).
    cbn [existingStoreOf es_keyPath].
    destruct (keyPathEquals (os_keyPath store) (ds_keyPath ds)) eqn:Ek;
      cbn [negb fst snd].
    + destruct (@existing_store_block stores u name store ds Ha Eg
                  (Hall _ _ Eg) Hnd Ek)
        as (store' & Hrun & Hwf' & Hag & Hkp & Hrec).
      exists (JsMap.set (up_stores u) name store').
      split; [exact Hrun|]. split; [now apply JsMap_wf_set|]. split; [|split; [|split]].
      * intros k s. destruct (string_dec name k) as [<-|Hk].
        -- rewrite JsMap_get_set_same. now intros [= <-].
        -- rewrite JsMap_get_set_other by exact Hk. apply Hall.
      * intros k Hk. apply JsMap_get_set_other. congruence.
      * exists store'. split; [apply JsMap_get_set_same|]. split.
        -- intros store0 [= <-]. now split.
        -- intros existing' He'. now apply storeChanges_agreed with (es := existingStoreOf name store').
      * intros p Hp. rewrite JsMap_keys_set.
        unfold JsMap.has. now rewrite Eg.
    + exists (up_stores u).
      split; [cbn [for_each]; unfold ret; now rewrite with_stores_same|].
      split; [exact Hwf|]. split; [exact Hall|]. split; [reflexivity|].
      split; [|reflexivity].
      exists store. split; [exact Eg|]. split.
      * intros store0 [= <-]. now split.
      * intros existing' He'. rewrite (@storeChanges_some existing' name ds _ He').
        cbn [existingStoreOf es_keyPath]. now rewrite Ek.
  - rewrite (@storeChanges_none existing name ds He). cbn [fst snd]. subst name.
    assert (Hh : JsMap.has (up_stores u) (store_name def) = false)
      by (unfold JsMap.has; now rewrite Eg).
    subst ds. cbn [desiredStoreOf ds_indexes] in Hnd.
    destruct (@store_add_block stores u def Ha Hh Hfind Hnd)
      as (store' & Hrun & Hwf' & Hag).
    exists (JsMap.set (up_stores u) (store_name def) store').
    split; [|split; [|split; [|split; [|split]]]].
    + cbn [for_each]. unfold bind. rewrite Hrun. reflexivity.
    + now apply JsMap_wf_set.
    + intros k s. destruct (string_dec (store_name def) k) as [<-|Hk].
      * rewrite JsMap_get_set_same. now intros [= <-].
      * rewrite JsMap_get_set_other by exact Hk. apply Hall.
    + intros k Hk. apply JsMap_get_set_other. congruence.
    + exists store'. split; [apply JsMap_get_set_same|]. split.
      * intros store0 [=].
      * intros existing' He'.
        now apply storeChanges_agreed
          with (es := existingStoreOf (store_name def) store').
    + intros p Hp. rewrite JsMap_keys_set, Hh, filter_app. simpl.
      rewrite Hp. apply app_nil_r.
Qed.

(** The safe changes reported for a list of declared stores, applied in
    the order of the report. *)
Lemma entries_block stores existing :
  forall (R : JsMap.t DesiredStoreSchema) u,
    up_aborted u = false ->
    JsMap.wf (up_stores u) ->
    (forall k s, JsMap.get (up_stores u) k = Some s -> JsMap.wf (os_indexes s)) ->
    NoDup (JsMap.keys R) ->
    (forall name ds,
        In (name, ds) R ->
        JsMap.get existing name
        = option_map (existingStoreOf name) (JsMap.get (up_stores u) name)
        /\ NoDup (map idx_name (ds_indexes ds))
        /\ exists def,
            find (fun s => String.eqb (store_name s) name) stores = Some def
            /\ store_name def = name /\ ds = desiredStoreOf def) ->
    exists S',
      for_each (flat_map (fun entry => fst (storeChanges existing entry)) R)
               (applyChange stores) u
      = (Ok tt, with_stores u S')
      /\ JsMap.wf S'
      /\ (forall k s, JsMap.get S' k = Some s -> JsMap.wf (os_indexes s))
      /\ (forall k, ~ In k (JsMap.keys R) ->
                    JsMap.get S' k = JsMap.get (up_stores u) k)
      /\ (forall k store,
             JsMap.get (up_stores u) k = Some store ->
             exists store',
               JsMap.get S' k = Some store'
               /\ os_keyPath store' = os_keyPath store
               /\ os_records store' = os_records store)
      /\ (forall name ds,
             In (name, ds) R ->
             exists store',
               JsMap.get S' name = Some store'
               /\ forall existing',
                    JsMap.get existing' name
                    = Some (existingStoreOf name store') ->
                    storeChanges existing' (name, ds)
                    = ([], snd (storeChanges existing (name, ds))))
      /\ (forall p : string -> bool,
             (forall k, In k (JsMap.keys R) -> p k = false) ->
             filter p (JsMap.keys S') = filter p (JsMap.keys (up_stores u))).
Proof.
  induction R as [|[name ds] R IH]; intros u Ha Hwf Hall Hnd Hent.
  - exists (up_stores u).
    split; [cbn [flat_map for_each]; unfold ret; now rewrite with_stores_same|].
    split; [exact Hwf|]. split; [exact Hall|]. split; [reflexivity|].
    split; [|split; [intros ? ? []|reflexivity]].
    intros k store Hk. now exists store.
  - cbn [JsMap.keys map fst] in Hnd.
    inversion Hnd as [|? ? Hname HndR]; subst.
    destruct (Hent name ds (or_introl eq_refl)) as (He & Hidx & Hdef).
    destruct (@entry_block stores existing u name ds Ha Hwf Hall He Hidx Hdef)
      as (S1 & Hrun1 & Hwf1 & Hall1 & Hoth1 & (store1 & Hg1 & Hkeep1 & Hset1) & Hfil1).
    set (u1 := with_stores u S1) in *.
    destruct (IH u1) as (S2 & Hrun2 & Hwf2 & Hall2 & Hoth2 & Hkeep2 & Hset2 & Hfil2).
    + exact Ha.
    + exact Hwf1.
    + exact Hall1.
    + exact HndR.
    + intros n d Hin. destruct (Hent n d (or_intror Hin)) as (He' & Hrest).
      split; [|exact Hrest]. cbn [u1 up_stores with_stores].
      rewrite Hoth1; [exact He'|].
      intros E. subst n. apply Hname.
      change name with (fst (name, d)). now apply in_map.
    + exists S2. cbn [u1 up_stores with_stores] in *.
      split; [|split; [|split; [|split; [|split; [|split]]]]].
      * cbn [flat_map]. rewrite (@for_each_app_ok _ _ _ _ _ _ Hrun1).
        fold u1. exact Hrun2.
      * exact Hwf2.
      * exact Hall2.
      * intros k Hk. cbn [JsMap.keys map fst] in Hk.
        rewrite Hoth2 by (intros H; apply Hk; now right).
        apply Hoth1. intros ->. apply Hk. now left.
      * intros k store Hk.
        assert (H1 : exists s1, JsMap.get S1 k = Some s1
                                /\ os_keyPath s1 = os_keyPath store
                                /\ os_records s1 = os_records store).
        { destruct (string_dec k name) as [->|Hne].
          - exists store1. split; [exact Hg1|]. now apply Hkeep1.
          - exists store. rewrite (Hoth1 k Hne). now split. }
        destruct H1 as (s1 & Hs1 & Hkp1 & Hrec1).
        destruct (Hkeep2 k s1 Hs1) as (s2 & Hs2 & Hkp2 & Hrec2).
        exists s2. split; [exact Hs2|]. split; congruence.
      * intros n d [[= <- <-]|Hin].
        -- exists store1. split; [|exact Hset1].
           rewrite Hoth2 by exact Hname. exact Hg1.
        -- now apply Hset2.
      * intros p Hp. rewrite Hfil2.
        -- apply Hfil1. apply Hp. now left.
        -- intros k Hk. apply Hp. now right.
Qed.

Lemma toDesiredSchema_map stores :
  NoDup (map store_name stores) ->
  toDesiredSchema stores
  = map (fun store => (store_name store, desiredStoreOf store)) stores.
Proof.
  intros Hnd. rewrite toDesiredSchema_unfold.
  apply (@fold_set_all SchemaStoreDefinition DesiredStoreSchema
           store_name desiredStoreOf stores []).
  exact Hnd.
Qed.

Lemma filter_filter_and (A : Type) (p q : A -> bool) (l : list A) :
  filter p (filter q l) = filter (fun x => q x && p x) l.
Proof.
  induction l as [|x l IH]; simpl; [reflexivity|].
  destruct (q x); simpl; [|exact IH]. destruct (p x); now rewrite IH.
Qed.

Lemma flat_map_ext_on (A B : Type) (f g : A -> list B) (l : list A) :
  (forall x, In x l -> f x = g x) -> flat_map f l = flat_map g l.
Proof.
  induction l as [|x l IH]; intros H; simpl; [reflexivity|].
  rewrite (H x) by now left. rewrite IH; [reflexivity|].
  intros y Hy. apply H. now right.
Qed.

Lemma safe_has_no_rename existing desired :
  filter is_store_rename (safe (detectSchemaChanges existing desired)) = [].
Proof.
  apply filter_nil_iff. intros c Hc.
  rewrite detect_safe, in_flat_map in Hc. destruct Hc as (entry & _ & Hc).
  apply storeChanges_safe_kind in Hc. now destruct c.
Qed.

(** The state in which [applySafeChanges] leaves the upgrade of a
    well-formed database to a list of well-formed declarations. *)
Lemma applySafeChanges_settles db stores :
  JsMap.wf (db_stores db) ->
  (forall name store,
      JsMap.get (db_stores db) name = Some store -> JsMap.wf (os_indexes store)) ->
  NoDup (map store_name stores) ->
  (forall s, In s stores -> isInternalStore (store_name s) = false) ->
  (forall s, In s stores -> NoDup (map idx_name (store_indexes s))) ->
  exists S',
    applySafeChanges
      (safe (detectSchemaChanges (readExistingSchema db) (toDesiredSchema stores)))
      stores (begin_upgrade (Some db))
    = (Ok tt, with_stores (begin_upgrade (Some db)) S')
    /\ JsMap.wf S'
    /\ (forall k store,
           JsMap.get (db_stores db) k = Some store ->
           exists store',
             JsMap.get S' k = Some store'
             /\ os_keyPath store' = os_keyPath store
             /\ os_records store' = os_records store)
    /\ (forall name ds,
           In (name, ds) (toDesiredSchema stores) ->
           exists store',
             JsMap.get S' name = Some store'
             /\ isInternalStore name = false
             /\ forall existing',
                  JsMap.get existing' name = Some (existingStoreOf name store') ->
                  storeChanges existing' (name, ds)
                  = ([], snd (storeChanges (readExistingSchema db) (name, ds))))
    /\ (forall p : string -> bool,
           (forall k, In k (JsMap.keys (toDesiredSchema stores)) -> p k = false) ->
           filter p (JsMap.keys S') = filter p (JsMap.keys (db_stores db))).
Proof.
  intros Hwf Hall Hnd Hint Hidx.
  assert (Hentry : forall name ds,
             In (name, ds) (toDesiredSchema stores) ->
             exists def, In def stores /\ store_name def = name
                         /\ ds = desiredStoreOf def).
  { intros name ds Hin. rewrite toDesiredSchema_map in Hin by exact Hnd.
    apply in_map_iff in Hin as (def & [= <- <-] & Hdef). now exists def. }
  destruct (@entries_block stores (readExistingSchema db)
              (toDesiredSchema stores) (begin_upgrade (Some db)))
    as (S' & Hrun & Hwf' & Hall' & Hoth & Hkeep & Hset & Hfil).
  - reflexivity.
  - exact Hwf.
  - exact Hall.
  - apply toDesiredSchema_wf.
  - intros name ds Hin. destruct (Hentry name ds Hin) as (def & Hdef & <- & ->).
    split; [|split].
    + rewrite readExistingSchema_get by exact Hwf.
      now rewrite (Hint def Hdef).
    + now apply Hidx.
    + exists def. split; [now apply find_by_name|now split].
  - exists S'. split; [|split; [exact Hwf'|split; [exact Hkeep|split; [|exact Hfil]]]].
    + rewrite applySafeChanges_unfold, safe_has_no_rename.
      rewrite <- detect_safe in Hrun. exact Hrun.
    + intros name ds Hin. destruct (Hset name ds Hin) as (store' & Hg & Hs).
      exists store'. split; [exact Hg|]. split; [|exact Hs].
      destruct (Hentry name ds Hin) as (def & Hdef & <- & _). now apply Hint.
Qed.





(* ================================================================== *)
(** ** The fingerprint does not depend on the order of declaration *)
(* ================================================================== *)

Lemma js_sort_map_key (A : Type) (key : A -> string)
      (localeCompare : string -> string -> Z) (l : list A) :
  map key (js_sort (fun a b => localeCompare (key a) (key b)) l)
  = js_sort localeCompare (map key l).
Proof.
  induction l as [|x l IH]; simpl; [reflexivity|].
  rewrite <- IH.
  generalize (js_sort (fun a b => localeCompare (key a) (key b)) l) as s.
  induction s as [|y s IHs]; simpl; [reflexivity|].
  destruct (0 <? localeCompare (key x) (key y))%Z; simpl;
    [now rewrite IHs|reflexivity].
Qed.

(** Two arrangements of the same elements that show the same keys in the
    same places are the same list, when no key occurs twice. *)
Lemma perm_same_keys (A B : Type) (f : A -> B) :
  forall s1 s2,
    Permutation s1 s2 -> map f s1 = map f s2 -> NoDup (map f s1) -> s1 = s2.
Proof.
  induction s1 as [|a s1 IH]; intros [|b s2] Hp Hm Hnd; simpl in *;
    try discriminate; [reflexivity|].
  injection Hm as Hab Hm. inversion Hnd as [|? ? Ha Hnd']; subst.
  assert (E : a = b).
  { assert (Hin : In a (b :: s2))
      by (apply Permutation_in with (l := a :: s1); [assumption|now left]).
    destruct Hin as [->|Hin]; [reflexivity|].
    exfalso. apply Ha. rewrite Hm. now apply in_map. }
  subst b. f_equal. apply IH; [|assumption|assumption].
  now apply Permutation_cons_inv with (a := a).
Qed.

Section SortByKey.
Variable A : Type.
Variable key : A -> string.
Variable localeCompare : string -> string -> Z.
Hypothesis compare_total :
  forall a b, (0 < localeCompare a b)%Z -> name_le localeCompare b a.
Hypothesis compare_trans :
  forall a b c, name_le localeCompare a b -> name_le localeCompare b c ->
                name_le localeCompare a c.
Hypothesis compare_antisym :
  forall a b, name_le localeCompare a b -> name_le localeCompare b a -> a = b.

Lemma js_sort_key_perm l1 l2 :
  NoDup (map key l1) ->
  Permutation l1 l2 ->
  js_sort (fun a b => localeCompare (key a) (key b)) l1
  = js_sort (fun a b => localeCompare (key a) (key b)) l2.
Proof.
  intros Hnd Hp. apply perm_same_keys with (f := key).
  - rewrite !js_sort_perm. exact Hp.
  - rewrite !js_sort_map_key.
    apply js_sort_perm_unique; try assumption.
    now apply Permutation_map.
  - apply Permutation_NoDup with (l := map key l1); [|exact Hnd].
    apply Permutation_map. symmetry. apply js_sort_perm.
Qed.
End SortByKey.

Lemma normalizeIndex_names indexes :
  map ni_name (map normalizeIndex indexes) = map idx_name indexes.
Proof. rewrite map_map. reflexivity. Qed.

Lemma normalizeStore_names localeCompare stores :
  map ns_name (map (normalizeStore localeCompare) stores)
  = map store_name stores.
Proof. rewrite map_map. reflexivity. Qed.

(** The fingerprint of a schema does not depend on the order in which
    the stores are declared, nor on the order of the indexes within a
    store, nor on whether [unique] and [multiEntry] are left out or given
    as [false], nor on the migrations: when store names are distinct,
    index names are distinct within a store and [localeCompare] is a
    consistent total order, declarations that differ in these respects
    only are normalised to the same value, and so have the same
    fingerprint whatever [JSON.stringify] makes of it. *)
Theorem fingerprint_ignores_declaration_order :
  forall localeCompare,
    (forall a b, (0 < localeCompare a b)%Z -> name_le localeCompare b a) ->
    (forall a b c, name_le localeCompare a b -> name_le localeCompare b c ->
                   name_le localeCompare a c) ->
    (forall a b, name_le localeCompare a b -> name_le localeCompare b a ->
                 a = b) ->
    forall stores stores',
      NoDup (map store_name stores) ->
      (forall s, In s stores -> NoDup (map idx_name (store_indexes s))) ->
      reordered stores stores' ->
      normalizeSchema localeCompare stores = normalizeSchema localeCompare stores'
      /\ forall JSON_stringify,
           generateSchemaFingerprint localeCompare JSON_stringify stores
           = generateSchemaFingerprint localeCompare JSON_stringify stores'.
Proof.
  intros cmp Htotal Htrans Hantisym stores stores' Hnd Hidx (middle & Hsame & Hperm).
  assert (Hmid : map (normalizeStore cmp) stores = map (normalizeStore cmp) middle).
  { clear Hnd Hperm. induction Hsame as [|a b l l' (Hn & Hk & Hi) Hl IH];
      [reflexivity|].
    simpl. f_equal.
    - unfold normalizeStore. rewrite Hn, Hk. f_equal.
      apply (@js_sort_key_perm NormalizedIndex ni_name cmp Htotal Htrans Hantisym);
        [|exact Hi].
      rewrite normalizeIndex_names. apply Hidx. now left.
    - apply IH. intros s Hs. apply Hidx. now right. }
  assert (E : normalizeSchema cmp stores = normalizeSchema cmp stores').
  { unfold normalizeSchema. rewrite Hmid.
    apply (@js_sort_key_perm NormalizedStore ns_name cmp Htotal Htrans Hantisym).
    - rewrite <- Hmid, normalizeStore_names. exact Hnd.
    - now apply Permutation_map. }
  split; [exact E|].
  intros JSON_stringify. unfold generateSchemaFingerprint. now rewrite E.
Qed.

Lemma fingerprint_ignores_declaration_order_witness :
  normalizeSchema codeUnitCompare SampleEvolution.stores
  = normalizeSchema codeUnitCompare SampleEvolution.reorderedStores
  /\ forall JSON_stringify,
       generateSchemaFingerprint codeUnitCompare JSON_stringify
                                 SampleEvolution.stores
       = generateSchemaFingerprint codeUnitCompare JSON_stringify
                                   SampleEvolution.reorderedStores.
Proof.
  apply (@fingerprint_ignores_declaration_order codeUnitCompare
           codeUnitCompare_total codeUnitCompare_trans codeUnitCompare_antisym
           SampleEvolution.stores SampleEvolution.reorderedStores).
  - cbn. repeat constructor; cbn; intuition discriminate.
  - intros s [<-|[<-|[]]]; cbn;
      repeat constructor; cbn; intuition discriminate.
  - exists (rev SampleEvolution.reorderedStores). split.
    + cbn. repeat constructor; cbn; apply perm_swap || reflexivity.
    + cbn. apply perm_swap.
Defined.

(* ================================================================== *)
(** ** Creating a fresh database *)
(* ================================================================== *)

(** The loop of [handleUpgrade] over the declared stores, on a fresh
    database. *)
Lemma fresh_loop :
  forall L u,
    up_aborted u = false ->
    NoDup (JsMap.keys (up_stores u) ++ map store_name L) ->
    (forall s, In s L -> NoDup (map idx_name (store_indexes s))) ->
    for_each L
      (fun store =>
         db_createObjectStore (store_name store)
           (getKeyPathString (store_keyPath store)) ;;
         for_each (store_indexes store)
           (fun index =>
              store_createIndex (store_name store) (idx_name index)
                (idx_keyPath index)
                (nullish (idx_unique index) false)
                (nullish (idx_multiEntry index) false))) u
    = (Ok tt,
       with_stores u
         (up_stores u ++ map (fun s => (store_name s, createdStore s)) L)).
Proof.
  induction L as [|s L IH]; intros u Ha Hnd Hidx.
  - cbn [for_each map]. unfold ret. rewrite app_nil_r.
    now rewrite with_stores_same.
  - assert (Hh : JsMap.has (up_stores u) (store_name s) = false).
    { destruct (JsMap.has (up_stores u) (store_name s)) eqn:E; [|reflexivity].
      apply JsMap_has_keys in E. cbn [map] in Hnd.
      apply NoDup_remove_2 in Hnd. exfalso. apply Hnd.
      apply in_or_app. now left. }
    cbn [for_each]. unfold bind at 1.
    change ((db_createObjectStore (store_name s)
               (getKeyPathString (store_keyPath s)) ;;
             for_each (store_indexes s)
               (fun index =>
                  store_createIndex (store_name s) (idx_name index)
                    (idx_keyPath index)
                    (nullish (idx_unique index) false)
                    (nullish (idx_multiEntry index) false))) u)
      with (createStoreFromDefinition s u).
    rewrite createStore_active;
      [|exact Ha|exact Hh|apply Hidx; now left].
    rewrite JsMap_set_absent by exact Hh.
    rewrite IH.
    + cbn [up_stores with_stores map]. now rewrite <- app_assoc.
    + exact Ha.
    + cbn [up_stores with_stores]. unfold JsMap.keys in *.
      rewrite map_app. cbn [map fst] in *. now rewrite <- app_assoc.
    + intros s' Hs'. apply Hidx. now right.
Qed.

Lemma historyStore_internal : isInternalStore SCHEMA_HISTORY_STORE = true.
Proof. reflexivity. Qed.


